(** * PG-Strom: T-tree columnar cache and shared-memory substrate

    A shallow embedding of the functions of [tcache.c] and of the
    shared-memory allocator and message queue of [main.c], with the
    properties of the specification stated over them.

    Conventions of the embedding.
    - C integers ([int], [cl_uint], [BlockNumber], [TransactionId], [Size])
      are [Z].  Where the modelled code can reach the width of a type
      the wrap-around is written out ([tcache_row_store_insert_tuple],
      [tcache_scan_next]), or the value of the C expression is given
      beside the one in [Z] with the bound under which the two agree
      ([Shmem.required_size]).
    - A C array is a [list]; an access [a[i]] is [zth a i], which is
      undefined outside the list.  A column store's arrays have the fixed
      capacity of the chunk, so they may be longer than [nrows]: the rows
      of the chunk are the first [nrows] entries.
    - A function whose C code may dereference NULL, access memory
      outside an array or a buffer, or leave through [elog(ERROR)]
      returns an [outcome]: [Done v], or [Fault] when the call has no
      defined result or does not return.  [Assert] is compiled out, as
      in a production build.
    - Locks and reference counts are not modelled: each function is
      taken as one step made under the locks it acquires.
    - A chunk is modelled by its two system-column arrays, the item
      pointers [ctids] and the tuple headers [theads]; a row is the pair
      of its item pointer and its tuple header.  The arrays of the user
      columns are not held in the model: the loops over the user
      columns are kept, and whether the step for one column completes
      is given by the environment of the call ([tcache_env] below).
      The toast buffers of variable-length columns are modelled on
      their own in [Module Toast]. *)

From Stdlib Require Import ZArith List Lia Bool.
From stdpp Require Import base list gmap.
Import ListNotations.
Open Scope Z_scope.

(** ** Outcomes of possibly faulting code *)

Inductive outcome (A : Type) : Type :=
| Done (a : A)
| Fault.
Arguments Done {A} a.
Arguments Fault {A}.

Definition obind {A B} (m : outcome A) (k : A -> outcome B) : outcome B :=
  match m with
  | Done a => k a
  | Fault => Fault
  end.

Notation "'do' x <- m ; k" := (obind m (fun x => k))
  (at level 10, x name, m at level 100, k at level 200).

(** [a[i]] for a C array [a] and an [int] index. *)
Definition zth {A} (l : list A) (i : Z) : option A :=
  if i <? 0 then None else l !! Z.to_nat i.

Definition read {A} (l : list A) (i : Z) : outcome A :=
  match zth l i with
  | Some a => Done a
  | None => Fault
  end.

(** [for (i = start; ...; i++)] executed [n] times over a state. *)
Fixpoint for_loop {S} (n : nat) (i : Z) (body : Z -> S -> outcome S) (s : S)
  : outcome S :=
  match n with
  | O => Done s
  | S n' => do s' <- body i s; for_loop n' (i + 1) body s'
  end.

(** ** The environment of the chunk functions

    The functions that fill, copy and move rows also allocate shared
    memory and run a loop over the cached user columns.  The arrays of
    the user columns ([cdata[i].isnull], [cdata[i].values],
    [cdata[i].toast]) belong to a type declared in a header that is not
    among the sources, and the code that fills them
    ([heap_deform_tuple], [bitmapcopy], [memcopy], [memswap],
    [tcache_copy_cs_varlena]) is given row numbers and writes these
    arrays and the toast buffers only, never the system columns or the
    counters of the chunk.  The loops over the
    user columns are part of the model; what the step for one column
    does is taken from the environment: it completes ([Done tt]) or it
    does not return ([Fault]: an access outside an array or a toast
    buffer, a NULL [toast] pointer, [elog(ERROR)] out of an
    allocation). *)

Record tcache_env := mkEnv {
  (* tc_head->ncols, the number of cached user columns *)
  ncols : Z;
  (* pgstrom_shmem_alloc in tcache_create_column_store returns a block *)
  have_shmem : bool;
  (* the nodes of the block that tcache_alloc_tcnode obtains from
     pgstrom_shmem_alloc when the free list is empty; NULL is None *)
  node_block : option (list nat);
  (* column i: tcs_new->cdata[i].toast = tcache_create_toast_buffer(..),
     skipped for a column without a toast buffer *)
  assign_toast : Z -> outcome unit;
  (* column i, rows dst src nitems: bitmapcopy of the null bits, then
     memcpy, memcopy or tcache_copy_cs_varlena of the values, from row
     src of the one chunk to row dst of the other *)
  copy_column : Z -> Z -> Z -> Z -> outcome unit;
  (* column i, rows li ri: bitswap and memswap *)
  swap_column : Z -> Z -> Z -> outcome unit;
  (* column i, row r: the value of the tuple is stored in row r *)
  put_column : Z -> Z -> outcome unit
}.

(** [for (i = 0; i < ncols; i++)] with one step for each user column. *)
Definition for_columns (E : tcache_env) (step : Z -> outcome unit)
  : outcome unit :=
  for_loop (Z.to_nat (ncols E)) 0 (fun i _ => step i) tt.

(** ** PostgreSQL definitions used by the cache

    These come from PostgreSQL's headers ([storage/block.h],
    [storage/off.h], [storage/itemptr.h], [access/transam.h],
    [access/htup_details.h], [c.h]) for the default 8kB block size. *)

Definition MaxBlockNumber : Z := 0xFFFFFFFE.
Definition MaxOffsetNumber : Z := 2048.
Definition FirstOffsetNumber : Z := 1.
Definition FrozenTransactionId : Z := 2.
Definition FirstNormalTransactionId : Z := 3.

Definition MAXALIGN (len : Z) : Z := Z.land (len + 7) (Z.lnot 7).

Definition Max (a b : Z) : Z := if a >? b then a else b.

Record ItemPointerData := mkItemPointer {
  ip_blkid : Z;   (* BlockNumber *)
  ip_posid : Z    (* OffsetNumber *)
}.

Definition ItemPointerGetBlockNumber (ip : ItemPointerData) : Z := ip_blkid ip.
Definition ItemPointerGetOffsetNumber (ip : ItemPointerData) : Z := ip_posid ip.
Definition ItemPointerSet (blk off : Z) : ItemPointerData := mkItemPointer blk off.
Definition ItemPointerSetOffsetNumber (ip : ItemPointerData) (off : Z)
  : ItemPointerData := mkItemPointer (ip_blkid ip) off.

Definition ItemPointerCompare (arg1 arg2 : ItemPointerData) : Z :=
  let b1 := ItemPointerGetBlockNumber arg1 in
  let b2 := ItemPointerGetBlockNumber arg2 in
  if b1 <? b2 then -1
  else if b1 >? b2 then 1
  else if ItemPointerGetOffsetNumber arg1 <? ItemPointerGetOffsetNumber arg2 then -1
  else if ItemPointerGetOffsetNumber arg1 >? ItemPointerGetOffsetNumber arg2 then 1
  else 0.

Definition ItemPointerEquals (p1 p2 : ItemPointerData) : bool :=
  (ItemPointerGetBlockNumber p1 =? ItemPointerGetBlockNumber p2) &&
  (ItemPointerGetOffsetNumber p1 =? ItemPointerGetOffsetNumber p2).

Record HeapTupleHeaderData := mkHeapTupleHeader {
  t_xmin : Z;
  t_xmax : Z;
  t_infomask : Z
}.

Definition HeapTupleHeaderGetRawXmax (h : HeapTupleHeaderData) : Z := t_xmax h.

(** ** Column store (chunk) *)

Record tcache_column_store := mkTcs {
  nrows : Z;
  njunks : Z;
  is_sorted : bool;
  blkno_max : Z;
  blkno_min : Z;
  ctids : list ItemPointerData;
  theads : list HeapTupleHeaderData
}.

(** The rows held by a chunk: the first [nrows] entries of its arrays. *)
Definition live {A} (n : Z) (a : list A) : list A := take (Z.to_nat n) a.

Definition rows (tcs : tcache_column_store)
  : list (ItemPointerData * HeapTupleHeaderData) :=
  zip (live (nrows tcs) (ctids tcs)) (live (nrows tcs) (theads tcs)).

(** The arrays hold at least [nrows] entries. *)
Definition tcs_wf (tcs : tcache_column_store) : Prop :=
  0 <= nrows tcs /\
  nrows tcs <= Z.of_nat (length (ctids tcs)) /\
  nrows tcs <= Z.of_nat (length (theads tcs)).

(** A property of the item pointers of all rows of a chunk. *)
Definition all_ctids (P : ItemPointerData -> Prop) (tcs : tcache_column_store)
  : Prop :=
  forall i c, 0 <= i < nrows tcs -> zth (ctids tcs) i = Some c -> P c.

(** The documented invariant of a chunk:
    [blkno_min <= every contained row's block <= blkno_max]. *)
Definition range_inv (tcs : tcache_column_store) : Prop :=
  all_ctids (fun c => blkno_min tcs <= ItemPointerGetBlockNumber c
                      <= blkno_max tcs) tcs.

(** [is_sorted]: item pointers are non-decreasing by index. *)
Definition ctids_sorted (tcs : tcache_column_store) : Prop :=
  forall i j a b, 0 <= i -> i <= j -> j < nrows tcs ->
    zth (ctids tcs) i = Some a -> zth (ctids tcs) j = Some b ->
    ItemPointerCompare a b <= 0.

(** *** tcache_find_next_record *)

Fixpoint bsearch_loop (fuel : nat) (a : list ItemPointerData)
    (ctid : ItemPointerData) (i_min i_max : Z) : outcome Z :=
  if i_min <? i_max then
    match fuel with
    | O => Fault
    | S fuel' =>
        let i_mid := Z.quot (i_min + i_max) 2 in
        do c <- read a i_mid;
        if ItemPointerCompare c ctid >=? 0
        then bsearch_loop fuel' a ctid i_min i_mid
        else bsearch_loop fuel' a ctid (i_mid + 1) i_max
    end
  else Done i_min.

Definition scan_body (a : list ItemPointerData) (ctid : ItemPointerData)
    (i : Z) (st : ItemPointerData * Z) : outcome (ItemPointerData * Z) :=
  let '(ip_cur, index) := st in
  do c <- read a i;
  if (ItemPointerCompare c ctid >=? 0) && (ItemPointerCompare c ip_cur <? 0)
  then Done (c, i)
  else Done (ip_cur, index).

Definition tcache_find_next_record (tcs : tcache_column_store)
    (ctid : ItemPointerData) : outcome Z :=
  let blkno_cur := ItemPointerGetBlockNumber ctid in
  if nrows tcs =? 0 then Done (-1)
  else if blkno_cur >? blkno_max tcs then Done (-1)
  else if is_sorted tcs then
    do i_min <- bsearch_loop (Z.to_nat (nrows tcs)) (ctids tcs) ctid 0 (nrows tcs);
    if (0 <=? i_min) && (i_min <? nrows tcs) then Done i_min else Done (-1)
  else
    do st <- for_loop (Z.to_nat (nrows tcs)) 0 (scan_body (ctids tcs) ctid)
               (ItemPointerSet MaxBlockNumber MaxOffsetNumber, -1);
    Done (snd st).

(** Field assignments [tcs->f = v]. *)
Definition set_nrows (v : Z) (cs : tcache_column_store) :=
  {| nrows := v; njunks := njunks cs; is_sorted := is_sorted cs;
     blkno_max := blkno_max cs; blkno_min := blkno_min cs;
     ctids := ctids cs; theads := theads cs |}.
Definition set_njunks (v : Z) (cs : tcache_column_store) :=
  {| nrows := nrows cs; njunks := v; is_sorted := is_sorted cs;
     blkno_max := blkno_max cs; blkno_min := blkno_min cs;
     ctids := ctids cs; theads := theads cs |}.
Definition set_is_sorted (v : bool) (cs : tcache_column_store) :=
  {| nrows := nrows cs; njunks := njunks cs; is_sorted := v;
     blkno_max := blkno_max cs; blkno_min := blkno_min cs;
     ctids := ctids cs; theads := theads cs |}.
Definition set_blkno_max (v : Z) (cs : tcache_column_store) :=
  {| nrows := nrows cs; njunks := njunks cs; is_sorted := is_sorted cs;
     blkno_max := v; blkno_min := blkno_min cs;
     ctids := ctids cs; theads := theads cs |}.
Definition set_blkno_min (v : Z) (cs : tcache_column_store) :=
  {| nrows := nrows cs; njunks := njunks cs; is_sorted := is_sorted cs;
     blkno_max := blkno_max cs; blkno_min := v;
     ctids := ctids cs; theads := theads cs |}.
Definition set_ctids (v : list ItemPointerData) (cs : tcache_column_store) :=
  {| nrows := nrows cs; njunks := njunks cs; is_sorted := is_sorted cs;
     blkno_max := blkno_max cs; blkno_min := blkno_min cs;
     ctids := v; theads := theads cs |}.
Definition set_theads (v : list HeapTupleHeaderData) (cs : tcache_column_store) :=
  {| nrows := nrows cs; njunks := njunks cs; is_sorted := is_sorted cs;
     blkno_max := blkno_max cs; blkno_min := blkno_min cs;
     ctids := ctids cs; theads := v |}.

(** *** tcache_create_column_store

    A fresh chunk.  Of a fresh array the model keeps the entries written
    so far: the modelled code fills fresh arrays in index order. *)

Definition tcache_create_column_store : tcache_column_store :=
  {| nrows := 0; njunks := 0; is_sorted := false;
     blkno_max := 0; blkno_min := 0; ctids := []; theads := [] |}.

(** The call [tcache_create_column_store(tc_head)] with its allocation:
    [if (!tcs) elog(ERROR, "out of shared memory")]. *)
Definition alloc_column_store (E : tcache_env) : outcome tcache_column_store :=
  if have_shmem E then Done tcache_create_column_store else Fault.

(** [a[i] = x] *)
Definition write {A} (l : list A) (i : Z) (x : A) : outcome (list A) :=
  if i <? 0 then Fault
  else if (Z.to_nat i <? length l)%nat then Done (<[Z.to_nat i := x]> l)
  else if (Z.to_nat i =? length l)%nat then Done (l ++ [x])
  else Fault.

(** [memcpy(dst, a + off, n)] into a fresh array [dst]. *)
Definition memcpy_from {A} (a : list A) (off n : Z) : outcome (list A) :=
  if (0 <=? off) && (0 <=? n) && (off + n <=? Z.of_nat (length a))
  then Done (take (Z.to_nat n) (drop (Z.to_nat off) a))
  else Fault.

(** [memcpy(dst + base, src, n)] *)
Definition memcpy_at {A} (dst : list A) (base : Z) (src : list A) (n : Z)
  : outcome (list A) :=
  if (0 <=? base) && (0 <=? n) && (base <=? Z.of_nat (length dst))
     && (n <=? Z.of_nat (length src))
  then Done (take (Z.to_nat base) dst ++ take (Z.to_nat n) src
             ++ drop (Z.to_nat (base + n)) dst)
  else Fault.

(** *** tcache_compaction_tcnode, on the chunk of the node

    State of the loop: the chunk under construction and the index [j]. *)

Definition compaction_body (E : tcache_env) (tcs_old : tcache_column_store)
    (i : Z) (st : tcache_column_store * Z)
  : outcome (tcache_column_store * Z) :=
  let '(tcs_new, j) := st in
  do h <- read (theads tcs_old) i;
  let xmax := HeapTupleHeaderGetRawXmax h in
  if xmax <? FirstNormalTransactionId then Done (tcs_new, j)
  else
    do c <- read (ctids tcs_old) i;
    do ctids' <- write (ctids tcs_new) j c;
    do theads' <- write (theads tcs_new) j h;
    let tcs_new := set_theads theads' (set_ctids ctids' tcs_new) in
    let blkno_cur := ItemPointerGetBlockNumber c in
    let tcs_new := if blkno_cur >? blkno_max tcs_new
                   then set_blkno_max blkno_cur tcs_new else tcs_new in
    let tcs_new := if blkno_cur <? blkno_min tcs_new
                   then set_blkno_min blkno_cur tcs_new else tcs_new in
    do _ <- for_columns E (fun k => copy_column E k j i 1);
    Done (tcs_new, j + 1).

(** An error inside the [PG_TRY] block releases the new chunk and is
    thrown again: the node keeps its old chunk and the call does not
    return. *)
Definition compaction_tcs (E : tcache_env) (tcs_old : tcache_column_store)
  : outcome tcache_column_store :=
  do tcs_new <- alloc_column_store E;
  do _ <- for_columns E (assign_toast E);
  let tcs_new := set_blkno_min (blkno_max tcs_old) tcs_new in
  let tcs_new := set_blkno_max (blkno_min tcs_old) tcs_new in
  do st <- for_loop (Z.to_nat (nrows tcs_old)) 0 (compaction_body E tcs_old)
             (tcs_new, 0);
  let '(tcs_new, j) := st in
  let tcs_new := set_nrows j tcs_new in
  let tcs_new := set_njunks 0 tcs_new in
  let tcs_new := set_is_sorted (is_sorted tcs_old) tcs_new in
  Done tcs_new.

(** *** tcache_sort_tcnode

    The arrays are sorted in place by swaps.  [pivot] is a pointer into
    the array, hence the index [p]: its value is re-read at each
    comparison.  The two inner [while] loops stop at the latest when
    they leave the array (a [Fault]); the recursion is bounded by
    [fuel]. *)

Definition swap {A} (a : list A) (i j : Z) : outcome (list A) :=
  do x <- read a i;
  do y <- read a j;
  Done (<[Z.to_nat j := x]> (<[Z.to_nat i := y]> a)).

Fixpoint skip_up (fuel : nat) (a : list ItemPointerData) (p li : Z)
  : outcome Z :=
  match fuel with
  | O => Fault
  | S fuel' =>
      do c <- read a li;
      do pv <- read a p;
      if ItemPointerCompare c pv <? 0 then skip_up fuel' a p (li + 1)
      else Done li
  end.

Fixpoint skip_down (fuel : nat) (a : list ItemPointerData) (p ri : Z)
  : outcome Z :=
  match fuel with
  | O => Fault
  | S fuel' =>
      do c <- read a ri;
      do pv <- read a p;
      if ItemPointerCompare c pv >? 0 then skip_down fuel' a p (ri - 1)
      else Done ri
  end.

Definition arrays : Type :=
  (list ItemPointerData * list HeapTupleHeaderData)%type.

Fixpoint partition_loop (E : tcache_env) (fuel : nat) (st : arrays)
    (p li ri : Z) : outcome (arrays * Z * Z) :=
  if li <? ri then
    match fuel with
    | O => Fault
    | S fuel' =>
        let '(c, h) := st in
        do li <- skip_up (S (length c)) c p li;
        do ri <- skip_down (S (length c)) c p ri;
        if li <? ri then
          do c' <- swap c li ri;
          do h' <- swap h li ri;
          do _ <- for_columns E (fun i => swap_column E i li ri);
          partition_loop E fuel' (c', h') p (li + 1) (ri - 1)
        else partition_loop E fuel' (c, h) p li ri
    end
  else Done (st, li, ri).

Fixpoint tcache_sort_tcnode_internal (E : tcache_env) (fuel : nat)
    (st : arrays) (left right : Z) : outcome arrays :=
  let li := left in
  let ri := right in
  let p := Z.quot (li + ri) 2 in
  if left >=? right then Done st
  else
    match fuel with
    | O => Fault
    | S fuel' =>
        do r <- partition_loop E (S (length (fst st))) st p li ri;
        let '(st, li, ri) := r in
        do st <- tcache_sort_tcnode_internal E fuel' st left (li - 1);
        tcache_sort_tcnode_internal E fuel' st (ri + 1) right
    end.

(** [tcache_sort_tcnode(tc_head, tc_node, true)]: in place. *)
Definition sort_tcs_inplace (E : tcache_env) (cs : tcache_column_store)
  : outcome tcache_column_store :=
  do st <- tcache_sort_tcnode_internal E (S (Z.to_nat (nrows cs)))
             (ctids cs, theads cs) 0 (nrows cs - 1);
  Done (set_is_sorted true (set_theads (snd st) (set_ctids (fst st) cs))).

(** ** T-tree nodes

    A node owns a chunk ([tcs], NULL once the node is released) and its
    two subtrees.  [chain] stands for the node's address, by which the
    free list of the cache head refers to it. *)

#[local] Unset Elimination Schemes.
Inductive tcache_node : Type := mkNode {
  chain : nat;
  tcs : option tcache_column_store;
  left : option tcache_node;
  right : option tcache_node;
  l_depth : Z;
  r_depth : Z
}.
#[local] Set Elimination Schemes.

Definition set_tcs (v : option tcache_column_store) (n : tcache_node) :=
  {| chain := chain n; tcs := v; left := left n; right := right n;
     l_depth := l_depth n; r_depth := r_depth n |}.
Definition set_right (v : option tcache_node) (n : tcache_node) :=
  {| chain := chain n; tcs := tcs n; left := left n; right := v;
     l_depth := l_depth n; r_depth := r_depth n |}.
Definition set_r_depth (v : Z) (n : tcache_node) :=
  {| chain := chain n; tcs := tcs n; left := left n; right := right n;
     l_depth := l_depth n; r_depth := v |}.

(** [tc_node->tcs], a NULL-pointer dereference when the chunk is gone. *)
Definition node_tcs (n : tcache_node) : outcome tcache_column_store :=
  match tcs n with
  | Some cs => Done cs
  | None => Fault
  end.

Definition tcache_compaction_tcnode (E : tcache_env) (tc_node : tcache_node)
  : outcome tcache_node :=
  do tcs_old <- node_tcs tc_node;
  do tcs_new <- compaction_tcs E tcs_old;
  Done (set_tcs (Some tcs_new) tc_node).

(** *** do_try_merge_tcnode

    [cap] is [NUM_ROWS_PER_COLSTORE], the fixed row capacity of a chunk.
    The result is the flag returned and the parent node, whose chunk
    received the rows. *)

Definition do_try_merge_tcnode (E : tcache_env) (cap : Z)
    (tc_parent tc_child : tcache_node) : outcome (bool * tcache_node) :=
  do ptcs <- node_tcs tc_parent;
  do ctcs <- node_tcs tc_child;
  if (nrows ptcs <? Z.quot cap 2) &&
     (nrows ctcs <? Z.quot cap 2) &&
     (nrows ptcs + nrows ctcs <? Z.quot (2 * cap) 3)
  then
    let tcs_src := ctcs in
    let tcs_dst := ptcs in
    let base := nrows tcs_dst in
    let nmoved := nrows tcs_src in
    do ctids' <- memcpy_at (ctids tcs_dst) base (ctids tcs_src) nmoved;
    do theads' <- memcpy_at (theads tcs_dst) base (theads tcs_src) nmoved;
    do _ <- for_columns E (fun i => copy_column E i base 0 nmoved);
    let tcs_dst := set_theads theads' (set_ctids ctids' tcs_dst) in
    let tcs_dst := set_nrows (nrows tcs_dst + nrows tcs_src) tcs_dst in
    let tcs_dst := set_njunks (njunks tcs_dst + njunks tcs_src) tcs_dst in
    let tcs_dst :=
      set_blkno_max (Max (blkno_max tcs_dst) (blkno_max tcs_src)) tcs_dst in
    let tcs_dst :=
      set_blkno_min (Max (blkno_min tcs_dst) (blkno_min tcs_src)) tcs_dst in
    Done (true, set_tcs (Some tcs_dst) tc_parent)
  else Done (false, tc_parent).

(** *** tcache_find_next_internal, tcache_find_prev_internal

    The C functions return a [void *]: the node, or with [column_store]
    set the node's chunk.  The test [!tc_node->left || blkno_cur >=
    blkno_min] is written as a match on the left child, which the
    descent needs. *)

Inductive found : Type :=
| FoundNode (n : tcache_node)
| FoundTcs (cs : tcache_column_store).

Definition answer (column_store : bool) (tc_node : tcache_node)
    (cs : tcache_column_store) : found :=
  if column_store then FoundTcs cs else FoundNode tc_node.

Fixpoint tcache_find_next_internal (tc_node : tcache_node) (blkno_cur : Z)
    (column_store : bool) {struct tc_node} : outcome (option found) :=
  match tcs tc_node with
  | None => Fault
  | Some cs =>
      if nrows cs =? 0 then Done None
      else if blkno_cur >? blkno_max cs then
        match right tc_node with
        | None => Done None
        | Some r => tcache_find_next_internal r blkno_cur column_store
        end
      else
        match left tc_node with
        | None => Done (Some (answer column_store tc_node cs))
        | Some l =>
            if blkno_cur >=? blkno_min cs
            then Done (Some (answer column_store tc_node cs))
            else
              do temp <- tcache_find_next_internal l blkno_cur column_store;
              match temp with
              | Some t => Done (Some t)
              | None => Done (Some (answer column_store tc_node cs))
              end
        end
  end.

Fixpoint tcache_find_prev_internal (tc_node : tcache_node) (blkno_cur : Z)
    (column_store : bool) {struct tc_node} : outcome (option found) :=
  match tcs tc_node with
  | None => Fault
  | Some cs =>
      if nrows cs =? 0 then Done None
      else if blkno_cur <? blkno_min cs then
        match left tc_node with
        | None => Done None
        | Some l => tcache_find_prev_internal l blkno_cur column_store
        end
      else
        match right tc_node with
        | None => Done (Some (answer column_store tc_node cs))
        | Some r =>
            if blkno_cur <=? blkno_max cs
            then Done (Some (answer column_store tc_node cs))
            else
              do temp <- tcache_find_prev_internal r blkno_cur column_store;
              match temp with
              | Some t => Done (Some t)
              | None => Done (Some (answer column_store tc_node cs))
              end
        end
  end.

(** ** Cache head and scan descriptor *)

Inductive tcache_state : Type :=
| TCACHE_STATE_NOT_BUILT
| TCACHE_STATE_NOW_BUILD
| TCACHE_STATE_READY.

Record tcache_head := mkHead {
  refcnt : Z;
  state : tcache_state;
  tcs_root : option tcache_node;
  free_list : list nat            (* chains of the nodes free for reuse *)
}.

Definition set_state (v : tcache_state) (h : tcache_head) :=
  {| refcnt := refcnt h; state := v; tcs_root := tcs_root h;
     free_list := free_list h |}.
Definition set_refcnt (v : Z) (h : tcache_head) :=
  {| refcnt := v; state := state h; tcs_root := tcs_root h;
     free_list := free_list h |}.
Definition set_tcs_root (v : option tcache_node) (h : tcache_head) :=
  {| refcnt := refcnt h; state := state h; tcs_root := v;
     free_list := free_list h |}.
Definition set_free_list (v : list nat) (h : tcache_head) :=
  {| refcnt := refcnt h; state := state h; tcs_root := tcs_root h;
     free_list := v |}.

(** [heapscan] is the open heap scan of a scan that builds the cache,
    NULL otherwise; [tcs_curr] the chunk the scan currently holds. *)
Record tcache_scandesc := mkScan {
  heapscan : option unit;
  tcs_curr : option tcache_column_store
}.

(** *** tcache_free_node_nolock, tcache_free_node_recurse

    The released node drops its chunk and is pushed on the head of the
    free list.  The nodes are mutated in place, so the tree comes back
    with the updated nodes; the free list is threaded through. *)

Definition tcache_free_node_nolock (fl : list nat) (tc_node : tcache_node)
  : list nat * tcache_node :=
  (chain tc_node :: fl, set_tcs None tc_node).

Fixpoint tcache_free_node_recurse (fl : list nat) (tc_node : tcache_node)
    {struct tc_node} : list nat * tcache_node :=
  let '(fl, r) :=
    match right tc_node with
    | Some r => let '(fl, r) := tcache_free_node_recurse fl r in (fl, Some r)
    | None => (fl, None)
    end in
  let '(fl, l) :=
    match left tc_node with
    | Some l => let '(fl, l) := tcache_free_node_recurse fl l in (fl, Some l)
    | None => (fl, None)
    end in
  tcache_free_node_nolock fl
    {| chain := chain tc_node; tcs := tcs tc_node; left := l; right := r;
       l_depth := l_depth tc_node; r_depth := r_depth tc_node |}.

(** [tcache_free_node_recurse(tc_head, tc_head->tcs_root)] *)
Definition free_root (tc_head : tcache_head) : outcome tcache_head :=
  match tcs_root tc_head with
  | None => Fault
  | Some root =>
      let '(fl, root) := tcache_free_node_recurse (free_list tc_head) root in
      Done (set_tcs_root (Some root) (set_free_list fl tc_head))
  end.

(** *** tcache_put_tchead: [None] once the head itself is released. *)
Definition tcache_put_tchead (tc_head : tcache_head)
  : outcome (option tcache_head) :=
  let tc_head := set_refcnt (refcnt tc_head - 1) tc_head in
  if refcnt tc_head =? 0 then
    do _ <- free_root tc_head;
    Done None
  else Done (Some tc_head).

(** *** tcache_begin_scan, on the head found by [tcache_get_tchead].

    The lock upgrade and its [retry] are left out: run alone, the scan
    sees the same state after re-acquiring the lock. *)
Definition tcache_begin_scan (tc_head : tcache_head)
  : tcache_scandesc * tcache_head :=
  match state tc_head with
  | TCACHE_STATE_NOT_BUILT =>
      ({| heapscan := Some tt; tcs_curr := None |},
       set_state TCACHE_STATE_NOW_BUILD tc_head)
  | _ => ({| heapscan := None; tcs_curr := None |}, tc_head)
  end.

(** *** tcache_end_scan *)
Definition tcache_end_scan (tc_scan : tcache_scandesc) (tc_head : tcache_head)
  : outcome (option tcache_head) :=
  do tc_head <-
    match heapscan tc_scan with
    | Some _ => free_root tc_head
    | None =>
        match state tc_head with
        | TCACHE_STATE_NOW_BUILD => Done (set_state TCACHE_STATE_READY tc_head)
        | _ => Done tc_head
        end
    end;
  tcache_put_tchead tc_head.

(** *** tcache_rescan *)
Definition tcache_rescan (tc_scan : tcache_scandesc) (tc_head : tcache_head)
  : outcome (tcache_scandesc * tcache_head) :=
  let tc_scan := {| heapscan := heapscan tc_scan; tcs_curr := None |} in
  do tc_head <-
    match state tc_head with
    | TCACHE_STATE_NOW_BUILD => free_root tc_head
    | _ => Done tc_head
    end;
  Done (tc_scan, tc_head).

(** *** tcache_alloc_tcnode

    The node is taken from the free list of the head, which is filled
    from a fresh block of shared memory when it is empty.  The call
    [memset(&tc_node, 0, sizeof(tcache_node))] is given the address of
    the local pointer, not the node: it clears the pointer (and the
    stack behind it), and the next statement, [SpinLockInit], writes
    through the cleared pointer. *)

Definition deref {A} (p : option A) : outcome A :=
  match p with
  | Some a => Done a
  | None => Fault
  end.

Definition tcache_alloc_tcnode (E : tcache_env) (tc_head : tcache_head)
  : outcome (tcache_head * tcache_node) :=
  do tc_head <-
    (match free_list tc_head with
     | [] =>
         match node_block E with
         | None => Fault
         | Some nodes =>
             Done (set_free_list (free_list tc_head ++ nodes) tc_head)
         end
     | _ :: _ => Done tc_head
     end);
  match free_list tc_head with
  | [] => Fault
  | dnode :: rest =>
      let tc_head := set_free_list rest tc_head in
      (* tc_node = dlist_container(tcache_node, chain, dnode) *)
      let tc_node : option nat := Some dnode in
      (* memset(&tc_node, 0, sizeof(tcache_node)) *)
      let tc_node : option nat := None in
      (* SpinLockInit(&tc_node->lock) *)
      do a <- deref tc_node;
      do cs <- alloc_column_store E;
      Done (tc_head,
            {| chain := a; tcs := Some cs; left := None; right := None;
               l_depth := 0; r_depth := 0 |})
  end.

(** *** tcache_split_tcnode

    [for (nremain = nrows; nremain > 0; nremain--)
       if (block(ctids[nremain - 1]) != blkno_max) break;] *)
Fixpoint find_nremain (a : list ItemPointerData) (bmax : Z) (nremain : nat)
  : outcome Z :=
  match nremain with
  | O => Done 0
  | S k =>
      do c <- read a (Z.of_nat k);
      if negb (ItemPointerGetBlockNumber c =? bmax) then Done (Z.of_nat (S k))
      else find_nremain a bmax k
  end.

(** The result is the head and the old node, whose right child is the
    new node.  An error inside the [PG_TRY] block releases the new node
    and is thrown again. *)
Definition tcache_split_tcnode (E : tcache_env) (tc_head : tcache_head)
    (tc_node_old : tcache_node) : outcome (tcache_head * tcache_node) :=
  do r <- tcache_alloc_tcnode E tc_head;
  let '(tc_head, tc_node_new) := r in
  do tcs_new <- node_tcs tc_node_new;
  do tcs_old <- node_tcs tc_node_old;
  do _ <- for_columns E (assign_toast E);
  do tcs_old <- (if negb (is_sorted tcs_old)
                 then sort_tcs_inplace E tcs_old else Done tcs_old);
  do nremain <- find_nremain (ctids tcs_old) (blkno_max tcs_old)
                  (Z.to_nat (nrows tcs_old));
  let nmoved := nrows tcs_old - nremain in
  do ctids' <- memcpy_from (ctids tcs_old) nremain nmoved;
  do theads' <- memcpy_from (theads tcs_old) nremain nmoved;
  do _ <- for_columns E (fun i => copy_column E i 0 nremain nmoved);
  let tcs_new := set_theads theads' (set_ctids ctids' tcs_new) in
  let tcs_new := set_nrows nmoved tcs_new in
  let tcs_new := set_njunks 0 tcs_new in
  let tcs_new := set_is_sorted true tcs_new in
  do c0 <- read (ctids tcs_new) 0;
  let tcs_new := set_blkno_min (ItemPointerGetBlockNumber c0) tcs_new in
  do cl <- read (ctids tcs_new) (nmoved - 1);
  let tcs_new := set_blkno_max (ItemPointerGetBlockNumber cl) tcs_new in
  let tc_node_new := set_tcs (Some tcs_new) tc_node_new in
  let tc_node_new := set_right (right tc_node_old) tc_node_new in
  let tc_node_new := set_r_depth (r_depth tc_node_old) tc_node_new in
  let tc_node_old := set_right (Some tc_node_new) tc_node_old in
  let tc_node_old := set_r_depth (r_depth tc_node_new + 1) tc_node_old in
  let tcs_old := set_nrows nremain tcs_old in
  do cr <- read (ctids tcs_old) (nremain - 1);
  let tcs_old := set_blkno_max (ItemPointerGetBlockNumber cr) tcs_old in
  let tc_node_old := set_tcs (Some tcs_old) tc_node_old in
  do tc_node_old <- tcache_compaction_tcnode E tc_node_old;
  Done (tc_head, tc_node_old).

(** ** Row store and page vacuum *)

Module RowStore.

(** Line pointers of a heap page ([storage/itemid.h], [storage/bufpage.h]). *)
Definition LP_NORMAL : Z := 1.
Definition LP_REDIRECT : Z := 2.
Definition LP_DEAD : Z := 3.

Record ItemIdData := mkItemId {
  lp_off : Z;
  lp_flags : Z;
  lp_len : Z
}.

Definition ItemIdIsNormal (itemid : ItemIdData) : bool := lp_flags itemid =? LP_NORMAL.
Definition ItemIdIsRedirected (itemid : ItemIdData) : bool := lp_flags itemid =? LP_REDIRECT.
Definition ItemIdGetRedirect (itemid : ItemIdData) : Z := lp_off itemid.
Definition ItemIdGetOffset (itemid : ItemIdData) : Z := lp_off itemid.

Definition Page : Type := list ItemIdData.

Definition PageGetItemId (page : Page) (offnum : Z) : outcome ItemIdData :=
  read page (offnum - 1).

Record Buffer := mkBuffer {
  BufferGetBlockNumber : Z;
  BufferGetPage : Page
}.

(** A heap tuple as the row store keeps it: the [HeapTupleData] fields
    the cache uses and the tuple header. *)
Record rs_tuple := mkRsTuple {
  t_len : Z;
  t_self : ItemPointerData;
  data : HeapTupleHeaderData
}.

(** [tupoffset] is the offset-index array growing from the low end;
    the tuples live at these byte offsets, counted from [&trs->kern]. *)
Record kern_row_store := mkKrs {
  nrows : Z;
  tupoffset : list Z
}.

Record tcache_row_store := mkTrs {
  usage : Z;
  blkno_max : Z;
  blkno_min : Z;
  kern : kern_row_store;
  tuples : gmap Z rs_tuple
}.

(** [kern_rowstore_get_tuple] of the missing header [opencl_common.h]:
    NULL for an index beyond [nrows] and for a zeroed offset, as its
    callers expect ([if (!rs_tup) continue;]). *)
Definition kern_rowstore_get_tuple (trs : tcache_row_store) (rindex : Z)
  : outcome (option rs_tuple) :=
  if rindex >=? nrows (kern trs) then Done None
  else
    do off <- read (tupoffset (kern trs)) rindex;
    if off =? 0 then Done None
    else match tuples trs !! off with
         | Some t => Done (Some t)
         | None => Fault
         end.

(** [tcache_create_row_store]; [usage0] is the room computed from
    [ROWSTORE_DEFAULT_SIZE] and the header sizes. *)
Definition tcache_create_row_store (usage0 : Z) : tcache_row_store :=
  {| usage := usage0; blkno_max := 0; blkno_min := MaxBlockNumber;
     kern := {| nrows := 0; tupoffset := [] |}; tuples := ∅ |}.

Definition sizeof_HeapTupleData : Z := 24.

(** [tcache_row_store_insert_tuple]; [base] is the byte offset of the
    [tupoffset] array from [&trs->kern].  [Size] arithmetic is unsigned,
    64 bits wide. *)
Definition tcache_row_store_insert_tuple (base : Z) (trs : tcache_row_store)
    (tuple : rs_tuple) : outcome (tcache_row_store * bool) :=
  let required := MAXALIGN sizeof_HeapTupleData + MAXALIGN (t_len tuple) in
  let usage_head := base + 4 * (nrows (kern trs) + 1) in
  let usage_tail := (usage trs - required) mod 2 ^ 64 in
  if usage_head <? usage_tail then
    do tupoffset' <- write (tupoffset (kern trs)) (nrows (kern trs)) usage_tail;
    let blk := ItemPointerGetBlockNumber (t_self tuple) in
    Done ({| usage := usage_tail;
             blkno_max := if blkno_max trs <? blk then blk else blkno_max trs;
             blkno_min := if blkno_min trs >? blk then blk else blkno_min trs;
             kern := {| nrows := nrows (kern trs) + 1; tupoffset := tupoffset' |};
             tuples := <[usage_tail := tuple]> (tuples trs) |}, true)
  else Done (trs, false).

(** [while (ItemIdIsRedirected(itemid))
       itemid = PageGetItemId(page, ItemIdGetRedirect(itemid));]
    A chain longer than [fuel] line pointers is a cycle. *)
Fixpoint follow_redirect (fuel : nat) (page : Page) (itemid : ItemIdData)
  : outcome ItemIdData :=
  if ItemIdIsRedirected itemid then
    match fuel with
    | O => Fault
    | S fuel' =>
        do itemid <- PageGetItemId page (ItemIdGetRedirect itemid);
        follow_redirect fuel' page itemid
    end
  else Done itemid.

Definition set_tupoffset (v : list Z) (trs : tcache_row_store) :=
  {| usage := usage trs; blkno_max := blkno_max trs; blkno_min := blkno_min trs;
     kern := {| nrows := nrows (kern trs); tupoffset := v |};
     tuples := tuples trs |}.
Definition set_tuples (v : gmap Z rs_tuple) (trs : tcache_row_store) :=
  {| usage := usage trs; blkno_max := blkno_max trs; blkno_min := blkno_min trs;
     kern := kern trs; tuples := v |}.

Definition vacuum_body (blknum : Z) (page : Page) (index : Z)
    (trs : tcache_row_store) : outcome tcache_row_store :=
  do rs_tup <- kern_rowstore_get_tuple trs index;
  match rs_tup with
  | None => Done trs
  | Some rs_tup =>
      if negb (ItemPointerGetBlockNumber (t_self rs_tup) =? blknum) then Done trs
      else
        let offnum := ItemPointerGetOffsetNumber (t_self rs_tup) in
        do itemid <- PageGetItemId page offnum;
        if negb (ItemIdIsNormal itemid) then
          do itemid <- follow_redirect (length page) page itemid;
          if ItemIdIsNormal itemid then
            do off <- read (tupoffset (kern trs)) index;
            let rs_tup' :=
              {| t_len := t_len rs_tup;
                 t_self := ItemPointerSetOffsetNumber (t_self rs_tup)
                             (ItemIdGetOffset itemid);
                 data := data rs_tup |} in
            Done (set_tuples (<[off := rs_tup']> (tuples trs)) trs)
          else
            do tupoffset' <- write (tupoffset (kern trs)) index 0;
            Done (set_tupoffset tupoffset' trs)
        else Done trs
  end.

Definition do_vacuum_row_store (trs : tcache_row_store) (buffer : Buffer)
  : outcome tcache_row_store :=
  let blknum := BufferGetBlockNumber buffer in
  if (blknum <? blkno_min trs) || (blkno_max trs >? blknum) then Done trs
  else
    let page := BufferGetPage buffer in
    for_loop (Z.to_nat (nrows (kern trs))) 0 (vacuum_body blknum page) trs.

(** The test the sibling [tcache_update_tuple_hints_rowstore] makes
    before it walks a row store. *)
Definition outside_range (trs : tcache_row_store) (blk : Z) : bool :=
  (blk >? blkno_max trs) || (blk <? blkno_min trs).

(** *** tcache_update_tuple_hints_rowstore

    [memcpy(&rs_tup->data, tuple->t_data, sizeof(HeapTupleHeaderData))]
    replaces the header of the stored tuple.  The loop returns at the
    first tuple with the item pointer of [tuple]. *)

Fixpoint hints_loop (n : nat) (index : Z) (trs : tcache_row_store)
    (tuple : rs_tuple) : outcome (tcache_row_store * bool) :=
  match n with
  | O => Done (trs, false)
  | S n' =>
      do rs_tup <- kern_rowstore_get_tuple trs index;
      match rs_tup with
      | None => hints_loop n' (index + 1) trs tuple
      | Some rs_tup =>
          if ItemPointerEquals (t_self rs_tup) (t_self tuple) then
            do off <- read (tupoffset (kern trs)) index;
            let rs_tup' := {| t_len := t_len rs_tup; t_self := t_self rs_tup;
                              data := data tuple |} in
            Done (set_tuples (<[off := rs_tup']> (tuples trs)) trs, true)
          else hints_loop n' (index + 1) trs tuple
      end
  end.

Definition tcache_update_tuple_hints_rowstore (trs : tcache_row_store)
    (tuple : rs_tuple) : outcome (tcache_row_store * bool) :=
  if outside_range trs (ItemPointerGetBlockNumber (t_self tuple))
  then Done (trs, false)
  else hints_loop (Z.to_nat (nrows (kern trs))) 0 trs tuple.

End RowStore.

(** ** Shared-memory arena *)

Module Shmem.

Definition SHMEM_BLOCK_FREE : Z := 0xF9EEA9EA.
Definition SHMEM_BLOCK_USED : Z := 0xA110CED0.
Definition SHMEM_BLOCK_OVERRUN_MARK : Z := 0xDEADBEAF.
Definition SHMEM_BLOCK_STROM_QUEUE : Z := Z.lor SHMEM_BLOCK_USED 0x01.
Definition SHMEM_BLOCK_KERNEL_PARAMS : Z := Z.lor SHMEM_BLOCK_USED 0x02.

(** [overrun_marker] is the [uint32] at the tail of the block,
    [SHMEM_BLOCK_OVERRUN_MARKER(block)]. *)
Record ShmemBlock := mkBlock {
  magic : Z;
  size : Z;
  pid : Z;
  owner : Z;
  overrun_marker : Z
}.

(** Blocks are named by their address.  [addr_head] lists them in
    address order, [free_head] is the free list. *)
Record ShmemHead := mkShmem {
  total_size : Z;
  free_size : Z;
  addr_head : list Z;
  free_head : list Z;
  blocks : gmap Z ShmemBlock
}.

(** [offsetof(ShmemBlock, data)] and [sizeof(uint32)] on LP64. *)
Definition offsetof_data : Z := 64.
Definition sizeof_uint32 : Z := 4.

Definition required_size (size : Z) : Z :=
  MAXALIGN (offsetof_data + MAXALIGN size + sizeof_uint32).

(** The C code computes this sum in [Size], 64 bits wide and unsigned,
    where it wraps: [required_size_wrap] is the value of the C
    expression for every [size].  The two agree as long as
    [size + 82 < 2 ^ 64]; for a request within 82 bytes of [2 ^ 64]
    the C value is small or zero.  What is stated about requests of
    any size is stated for the requests below that bound. *)
Definition Size_wrap (x : Z) : Z := x mod 2 ^ 64.
Definition MAXALIGN_Size (len : Z) : Z :=
  Z.land (Size_wrap (len + 7)) (Size_wrap (Z.lnot 7)).
Definition required_size_wrap (size : Z) : Z :=
  MAXALIGN_Size (Size_wrap (offsetof_data + MAXALIGN_Size size + sizeof_uint32)).

Fixpoint dlist_delete (x : Z) (l : list Z) : list Z :=
  match l with
  | [] => []
  | y :: l' => if y =? x then l' else y :: dlist_delete x l'
  end.

Fixpoint dlist_insert_after (x new : Z) (l : list Z) : list Z :=
  match l with
  | [] => []
  | y :: l' => if y =? x then y :: new :: l' else y :: dlist_insert_after x new l'
  end.

Definition block_at (h : ShmemHead) (addr : Z) : outcome ShmemBlock :=
  match blocks h !! addr with
  | Some b => Done b
  | None => Fault
  end.

(** The body of [dlist_foreach(iter, &pgstrom_shmem_head->free_head)];
    [block] is the local variable of that name, assigned at the top of
    each iteration. *)
Fixpoint alloc_loop (h : ShmemHead) (iter : list Z) (block : option Z)
    (magic' required : Z) : outcome (ShmemHead * option Z) :=
  match iter with
  | [] => Done (h, block)
  | cur :: rest =>
      let block := Some cur in
      do b <- block_at h cur;
      if size b <? required then alloc_loop h rest block magic' required
      else if size b <? required + 4096 then
        Done ({| total_size := total_size h;
                 free_size := free_size h - size b;
                 addr_head := addr_head h;
                 free_head := dlist_delete cur (free_head h);
                 blocks := <[cur := {| magic := magic'; size := size b;
                                       pid := pid b; owner := owner b;
                                       overrun_marker := overrun_marker b |}]>
                             (blocks h) |}, block)
      else
        let block_new := cur + required in
        Done ({| total_size := total_size h;
                 free_size := free_size h;
                 addr_head := dlist_insert_after cur block_new (addr_head h);
                 free_head := block_new :: dlist_delete cur (free_head h);
                 blocks :=
                   <[cur := {| magic := magic'; size := required;
                               pid := pid b; owner := owner b;
                               overrun_marker := overrun_marker b |}]>
                   (<[block_new := {| magic := SHMEM_BLOCK_FREE;
                                      size := size b - required;
                                      pid := 0; owner := 0;
                                      overrun_marker := 0 |}]>
                      (blocks h)) |}, block)
  end.

(** [pgstrom_shmem_alloc]; [mypid] and [myowner] are [getpid()] and
    [CurrentResourceOwner].  The result is NULL or the block's address. *)
Definition pgstrom_shmem_alloc (mypid myowner : Z) (h : ShmemHead)
    (magic' size' : Z) : outcome (ShmemHead * option Z) :=
  let required := required_size size' in
  do r <- alloc_loop h (free_head h) None magic' required;
  let '(h, block) := r in
  match block with
  | Some addr =>
      do b <- block_at h addr;
      Done ({| total_size := total_size h; free_size := free_size h;
               addr_head := addr_head h; free_head := free_head h;
               blocks := <[addr := {| magic := magic b; size := size b;
                                      pid := mypid; owner := myowner;
                                      overrun_marker := SHMEM_BLOCK_OVERRUN_MARK |}]>
                           (blocks h) |}, Some addr)
  | None => Done (h, None)
  end.

(** *** pgstrom_shmem_startup

    The segment starts as one free block; [first] is the address of
    [first_block], [total] the size of the segment behind the head. *)
Definition pgstrom_shmem_startup (first total : Z) : ShmemHead :=
  {| total_size := total; free_size := total;
     addr_head := [first]; free_head := [first];
     blocks := {[ first := {| magic := SHMEM_BLOCK_FREE; size := total;
                              pid := 0; owner := 0; overrun_marker := 0 |} ]} |}.

(** *** pgstrom_shmem_free

    [dlist_has_prev] with [dlist_prev_node], and [dlist_has_next] with
    [dlist_next_node], on the list in address order. *)
Fixpoint dlist_prev (x : Z) (l : list Z) : option Z :=
  match l with
  | a :: l' =>
      match l' with
      | b :: _ => if b =? x then Some a else dlist_prev x l'
      | [] => None
      end
  | [] => None
  end.

Fixpoint dlist_next (x : Z) (l : list Z) : option Z :=
  match l with
  | a :: l' =>
      if a =? x then match l' with b :: _ => Some b | [] => None end
      else dlist_next x l'
  | [] => None
  end.

Definition set_size (v : Z) (b : ShmemBlock) : ShmemBlock :=
  {| magic := magic b; size := v; pid := pid b; owner := owner b;
     overrun_marker := overrun_marker b |}.
Definition set_magic (v : Z) (b : ShmemBlock) : ShmemBlock :=
  {| magic := v; size := size b; pid := pid b; owner := owner b;
     overrun_marker := overrun_marker b |}.

(** [merge, if previous block is also free]: the head and the block
    that [block] points to afterwards. *)
Definition free_merge_prev (h : ShmemHead) (block : Z)
  : outcome (ShmemHead * Z) :=
  match dlist_prev block (addr_head h) with
  | None => Done (h, block)
  | Some prev =>
      do b <- block_at h block;
      do p <- block_at h prev;
      if magic p =? SHMEM_BLOCK_FREE then
        Done ({| total_size := total_size h; free_size := free_size h;
                 addr_head := dlist_delete block (addr_head h);
                 free_head := dlist_delete prev (free_head h);
                 blocks := <[prev := set_size (size p + size b) p]> (blocks h) |},
              prev)
      else Done (h, block)
  end.

(** [merge, if next block is also free] *)
Definition free_merge_next (h : ShmemHead) (block : Z) : outcome ShmemHead :=
  match dlist_next block (addr_head h) with
  | None => Done h
  | Some next =>
      do b <- block_at h block;
      do n <- block_at h next;
      if magic n =? SHMEM_BLOCK_FREE then
        Done {| total_size := total_size h; free_size := free_size h;
                addr_head := dlist_delete next (addr_head h);
                free_head := dlist_delete next (free_head h);
                blocks := <[block := set_size (size b + size n) b]> (blocks h) |}
      else Done h
  end.

Definition pgstrom_shmem_free (h : ShmemHead) (block : Z) : outcome ShmemHead :=
  do b <- block_at h block;
  let h := {| total_size := total_size h; free_size := free_size h + size b;
              addr_head := addr_head h; free_head := free_head h;
              blocks := blocks h |} in
  do r <- free_merge_prev h block;
  let '(h, block) := r in
  do h <- free_merge_next h block;
  do b <- block_at h block;
  Done {| total_size := total_size h; free_size := free_size h;
          addr_head := addr_head h; free_head := block :: free_head h;
          blocks := <[block := set_magic SHMEM_BLOCK_FREE b]> (blocks h) |}.

End Shmem.

(** ** Message queue *)

Module Queue.

(** Calls made on the queue's condition variable. *)
Inductive cond_event : Type :=
| cond_signal
| cond_broadcast.

Record StromQueue := mkQueue {
  head : list nat;
  is_shutdown : bool
}.

(** Each operation runs under the queue's mutex; it yields the queue,
    its result and the calls it made on the condition variable. *)

Definition pgstrom_queue_enqueue (queue : StromQueue) (chain : nat)
  : StromQueue * bool * list cond_event :=
  if negb (is_shutdown queue)
  then ({| head := head queue ++ [chain]; is_shutdown := is_shutdown queue |},
        true, [cond_signal])
  else (queue, false, [cond_signal]).

Definition dlist_pop_head_node (queue : StromQueue)
  : StromQueue * option nat :=
  match head queue with
  | [] => (queue, None)
  | x :: l => ({| head := l; is_shutdown := is_shutdown queue |}, Some x)
  end.

Definition pgstrom_queue_try_dequeue (queue : StromQueue)
  : StromQueue * option nat * list cond_event :=
  (dlist_pop_head_node queue, []).

(** [pgstrom_queue_dequeue] up to its wait: [inl] is the result when an
    item was at hand, [inr tt] when the caller starts to wait on the
    condition variable (which releases the mutex). *)
Definition pgstrom_queue_dequeue_enter (queue : StromQueue)
  : StromQueue * (option nat + unit) * list cond_event :=
  match head queue with
  | [] => (queue, inr tt, [])
  | _ => let '(q, r) := dlist_pop_head_node queue in (q, inl r, [])
  end.

(** ... and from the return of [pgstrom_cond_wait], whose result is
    [woken], on the queue as it is by then. *)
Definition pgstrom_queue_dequeue_wake (queue : StromQueue) (woken : bool)
  : StromQueue * option nat * list cond_event :=
  if woken && negb (match head queue with [] => true | _ => false end)
  then (dlist_pop_head_node queue, [])
  else (queue, None, []).

Definition pgstrom_queue_is_empty (queue : StromQueue)
  : StromQueue * bool * list cond_event :=
  (queue, match head queue with [] => true | _ => false end, []).

Definition pgstrom_queue_shutdown (queue : StromQueue)
  : StromQueue * unit * list cond_event :=
  ({| head := head queue; is_shutdown := true |}, tt, []).

(** The operations processes perform on a queue after its allocation. *)
Inductive queue_op : Type :=
| op_enqueue (chain : nat)
| op_try_dequeue
| op_dequeue_enter
| op_dequeue_wake (woken : bool)
| op_is_empty
| op_shutdown.

Definition run_op (queue : StromQueue) (op : queue_op) : StromQueue :=
  match op with
  | op_enqueue chain => fst (fst (pgstrom_queue_enqueue queue chain))
  | op_try_dequeue => fst (fst (pgstrom_queue_try_dequeue queue))
  | op_dequeue_enter => fst (fst (pgstrom_queue_dequeue_enter queue))
  | op_dequeue_wake woken => fst (fst (pgstrom_queue_dequeue_wake queue woken))
  | op_is_empty => fst (fst (pgstrom_queue_is_empty queue))
  | op_shutdown => fst (fst (pgstrom_queue_shutdown queue))
  end.

Definition run_ops (queue : StromQueue) (ops : list queue_op) : StromQueue :=
  fold_left run_op ops queue.

End Queue.

(** ** Toast buffers of variable-length columns *)

Module Toast.

(** A variable-length value is its bytes, size word included;
    [VARSIZE] and [VARSIZE_ANY] give their number. *)
Definition varlena : Type := list Z.
Definition VARSIZE (v : varlena) : Z := Z.of_nat (length v).

(** [tbuf_data] holds the values by their byte offset from the start of
    the buffer; the offsets handed out lie in [[hdr, tbuf_usage)]. *)
Record tcache_toastbuf := mkToast {
  tbuf_length : Z;
  tbuf_usage : Z;
  tbuf_junk : Z;
  tbuf_data : gmap Z varlena
}.

(** A variable-length column: the offsets array and its toast buffer. *)
Record column := mkColumn {
  values : list Z;
  toast : tcache_toastbuf
}.

Section WithAllocator.

(** [hdr] is [offsetof(tcache_toastbuf, data[0])];
    [alap] is [pgstrom_shmem_alloc_alap]: the size of the block obtained
    for a request, or nothing when shared memory is exhausted. *)
Variable hdr : Z.
Variable TCACHE_TOASTBUF_INITSIZE : Z.
Variable alap : Z -> option Z.

Definition tcache_create_toast_buffer (required : Z)
  : outcome tcache_toastbuf :=
  let required := Max required TCACHE_TOASTBUF_INITSIZE in
  match alap required with
  | None => Fault
  | Some allocated =>
      Done {| tbuf_length := allocated; tbuf_usage := hdr;
              tbuf_junk := 0; tbuf_data := ∅ |}
  end.

Definition tcache_duplicate_toast_buffer (tbuf_old : tcache_toastbuf)
    (required : Z) : outcome tcache_toastbuf :=
  do tbuf_new <- tcache_create_toast_buffer required;
  Done {| tbuf_length := tbuf_length tbuf_new;
          tbuf_usage := tbuf_usage tbuf_old;
          tbuf_junk := tbuf_junk tbuf_old;
          tbuf_data := tbuf_data tbuf_old |}.

(** The [memcpy] of [vsize] bytes to the offset [tbuf_usage] of the
    buffer, followed by [tbuf->tbuf_usage += MAXALIGN(vsize)].
    The copy is a write outside the block when the value ends past
    [tbuf_length].  The result carries the offset of the value. *)
Definition toast_append (tbuf : tcache_toastbuf) (v : varlena)
  : outcome (tcache_toastbuf * Z) :=
  let vsize := VARSIZE v in
  if tbuf_usage tbuf + vsize >? tbuf_length tbuf then Fault
  else
    Done ({| tbuf_length := tbuf_length tbuf;
             tbuf_usage := tbuf_usage tbuf + MAXALIGN vsize;
             tbuf_junk := tbuf_junk tbuf;
             tbuf_data := <[tbuf_usage tbuf := v]> (tbuf_data tbuf) |},
          tbuf_usage tbuf).

(** The test both callers make before the copy. *)
Definition grow_test (tbuf : tcache_toastbuf) (vsize : Z) : bool :=
  tbuf_usage tbuf + MAXALIGN vsize <? tbuf_length tbuf.

(** The buffer a value is copied into, and whether it is a new one:
    the variable-length branch of [do_insert_tuple] up to its [Assert]. *)
Definition do_insert_tuple_grow (tbuf : tcache_toastbuf) (v : varlena)
  : outcome (tcache_toastbuf * bool) :=
  let vsize := VARSIZE v in
  if grow_test tbuf vsize then
    do tbuf_new <- tcache_create_toast_buffer (2 * tbuf_length tbuf);
    let tbuf_new :=
      {| tbuf_length := tbuf_length tbuf_new;
         tbuf_usage := tbuf_usage tbuf;
         tbuf_junk := tbuf_junk tbuf;
         tbuf_data := tbuf_data tbuf |} in
    Done (tbuf_new, true)
  else Done (tbuf, false).

(** The variable-length branch of [do_insert_tuple] for one column:
    the value [v] of the tuple goes to row [nrows]. *)
Definition do_insert_tuple_varlena (col : column) (nrows : Z) (v : varlena)
  : outcome column :=
  do r <- do_insert_tuple_grow (toast col) v;
  let '(tbuf, _) := r in
  do values' <- write (values col) nrows (tbuf_usage tbuf);
  do r <- toast_append tbuf v;
  Done {| values := values'; toast := fst r |}.

(** [tcache_copy_cs_varlena] for the column [attidx] of both chunks. *)
Definition copy_grow (tbuf_dst : tcache_toastbuf) (v : varlena)
  : outcome (tcache_toastbuf * bool) :=
  let vsize := VARSIZE v in
  if grow_test tbuf_dst vsize then
    do tbuf_new <- tcache_duplicate_toast_buffer tbuf_dst
                     (2 * tbuf_length tbuf_dst);
    Done (tbuf_new, true)
  else Done (tbuf_dst, false).

Definition copy_body (base_dst : Z) (col_src : column) (base_src : Z)
    (i : Z) (col_dst : column) : outcome column :=
  do ofs <- read (values col_src) (base_src + i);
  do r <-
    (if ofs =? 0 then Done (toast col_dst, 0)
     else
       match tbuf_data (toast col_src) !! ofs with
       | None => Fault
       | Some v =>
           do g <- copy_grow (toast col_dst) v;
           toast_append (fst g) v
       end);
  let '(tbuf_dst, vpos) := r in
  do values' <- write (values col_dst) (base_dst + i) vpos;
  Done {| values := values'; toast := tbuf_dst |}.

Definition tcache_copy_cs_varlena (col_dst : column) (base_dst : Z)
    (col_src : column) (base_src : Z) (nitems : Z) : outcome column :=
  for_loop (Z.to_nat nitems) 0 (copy_body base_dst col_src base_src) col_dst.

End WithAllocator.

(** The room left suffices for a value of [vsize] bytes, aligned: what
    the [Assert] of [do_insert_tuple] states at the copy. *)
Definition has_room (tbuf : tcache_toastbuf) (vsize : Z) : Prop :=
  tbuf_usage tbuf + MAXALIGN vsize < tbuf_length tbuf.

End Toast.

(** ** Further functions of the cache *)

Definition set_left (v : option tcache_node) (n : tcache_node) :=
  {| chain := chain n; tcs := tcs n; left := v; right := right n;
     l_depth := l_depth n; r_depth := r_depth n |}.
Definition set_l_depth (v : Z) (n : tcache_node) :=
  {| chain := chain n; tcs := tcs n; left := left n; right := right n;
     l_depth := v; r_depth := r_depth n |}.

(** *** tcache_find_next_node, tcache_find_next_column_store,
        tcache_find_prev_column_store

    The second and the third cast the result of the search to a chunk;
    the search does hand out a chunk when [column_store] is set. *)

Definition tcache_find_next_node (tc_head : tcache_head) (blkno : Z)
  : outcome (option found) :=
  match tcs_root tc_head with
  | None => Done None
  | Some root => tcache_find_next_internal root blkno false
  end.

Definition as_column_store (r : option found)
  : outcome (option tcache_column_store) :=
  match r with
  | None => Done None
  | Some (FoundTcs cs) => Done (Some cs)
  | Some (FoundNode _) => Fault
  end.

Definition tcache_find_next_column_store (tc_head : tcache_head) (blkno : Z)
  : outcome (option tcache_column_store) :=
  match tcs_root tc_head with
  | None => Done None
  | Some root =>
      do r <- tcache_find_next_internal root blkno true;
      as_column_store r
  end.

Definition tcache_find_prev_column_store (tc_head : tcache_head) (blkno : Z)
  : outcome (option tcache_column_store) :=
  match tcs_root tc_head with
  | None => Done None
  | Some root =>
      do r <- tcache_find_prev_internal root blkno true;
      as_column_store r
  end.

(** *** tcache_scan_next, tcache_scan_prev: the step over the chunks

    [tcache_scan_next] for a scan whose heap scan is closed and which
    holds no row store: the block under [if (!tc_scan->trs_curr)].  With
    a chunk found the function returns it; with none it goes on to the
    row stores, which are not modelled.  [BlockNumber] is 32 bits wide. *)

Definition tcache_scan_next_tcs (tc_head : tcache_head)
    (tc_scan : tcache_scandesc) : outcome tcache_scandesc :=
  let tcs_prev := tcs_curr tc_scan in
  let blkno := match tcs_prev with
               | Some p => (blkno_max p + 1) mod 2 ^ 32
               | None => 0
               end in
  do r <- tcache_find_next_column_store tc_head blkno;
  Done {| heapscan := heapscan tc_scan; tcs_curr := r |}.

(** [tcache_scan_prev] from [tcs_prev = tc_scan->tcs_curr] on: the
    function begins there for a scan that holds a chunk, and gets there
    without a chunk when it finds no row store.  [tcs_prev->blkno_min]
    is read before the test of [tcs_prev]. *)
Definition tcache_scan_prev_tcs (tc_head : tcache_head)
    (tc_scan : tcache_scandesc) : outcome tcache_scandesc :=
  match tcs_curr tc_scan with
  | None => Fault
  | Some tcs_prev =>
      if blkno_min tcs_prev =? 0
      then Done {| heapscan := heapscan tc_scan; tcs_curr := None |}
      else
        let blkno := (blkno_min tcs_prev - 1) mod 2 ^ 32 in
        do r <- tcache_find_prev_column_store tc_head blkno;
        Done {| heapscan := heapscan tc_scan; tcs_curr := r |}
  end.

(** *** tcache_rebalance_tree

    The result is the node that [*p_upper] holds after the call; every
    caller passes the address of the pointer to [tc_node].  The nodes
    are linked by pointers, so the rotated node is seen with its new
    depth through the link from the node that went up. *)

Definition TCACHE_NODE_DEPTH (tc_node : option tcache_node) : Z :=
  match tc_node with
  | None => 0
  | Some n => Max (l_depth n) (r_depth n)
  end.

Definition tcache_rebalance_tree (tc_node : tcache_node)
  : outcome tcache_node :=
  if l_depth tc_node + 1 <? r_depth tc_node then
    (* anticlockwise rotation *)
    match right tc_node with
    | None => Fault
    | Some r_node =>
        let tc_node := set_right (left r_node) tc_node in
        let tc_node := set_r_depth (TCACHE_NODE_DEPTH (right tc_node)) tc_node in
        let r_node := set_left (Some tc_node) r_node in
        let r_node := set_l_depth (TCACHE_NODE_DEPTH (Some r_node)) r_node in
        Done r_node
    end
  else if l_depth tc_node >? r_depth tc_node + 1 then
    (* clockwise rotation *)
    match left tc_node with
    | None => Fault
    | Some l_node =>
        let tc_node := set_left (right l_node) tc_node in
        let tc_node := set_l_depth (TCACHE_NODE_DEPTH (left tc_node)) tc_node in
        let l_node := set_right (Some tc_node) l_node in
        let l_node := set_r_depth (TCACHE_NODE_DEPTH (Some l_node)) l_node in
        Done l_node
    end
  else Done tc_node.

(** *** do_insert_tuple

    [t_self] and [t_data] are the item pointer and the header of the
    tuple, [N] is [NUM_ROWS_PER_COLSTORE], the number of entries of the
    arrays of a chunk.  The function does not test for room (its
    [Assert] is compiled out): on a full chunk [ctids[nrows]] lies
    behind the array.  The loop over the user columns stores the
    values of the tuple in row [nrows]; for a variable-length column
    the step is [Toast.do_insert_tuple_varlena]. *)

(** [a[i] = x] for an array of [N] entries. *)
Definition write_within {A} (N : Z) (l : list A) (i : Z) (x : A)
  : outcome (list A) :=
  if i >=? N then Fault else write l i x.

Definition do_insert_tuple (E : tcache_env) (N : Z) (tcs : tcache_column_store)
    (t_self : ItemPointerData) (t_data : HeapTupleHeaderData)
  : outcome tcache_column_store :=
  do ctids' <- write_within N (ctids tcs) (nrows tcs) t_self;
  do theads' <- write_within N (theads tcs) (nrows tcs) t_data;
  do _ <- for_columns E (fun i => put_column E i (nrows tcs));
  let tcs := set_theads theads' (set_ctids ctids' tcs) in
  let blk := ItemPointerGetBlockNumber t_self in
  do tcs <-
    (if nrows tcs =? 0 then
       let tcs := set_blkno_min blk tcs in
       let tcs := set_blkno_max blk tcs in
       Done (set_is_sorted true tcs)
     else if is_sorted tcs then
       do last <- read (ctids tcs) (nrows tcs - 1);
       if ItemPointerCompare t_self last >? 0 then Done (set_blkno_max blk tcs)
       else
         let tcs := set_is_sorted false tcs in
         Done (if blk <? blkno_min tcs then set_blkno_min blk tcs else tcs)
     else
       let tcs := if blk >? blkno_max tcs then set_blkno_max blk tcs else tcs in
       let tcs := if blk <? blkno_min tcs then set_blkno_min blk tcs else tcs in
       Done tcs);
  Done (set_nrows (nrows tcs + 1) tcs).

(** *** bitswap

    A null bitmap is an array of [uint8].  The bit [x] is the bit
    [x % BITS_PER_BYTE] of the byte [x / BITS_PER_BYTE]; for a negative
    [x] the shift of the C code is undefined.  [set_or_clear] is the
    statement the function makes twice:
    [if (v) bitmap[..] |= (1 << ..); else bitmap[..] &= ~(1 << ..);]. *)

Definition BITS_PER_BYTE : Z := 8.

Definition bit_mask (x : Z) : Z := Z.shiftl 1 (Z.rem x BITS_PER_BYTE).

Definition bit_is_set (byte : Z) (x : Z) : bool :=
  negb (Z.land byte (bit_mask x) =? 0).

Definition set_or_clear (bitmap : list Z) (x : Z) (v : bool)
  : outcome (list Z) :=
  do b <- read bitmap (Z.quot x BITS_PER_BYTE);
  if v
  then write bitmap (Z.quot x BITS_PER_BYTE) (Z.lor b (bit_mask x) mod 256)
  else write bitmap (Z.quot x BITS_PER_BYTE)
         (Z.land b (Z.lnot (bit_mask x)) mod 256).

Definition bitswap (bitmap : list Z) (x y : Z) : outcome (list Z) :=
  do bx <- read bitmap (Z.quot x BITS_PER_BYTE);
  let temp := bit_is_set bx x in
  do by_ <- read bitmap (Z.quot y BITS_PER_BYTE);
  do bitmap <- set_or_clear bitmap x (bit_is_set by_ y);
  set_or_clear bitmap y temp.

(** *** tcache_create_column_store: the layout of the block

    The function first sums up the length of the block to allocate and
    then hands out the arrays at ascending offsets.  [attrs] are the
    attributes of the cached columns, in the order of [i_cached].
    The capacity of a chunk, the offset of the [cdata] array and the
    sizes of the two system structures come from headers. *)

Record Form_pg_attribute := mkAttr {
  attnotnull : bool;
  attlen : Z
}.

(** Where the arrays of one user column start; a column that is
    declared not null has no null bitmap. *)
Record cdata_offsets := mkCdata {
  isnull_ofs : option Z;
  values_ofs : Z
}.

Record column_store_offsets := mkOffsets {
  ctids_ofs : Z;
  theads_ofs : Z;
  cdata_ofs : list cdata_offsets;
  end_ofs : Z
}.

Section ColumnStoreLayout.

Variable NUM_ROWS_PER_COLSTORE : Z.
Variable offsetof_cdata : Z -> Z.
Variable sizeof_ItemPointerData : Z.
Variable sizeof_HeapTupleHeaderData : Z.

Definition sizeof_cl_uint : Z := 4.

Definition values_size (attr : Form_pg_attribute) : Z :=
  (if attlen attr >? 0 then attlen attr else sizeof_cl_uint)
  * NUM_ROWS_PER_COLSTORE.

Definition isnull_size : Z := Z.quot NUM_ROWS_PER_COLSTORE BITS_PER_BYTE.

(** The first loop over the columns: [length += ...]. *)
Fixpoint length_columns (attrs : list Form_pg_attribute) (length : Z) : Z :=
  match attrs with
  | [] => length
  | attr :: rest =>
      let length := if negb (attnotnull attr)
                    then length + MAXALIGN isnull_size else length in
      let length := length + MAXALIGN (values_size attr) in
      length_columns rest length
  end.

Definition column_store_length (attrs : list Form_pg_attribute) : Z :=
  let length := MAXALIGN (offsetof_cdata (Z.of_nat (List.length attrs))) in
  let length :=
    length + MAXALIGN (sizeof_ItemPointerData * NUM_ROWS_PER_COLSTORE) in
  let length :=
    length + MAXALIGN (sizeof_HeapTupleHeaderData * NUM_ROWS_PER_COLSTORE) in
  length_columns attrs length.

(** The second loop: the arrays of each column and [offset += ...]. *)
Fixpoint layout_columns (attrs : list Form_pg_attribute) (offset : Z)
  : list cdata_offsets * Z :=
  match attrs with
  | [] => ([], offset)
  | attr :: rest =>
      let '(isnull, offset) :=
        if attnotnull attr then (None, offset)
        else (Some offset, offset + MAXALIGN isnull_size) in
      let values := offset in
      let offset := offset + MAXALIGN (values_size attr) in
      let '(cols, offset) := layout_columns rest offset in
      ({| isnull_ofs := isnull; values_ofs := values |} :: cols, offset)
  end.

Definition column_store_layout (attrs : list Form_pg_attribute)
  : column_store_offsets :=
  let offset := MAXALIGN (offsetof_cdata (Z.of_nat (List.length attrs))) in
  let ctids := offset in
  let offset :=
    offset + MAXALIGN (sizeof_ItemPointerData * NUM_ROWS_PER_COLSTORE) in
  let theads := offset in
  let offset :=
    offset + MAXALIGN (sizeof_HeapTupleHeaderData * NUM_ROWS_PER_COLSTORE) in
  let '(cols, offset) := layout_columns attrs offset in
  {| ctids_ofs := ctids; theads_ofs := theads; cdata_ofs := cols;
     end_ofs := offset |}.

End ColumnStoreLayout.

(** ** Notions used to state the properties *)

Definition sentinel : ItemPointerData :=
  ItemPointerSet MaxBlockNumber MaxOffsetNumber.

(** [r] is the index of the first occurrence of the least item pointer
    not below [ctid] among the first [n] entries of [a], or -1 when
    there is none. *)
Definition is_successor (a : list ItemPointerData) (n : Z)
    (ctid : ItemPointerData) (r : Z) : Prop :=
  (r = -1 /\
   forall j x, 0 <= j < n -> zth a j = Some x -> ItemPointerCompare x ctid < 0)
  \/
  (0 <= r < n /\ exists c, zth a r = Some c /\ ItemPointerCompare c ctid >= 0 /\
   forall j x, 0 <= j < n -> zth a j = Some x -> ItemPointerCompare x ctid >= 0 ->
     ItemPointerCompare c x <= 0 /\ (j < r -> ItemPointerCompare c x < 0)).

Definition sentinel_chunk : tcache_column_store :=
  {| nrows := 1; njunks := 0; is_sorted := true;
     blkno_max := MaxBlockNumber; blkno_min := MaxBlockNumber;
     ctids := [ItemPointerSet MaxBlockNumber MaxOffsetNumber];
     theads := [mkHeapTupleHeader 100 0 0] |}.

Definition two_row_chunk : tcache_column_store :=
  {| nrows := 2; njunks := 0; is_sorted := true;
     blkno_max := 7; blkno_min := 3;
     ctids := [ItemPointerSet 3 1; ItemPointerSet 7 2];
     theads := [mkHeapTupleHeader 100 0 0; mkHeapTupleHeader 101 0 0] |}.

(** The lexicographic order on (block, offset). *)
Definition ip_lt (a b : ItemPointerData) : Prop :=
  ip_blkid a < ip_blkid b \/ (ip_blkid a = ip_blkid b /\ ip_posid a < ip_posid b).

(** Invariant of the linear scan of [tcache_find_next_record] before
    iteration [i]: the state is the least qualifying item pointer seen
    so far and its first index. *)
Definition scan_inv (a : list ItemPointerData) (ctid : ItemPointerData)
    (i : Z) (st : ItemPointerData * Z) : Prop :=
  (snd st = -1 /\ fst st = sentinel /\
   forall j x, 0 <= j < i -> zth a j = Some x -> ItemPointerCompare x ctid < 0)
  \/
  (0 <= snd st < i /\ zth a (snd st) = Some (fst st) /\
   ItemPointerCompare (fst st) ctid >= 0 /\
   forall j x, 0 <= j < i -> zth a j = Some x -> ItemPointerCompare x ctid >= 0 ->
     ItemPointerCompare (fst st) x <= 0 /\
     (j < snd st -> ItemPointerCompare (fst st) x < 0)).

(** A row outlives compaction unless its xmax is below
    [FirstNormalTransactionId]. *)
Definition survives (r : ItemPointerData * HeapTupleHeaderData) : bool :=
  negb (HeapTupleHeaderGetRawXmax (snd r) <? FirstNormalTransactionId).

Definition surviving (tcs : tcache_column_store)
  : list (ItemPointerData * HeapTupleHeaderData) :=
  List.filter survives (rows tcs).

(** The number of rows before row [i] that outlive compaction: the row
    of the new chunk that row [i] is copied to. *)
Definition survivors_before (tcs : tcache_column_store) (i : nat) : nat :=
  length (List.filter survives (take i (rows tcs))).

(** Nothing stops the compaction of the chunk: the new chunk is
    allocated, every user column gets its toast buffer, and the copy
    of every surviving row completes in every user column. *)
Definition compaction_completes (E : tcache_env) (tcs_old : tcache_column_store)
  : Prop :=
  have_shmem E = true /\
  (forall k, 0 <= k < ncols E -> assign_toast E k = Done tt) /\
  (forall i r k, rows tcs_old !! i = Some r -> survives r = true ->
     0 <= k < ncols E ->
     copy_column E k (Z.of_nat (survivors_before tcs_old i)) (Z.of_nat i) 1
     = Done tt).

(** A cache of the system columns only: no user column is cached, so
    no step for a column is ever run, and shared memory is at hand. *)
Definition no_user_columns : tcache_env :=
  {| ncols := 0; have_shmem := true; node_block := Some [7%nat; 8%nat];
     assign_toast := fun _ => Fault;
     copy_column := fun _ _ _ _ => Fault;
     swap_column := fun _ _ _ => Fault;
     put_column := fun _ _ => Fault |}.

(** Two cached user columns whose steps all complete. *)
Definition two_user_columns : tcache_env :=
  {| ncols := 2; have_shmem := true; node_block := Some [7%nat; 8%nat];
     assign_toast := fun _ => Done tt;
     copy_column := fun _ _ _ _ => Done tt;
     swap_column := fun _ _ _ => Done tt;
     put_column := fun _ _ => Done tt |}.

Definition row_block (r : ItemPointerData * HeapTupleHeaderData) : Z :=
  ItemPointerGetBlockNumber (fst r).

(** [lo] and [hi] are the least and the greatest block of the rows [l]. *)
Definition block_bounds (l : list (ItemPointerData * HeapTupleHeaderData))
    (lo hi : Z) : Prop :=
  (forall r, r ∈ l -> lo <= row_block r <= hi) /\
  (exists r, r ∈ l /\ row_block r = lo) /\
  (exists r, r ∈ l /\ row_block r = hi).

(** The range fields of the compaction loop after the rows [l] were
    copied: the running maximum starts from the old [blkno_min], the
    running minimum from the old [blkno_max]. *)
Definition running_max (l : list (ItemPointerData * HeapTupleHeaderData))
    (start : Z) : Z :=
  fold_left (fun m r => if row_block r >? m then row_block r else m) l start.
Definition running_min (l : list (ItemPointerData * HeapTupleHeaderData))
    (start : Z) : Z :=
  fold_left (fun m r => if row_block r <? m then row_block r else m) l start.

(** Invariant of the compaction loop before iteration [m]. *)
Definition compaction_inv (tcs_old : tcache_column_store) (m : nat)
    (st : tcache_column_store * Z) : Prop :=
  let done := List.filter survives
                (zip (take m (ctids tcs_old)) (take m (theads tcs_old))) in
  ctids (fst st) = done.*1 /\
  theads (fst st) = done.*2 /\
  snd st = Z.of_nat (length done) /\
  blkno_max (fst st) = running_max done (blkno_min tcs_old) /\
  blkno_min (fst st) = running_min done (blkno_max tcs_old).

(** The user columns of those of the rows [m] to [m + k - 1] that
    outlive compaction can be copied. *)
Definition rows_copied (E : tcache_env) (tcs_old : tcache_column_store)
    (m k : nat) : Prop :=
  forall i c h, (m <= i < m + k)%nat ->
    ctids tcs_old !! i = Some c -> theads tcs_old !! i = Some h ->
    survives (c, h) = true ->
    for_columns E (fun col =>
      copy_column E col
        (Z.of_nat (length (List.filter survives
           (zip (take i (ctids tcs_old)) (take i (theads tcs_old))))))
        (Z.of_nat i) 1) = Done tt.

Definition all_dead_chunk : tcache_column_store :=
  {| nrows := 2; njunks := 0; is_sorted := true;
     blkno_max := 7; blkno_min := 3;
     ctids := [ItemPointerSet 3 1; ItemPointerSet 7 2];
     theads := [mkHeapTupleHeader 100 FrozenTransactionId 0;
                mkHeapTupleHeader 101 FrozenTransactionId 0] |}.

Definition node_of (addr : nat) (cs : tcache_column_store) : tcache_node :=
  {| chain := addr; tcs := Some cs; left := None; right := None;
     l_depth := 0; r_depth := 0 |}.

(** A sorted chunk of three rows in three blocks; the row of block 3
    was vacuumed ([FrozenTransactionId] as its xmax). *)
Definition vacuumed_row_chunk : tcache_column_store :=
  {| nrows := 3; njunks := 0; is_sorted := true;
     blkno_max := 7; blkno_min := 3;
     ctids := [ItemPointerSet 3 1; ItemPointerSet 5 1; ItemPointerSet 7 1];
     theads := [mkHeapTupleHeader 100 FrozenTransactionId 0;
                mkHeapTupleHeader 101 1000 0;
                mkHeapTupleHeader 102 1000 0] |}.

(** The merge destination holds two rows, of the blocks 10 and 20; the
    donor holds one row of block 1. *)
Definition merge_dst_chunk : tcache_column_store :=
  {| nrows := 2; njunks := 0; is_sorted := true;
     blkno_max := 20; blkno_min := 10;
     ctids := [ItemPointerSet 10 1; ItemPointerSet 20 1];
     theads := [mkHeapTupleHeader 100 1000 0; mkHeapTupleHeader 102 1000 0] |}.

Definition merge_src_chunk : tcache_column_store :=
  {| nrows := 1; njunks := 0; is_sorted := true;
     blkno_max := 1; blkno_min := 1;
     ctids := [ItemPointerSet 1 1];
     theads := [mkHeapTupleHeader 101 1000 0] |}.

(** *** Ordered trees

    The nodes of a tree from the lowest to the highest block range. *)
Fixpoint inorder (t : tcache_node) : list tcache_node :=
  match left t with Some l => inorder l | None => [] end
  ++ t :: match right t with Some r => inorder r | None => [] end.

Definition node_max (t : tcache_node) : Z :=
  match tcs t with Some cs => blkno_max cs | None => 0 end.
Definition node_min (t : tcache_node) : Z :=
  match tcs t with Some cs => blkno_min cs | None => 0 end.

(** The node holds a chunk with rows and a proper range. *)
Definition chunk_ok (t : tcache_node) : Prop :=
  exists cs, tcs t = Some cs /\ nrows cs <> 0 /\ blkno_min cs <= blkno_max cs.

(** The invariant of the T-tree: every chunk is non-empty, the ranges of
    the left subtree lie below the node's range, those of the right
    subtree above it. *)
Fixpoint tree_ok (t : tcache_node) : Prop :=
  chunk_ok t /\
  match left t with
  | Some l => tree_ok l /\ Forall (fun n => node_max n < node_min t) (inorder l)
  | None => True
  end /\
  match right t with
  | Some r => tree_ok r /\ Forall (fun n => node_max t < node_min n) (inorder r)
  | None => True
  end.

(** The first chunk, in block order, that ends at or after [blkno]; the
    last chunk that starts at or before [blkno]. *)
Definition first_next (l : list tcache_node) (blkno : Z) : option tcache_node :=
  List.find (fun n => blkno <=? node_max n) l.
Definition last_prev (l : list tcache_node) (blkno : Z) : option tcache_node :=
  List.find (fun n => node_min n <=? blkno) (rev l).

(** A node whose chunk ends at block 5, without children, and the same
    node with an empty right child. *)
Definition low_chunk : tcache_column_store :=
  {| nrows := 2; njunks := 0; is_sorted := true;
     blkno_max := 5; blkno_min := 3;
     ctids := [ItemPointerSet 3 1; ItemPointerSet 5 1];
     theads := [mkHeapTupleHeader 100 1000 0; mkHeapTupleHeader 101 1000 0] |}.

Definition low_node_with_empty_right : tcache_node :=
  {| chain := 1; tcs := Some low_chunk; left := None;
     right := Some (node_of 2 tcache_create_column_store);
     l_depth := 0; r_depth := 1 |}.

(** The chunk of blocks 10 to 20 with the chunk of blocks 3 to 5 as its
    left child: the blocks 6 to 9 are a gap between the two ranges. *)
Definition gap_tree : tcache_node :=
  {| chain := 3; tcs := Some merge_dst_chunk;
     left := Some (node_of 1 low_chunk); right := None;
     l_depth := 1; r_depth := 0 |}.

(** What the search hands out for a node: the node, or its chunk. *)
Definition found_of (column_store : bool) (n : tcache_node) : found :=
  match tcs n with
  | Some cs => answer column_store n cs
  | None => FoundNode n
  end.

(** *** Released trees *)

Definition chains (t : tcache_node) : list nat := map chain (inorder t).

(** Every node of the tree has dropped its chunk. *)
Definition all_released (t : tcache_node) : Prop :=
  Forall (fun n => tcs n = None) (inorder t).

(** A cache head under construction: three nodes were inserted so far,
    the hash table and the building scan hold a reference each. *)
Definition high_chunk : tcache_column_store :=
  {| nrows := 2; njunks := 0; is_sorted := true;
     blkno_max := 40; blkno_min := 30;
     ctids := [ItemPointerSet 30 1; ItemPointerSet 40 1];
     theads := [mkHeapTupleHeader 103 0 0; mkHeapTupleHeader 104 0 0] |}.

Definition building_root : tcache_node :=
  {| chain := 1; tcs := Some merge_dst_chunk;
     left := Some (node_of 2 low_chunk);
     right := Some (node_of 3 high_chunk);
     l_depth := 1; r_depth := 1 |}.

Definition building_head : tcache_head :=
  {| refcnt := 2; state := TCACHE_STATE_NOW_BUILD;
     tcs_root := Some building_root; free_list := [4; 5]%nat |}.

Definition building_scan : tcache_scandesc :=
  {| heapscan := Some tt; tcs_curr := None |}.

(** *** Toast buffers used as inputs

    A buffer of 1024 bytes with 8 bytes left, one with 1008 bytes left,
    and a value of 16 bytes.  The header takes 16 bytes. *)
Definition value16 : Toast.varlena := repeat 0 16.

Definition full_tbuf : Toast.tcache_toastbuf :=
  {| Toast.tbuf_length := 1024; Toast.tbuf_usage := 1016;
     Toast.tbuf_junk := 0; Toast.tbuf_data := ∅ |}.

Definition roomy_tbuf : Toast.tcache_toastbuf :=
  {| Toast.tbuf_length := 1024; Toast.tbuf_usage := 16;
     Toast.tbuf_junk := 0; Toast.tbuf_data := ∅ |}.

(** A source column whose only row holds [value16] at offset 16. *)
Definition src_column : Toast.column :=
  {| Toast.values := [16];
     Toast.toast := {| Toast.tbuf_length := 1024; Toast.tbuf_usage := 32;
                       Toast.tbuf_junk := 0;
                       Toast.tbuf_data := {[ 16 := value16 ]} |} |}.

(** An allocator that grants exactly what is asked for. *)
Definition exact_alap (required : Z) : option Z := Some required.

(** *** An arena used as input

    Two free blocks of 128 and 256 bytes after a used block. *)
Definition small_arena : Shmem.ShmemHead :=
  {| Shmem.total_size := 1408; Shmem.free_size := 384;
     Shmem.addr_head := [0; 1024; 1152];
     Shmem.free_head := [1152; 1024];
     Shmem.blocks :=
       {[ 0 := {| Shmem.magic := Shmem.SHMEM_BLOCK_STROM_QUEUE;
                  Shmem.size := 1024; Shmem.pid := 7; Shmem.owner := 1;
                  Shmem.overrun_marker := Shmem.SHMEM_BLOCK_OVERRUN_MARK |};
          1024 := {| Shmem.magic := Shmem.SHMEM_BLOCK_FREE; Shmem.size := 128;
                     Shmem.pid := 0; Shmem.owner := 0;
                     Shmem.overrun_marker := 0 |};
          1152 := {| Shmem.magic := Shmem.SHMEM_BLOCK_FREE; Shmem.size := 256;
                     Shmem.pid := 0; Shmem.owner := 0;
                     Shmem.overrun_marker := 0 |} ]} |}.

(** Every block of the free list is smaller than [required]. *)
Definition none_fits (h : Shmem.ShmemHead) (required : Z) : Prop :=
  forall x, x ∈ Shmem.free_head h ->
    exists b, Shmem.blocks h !! x = Some b /\ Shmem.size b < required.

(** *** A row store and heap pages used as inputs

    Three tuples of 40 bytes, of the blocks 1, 2 and 3, line pointer 1
    each, appended to a fresh row store with 4096 bytes of room whose
    offset array starts at byte 64. *)
Definition rs_tuple_of (blk : Z) : RowStore.rs_tuple :=
  {| RowStore.t_len := 40; RowStore.t_self := ItemPointerSet blk 1;
     RowStore.data := mkHeapTupleHeader 100 0 0 |}.

Definition three_block_trs : RowStore.tcache_row_store :=
  {| RowStore.usage := 3904; RowStore.blkno_max := 3; RowStore.blkno_min := 1;
     RowStore.kern := {| RowStore.nrows := 3;
                         RowStore.tupoffset := [4032; 3968; 3904] |};
     RowStore.tuples := {[ 4032 := rs_tuple_of 1; 3968 := rs_tuple_of 2;
                           3904 := rs_tuple_of 3 ]} |}.

(** A heap page whose first line pointer is dead, as block 2 and as
    block 3 of the relation. *)
Definition dead_page : RowStore.Page :=
  [ {| RowStore.lp_off := 0; RowStore.lp_flags := RowStore.LP_DEAD;
       RowStore.lp_len := 0 |} ].

Definition buffer_of (blk : Z) : RowStore.Buffer :=
  {| RowStore.BufferGetBlockNumber := blk; RowStore.BufferGetPage := dead_page |}.

(** The queue nobody has put anything into. *)
Definition empty_queue : Queue.StromQueue :=
  {| Queue.head := []; Queue.is_shutdown := false |}.


(** *** Scans over the chunks of a tree *)

(** The chunks of a tree, from the lowest to the highest block range. *)
Definition chunks_of (t : tcache_node) : list tcache_column_store :=
  omap tcs (inorder t).

(** The ranges of a list of nodes ascend without overlap. *)
Fixpoint ranges_ascend (l : list tcache_node) : Prop :=
  match l with
  | [] => True
  | n :: l' => Forall (fun m => node_max n < node_min m) l' /\ ranges_ascend l'
  end.

(** All block numbers of the tree are block numbers of a relation. *)
Definition blocks_valid (t : tcache_node) : Prop :=
  Forall (fun n => 0 <= node_min n /\ node_max n <= MaxBlockNumber) (inorder t).

(** The chunks handed out by repeated calls of [tcache_scan_next], up to
    the call that finds no further chunk. *)
Fixpoint scan_forward (fuel : nat) (tc_head : tcache_head)
    (tc_scan : tcache_scandesc) : outcome (list tcache_column_store) :=
  match fuel with
  | O => Fault
  | S fuel' =>
      do tc_scan <- tcache_scan_next_tcs tc_head tc_scan;
      match tcs_curr tc_scan with
      | None => Done []
      | Some cs =>
          do rest <- scan_forward fuel' tc_head tc_scan;
          Done (cs :: rest)
      end
  end.

(** ... and by repeated calls of [tcache_scan_prev]. *)
Fixpoint scan_backward (fuel : nat) (tc_head : tcache_head)
    (tc_scan : tcache_scandesc) : outcome (list tcache_column_store) :=
  match fuel with
  | O => Fault
  | S fuel' =>
      do tc_scan <- tcache_scan_prev_tcs tc_head tc_scan;
      match tcs_curr tc_scan with
      | None => Done []
      | Some cs =>
          do rest <- scan_backward fuel' tc_head tc_scan;
          Done (cs :: rest)
      end
  end.

(** A cache head that is ready, with the given tree. *)
Definition ready_head (root : tcache_node) : tcache_head :=
  {| refcnt := 1; state := TCACHE_STATE_READY; tcs_root := Some root;
     free_list := [] |}.

(** A tree of three chunks (blocks 3 to 5, 10 to 20, 30 to 40) whose
    root leans to the right by two levels. *)
Definition right_heavy_tree : tcache_node :=
  {| chain := 1; tcs := Some low_chunk; left := None;
     right := Some {| chain := 2; tcs := Some merge_dst_chunk; left := None;
                      right := Some (node_of 3 high_chunk);
                      l_depth := 0; r_depth := 1 |};
     l_depth := 0; r_depth := 2 |}.

(** *** The invariant of a chunk

    The arrays hold the rows; a chunk marked sorted is sorted; the range
    of a chunk with rows is the least and the greatest block of its
    rows. *)
Definition chunk_inv (tcs : tcache_column_store) : Prop :=
  tcs_wf tcs /\
  (is_sorted tcs = true -> ctids_sorted tcs) /\
  (nrows tcs <> 0 -> block_bounds (rows tcs) (blkno_min tcs) (blkno_max tcs)).

(** Nothing stops the insertion into the chunk: the chunk has room
    for a row, and the value of every user column can be stored. *)
Definition insert_completes (E : tcache_env) (N : Z) (tcs : tcache_column_store)
  : Prop :=
  nrows tcs < N /\
  forall i, 0 <= i < ncols E -> put_column E i (nrows tcs) = Done tt.

(** The chunk that results from inserting the tuples [l], in this
    order, into the chunk [tcs]. *)
Fixpoint insert_all (E : tcache_env) (N : Z) (tcs : tcache_column_store)
    (l : list (ItemPointerData * HeapTupleHeaderData))
  : outcome tcache_column_store :=
  match l with
  | [] => Done tcs
  | (c, h) :: l' => do tcs <- do_insert_tuple E N tcs c h; insert_all E N tcs l'
  end.

(** Three tuples, in the blocks 9, 3 and 5. *)
Definition three_tuples : list (ItemPointerData * HeapTupleHeaderData) :=
  [(ItemPointerSet 9 1, mkHeapTupleHeader 100 0 0);
   (ItemPointerSet 3 2, mkHeapTupleHeader 101 0 0);
   (ItemPointerSet 5 1, mkHeapTupleHeader 102 0 0)].

(** The user columns of the rows [first] to [first + n - 1] can be
    stored. *)
Definition rows_storable (E : tcache_env) (first n : Z) : Prop :=
  forall r i, first <= r < first + n -> 0 <= i < ncols E ->
    put_column E i r = Done tt.

(** The user columns of the donor's rows can be copied behind the rows
    of the destination. *)
Definition merge_completes (E : tcache_env) (tcs_dst tcs_src : tcache_column_store)
  : Prop :=
  forall i, 0 <= i < ncols E ->
    copy_column E i (nrows tcs_dst) 0 (nrows tcs_src) = Done tt.

(** The test [do_try_merge_tcnode] makes on the two row counts. *)
Definition mergeable (cap : Z) (tcs_dst tcs_src : tcache_column_store) : bool :=
  (nrows tcs_dst <? Z.quot cap 2) && (nrows tcs_src <? Z.quot cap 2) &&
  (nrows tcs_dst + nrows tcs_src <? Z.quot (2 * cap) 3).

(** *** Bitmaps *)

(** The bit [i] of a bitmap. *)
Definition bitmap_bit (bitmap : list Z) (i : Z) : bool :=
  match bitmap !! Z.to_nat (i / 8) with
  | Some b => Z.testbit b (i mod 8)
  | None => false
  end.

Definition bytes (bitmap : list Z) : Prop :=
  Forall (fun b => 0 <= b < 256) bitmap.

(** *** Layout of the block of a chunk *)

(** The byte ranges (start, size) of the arrays of a chunk, in the
    order of their offsets, with the sizes the function gives them
    before alignment: [N / 8] bytes for a null bitmap, [N] values of
    [attlen] or of four bytes for the values. *)
Definition column_regions (N : Z) (attr : Form_pg_attribute)
    (c : cdata_offsets) : list (Z * Z) :=
  match isnull_ofs c with
  | Some o => [(o, isnull_size N)]
  | None => []
  end ++ [(values_ofs c, values_size N attr)].

Definition chunk_regions (N sizeof_ip sizeof_hth : Z)
    (attrs : list Form_pg_attribute) (lay : column_store_offsets)
  : list (Z * Z) :=
  (ctids_ofs lay, sizeof_ip * N) :: (theads_ofs lay, sizeof_hth * N)
  :: concat (zip_with (column_regions N) attrs (cdata_ofs lay)).

(** The ranges follow one another without overlap between [start] and
    [stop]. *)
Fixpoint regions_fit (start : Z) (l : list (Z * Z)) (stop : Z) : Prop :=
  match l with
  | [] => start <= stop
  | (s, z) :: l' => start <= s /\ 0 <= z /\ regions_fit (s + z) l' stop
  end.

(** *** Row stores *)

(** The tuple of the row [i] of a row store, if the row holds one. *)
Definition row_tuple (trs : RowStore.tcache_row_store) (i : nat)
  : option RowStore.rs_tuple :=
  match RowStore.tupoffset (RowStore.kern trs) !! i with
  | Some off => if off =? 0 then None else RowStore.tuples trs !! off
  | None => None
  end.

(** The invariant of a row store whose offset array starts [base]
    bytes into the block: the offset array has one entry per row and
    ends before the tuples begin ([usage] is a [Size]); the rows that
    hold a tuple have
    distinct offsets in the tuple area; every tuple lies in a block of
    the range of the store. *)
Definition trs_inv (base : Z) (trs : RowStore.tcache_row_store) : Prop :=
  0 <= base /\
  RowStore.nrows (RowStore.kern trs)
  = Z.of_nat (length (RowStore.tupoffset (RowStore.kern trs))) /\
  base + 4 * RowStore.nrows (RowStore.kern trs) <= RowStore.usage trs
  < 2 ^ 64 /\
  (forall i j off,
     RowStore.tupoffset (RowStore.kern trs) !! i = Some off ->
     RowStore.tupoffset (RowStore.kern trs) !! j = Some off ->
     off <> 0 -> i = j) /\
  (forall i off,
     RowStore.tupoffset (RowStore.kern trs) !! i = Some off -> off <> 0 ->
     RowStore.usage trs <= off /\
     exists t, RowStore.tuples trs !! off = Some t /\
       RowStore.blkno_min trs <= ItemPointerGetBlockNumber (RowStore.t_self t)
       <= RowStore.blkno_max trs).

(** The bytes a tuple takes in the tuple area. *)
Definition tuple_room (tuple : RowStore.rs_tuple) : Z :=
  MAXALIGN RowStore.sizeof_HeapTupleData + MAXALIGN (RowStore.t_len tuple).

(** *** Sequences of queue operations *)

(** [pgstrom_queue_enqueue] for each item of [xs] in turn: the queue and
    the results of the calls. *)
Fixpoint enqueue_all (queue : Queue.StromQueue) (xs : list nat)
  : Queue.StromQueue * list bool :=
  match xs with
  | [] => (queue, [])
  | x :: xs' =>
      let '(q, r, _) := Queue.pgstrom_queue_enqueue queue x in
      let '(q', rs) := enqueue_all q xs' in
      (q', r :: rs)
  end.

(** [n] calls of [pgstrom_queue_try_dequeue]. *)
Fixpoint dequeue_n (queue : Queue.StromQueue) (n : nat)
  : Queue.StromQueue * list (option nat) :=
  match n with
  | O => (queue, [])
  | S n' =>
      let '(q, r, _) := Queue.pgstrom_queue_try_dequeue queue in
      let '(q', rs) := dequeue_n q n' in
      (q', r :: rs)
  end.

(** *** The shared-memory segment *)

(** The blocks [l] lie one behind the other from [start] to [stop];
    each has a header in memory and a positive size. *)
Fixpoint tiles (bl : gmap Z Shmem.ShmemBlock) (start : Z) (l : list Z)
    (stop : Z) : Prop :=
  match l with
  | [] => start = stop
  | a :: l' =>
      a = start /\
      exists b, bl !! a = Some b /\ 0 < Shmem.size b /\
        tiles bl (a + Shmem.size b) l' stop
  end.

Definition is_free (bl : gmap Z Shmem.ShmemBlock) (a : Z) : Prop :=
  exists b, bl !! a = Some b /\ Shmem.magic b = Shmem.SHMEM_BLOCK_FREE.

(** No two neighbours are both free. *)
Fixpoint coalesced (bl : gmap Z Shmem.ShmemBlock) (l : list Z) : Prop :=
  match l with
  | a :: l' =>
      match l' with
      | b :: _ => ~ (is_free bl a /\ is_free bl b)
      | [] => True
      end /\ coalesced bl l'
  | [] => True
  end.

(** The invariant of the segment whose first block is at [first]:
    the blocks in address order tile the segment, free neighbours are
    merged, and the free list holds exactly the free blocks, once
    each. *)
Definition arena_ok (first : Z) (h : Shmem.ShmemHead) : Prop :=
  tiles (Shmem.blocks h) first (Shmem.addr_head h)
    (first + Shmem.total_size h) /\
  coalesced (Shmem.blocks h) (Shmem.addr_head h) /\
  NoDup (Shmem.free_head h) /\
  (forall a, a ∈ Shmem.free_head h <->
             a ∈ Shmem.addr_head h /\ is_free (Shmem.blocks h) a).

(** The size and the tag of the block at [a]. *)
Definition block_info (h : Shmem.ShmemHead) (a : Z) : option (Z * Z) :=
  (fun b => (Shmem.magic b, Shmem.size b)) <$> Shmem.blocks h !! a.

(** The head after [pgstrom_shmem_alloc] has taken the free block [b] at
    [a] for a request of [required] bytes, before the block is stamped
    with the process and the owner. *)
Definition taken (h : Shmem.ShmemHead) (a : Z) (b : Shmem.ShmemBlock)
    (magic' required : Z) : Shmem.ShmemHead :=
  if Shmem.size b <? required + 4096 then
    {| Shmem.total_size := Shmem.total_size h;
       Shmem.free_size := Shmem.free_size h - Shmem.size b;
       Shmem.addr_head := Shmem.addr_head h;
       Shmem.free_head := Shmem.dlist_delete a (Shmem.free_head h);
       Shmem.blocks := <[a := Shmem.set_magic magic' b]> (Shmem.blocks h) |}
  else
    {| Shmem.total_size := Shmem.total_size h;
       Shmem.free_size := Shmem.free_size h;
       Shmem.addr_head :=
         Shmem.dlist_insert_after a (a + required) (Shmem.addr_head h);
       Shmem.free_head :=
         (a + required) :: Shmem.dlist_delete a (Shmem.free_head h);
       Shmem.blocks :=
         <[a := Shmem.set_size required (Shmem.set_magic magic' b)]>
           (<[a + required :=
                {| Shmem.magic := Shmem.SHMEM_BLOCK_FREE;
                   Shmem.size := Shmem.size b - required;
                   Shmem.pid := 0; Shmem.owner := 0;
                   Shmem.overrun_marker := 0 |}]> (Shmem.blocks h)) |}.

(** [pid], [owner] and the overrun marker of the block at [a] are set. *)
Definition stamped (mypid myowner : Z) (h : Shmem.ShmemHead) (a : Z)
  : Shmem.ShmemHead :=
  match Shmem.blocks h !! a with
  | Some b =>
      {| Shmem.total_size := Shmem.total_size h;
         Shmem.free_size := Shmem.free_size h;
         Shmem.addr_head := Shmem.addr_head h;
         Shmem.free_head := Shmem.free_head h;
         Shmem.blocks :=
           <[a := {| Shmem.magic := Shmem.magic b; Shmem.size := Shmem.size b;
                     Shmem.pid := mypid; Shmem.owner := myowner;
                     Shmem.overrun_marker := Shmem.SHMEM_BLOCK_OVERRUN_MARK |}]>
             (Shmem.blocks h) |}
  | None => h
  end.

(** The segment while [pgstrom_shmem_free] merges: in order, except
    that the block [cur] between the blocks [l1] and [l2] is not on
    the free list and is not compared with its neighbours. *)
Definition pending (first : Z) (h : Shmem.ShmemHead) (cur : Z)
    (l1 l2 : list Z) : Prop :=
  Shmem.addr_head h = l1 ++ cur :: l2 /\
  (exists bc, Shmem.blocks h !! cur = Some bc /\ 0 < Shmem.size bc /\
     tiles (Shmem.blocks h) first l1 cur /\
     tiles (Shmem.blocks h) (cur + Shmem.size bc) l2
       (first + Shmem.total_size h)) /\
  coalesced (Shmem.blocks h) l1 /\ coalesced (Shmem.blocks h) l2 /\
  NoDup (Shmem.free_head h) /\
  (forall x, x ∈ Shmem.free_head h <->
             x ∈ l1 ++ l2 /\ is_free (Shmem.blocks h) x).

(** The bytes from [lo] to [hi] lie inside the block at [a]. *)
Definition covers (h : Shmem.ShmemHead) (a lo hi : Z) : Prop :=
  exists b, Shmem.blocks h !! a = Some b /\ a <= lo /\ hi <= a + Shmem.size b.

(** A segment of 65536 bytes at address 4096 after one allocation of
    1000 bytes: a queue block of 1072 bytes, then one free block. *)
Definition used_arena : Shmem.ShmemHead :=
  {| Shmem.total_size := 65536; Shmem.free_size := 65536;
     Shmem.addr_head := [4096; 5168]; Shmem.free_head := [5168];
     Shmem.blocks :=
       <[4096 := {| Shmem.magic := Shmem.SHMEM_BLOCK_STROM_QUEUE;
                    Shmem.size := 1072; Shmem.pid := 42; Shmem.owner := 9;
                    Shmem.overrun_marker := Shmem.SHMEM_BLOCK_OVERRUN_MARK |}]>
       (<[5168 := {| Shmem.magic := Shmem.SHMEM_BLOCK_FREE;
                     Shmem.size := 64464; Shmem.pid := 0; Shmem.owner := 0;
                     Shmem.overrun_marker := 0 |}]> ∅) |}.

(** The address and the size of the block at [o], when there is a block
    at [o] and it is free. *)
Definition free_block (h : Shmem.ShmemHead) (o : option Z) : option (Z * Z) :=
  match o with
  | Some a =>
      match Shmem.blocks h !! a with
      | Some b =>
          if Shmem.magic b =? Shmem.SHMEM_BLOCK_FREE
          then Some (a, Shmem.size b) else None
      | None => None
      end
  | None => None
  end.

(** The addresses [l] without the address of the block [o]. *)
Definition list_without (o : option (Z * Z)) (l : list Z) : list Z :=
  match o with
  | Some (a, _) => List.filter (fun x => negb (x =? a)) l
  | None => l
  end.

(** * Facts *)

Lemma zth_Some {A} (l : list A) i x :
  zth l i = Some x -> 0 <= i < Z.of_nat (length l).
Proof.
  unfold zth. destruct (Z.ltb_spec i 0); [discriminate|].
  intros H1. apply lookup_lt_Some in H1. lia.
Qed.

Lemma zth_lt {A} (l : list A) i :
  0 <= i < Z.of_nat (length l) -> exists x, zth l i = Some x.
Proof.
  intros H. unfold zth. destruct (Z.ltb_spec i 0); [lia|].
  destruct (lookup_lt_is_Some_2 l (Z.to_nat i)) as [x Hx]; [lia|eauto].
Qed.

Lemma read_Done {A} (l : list A) i x : zth l i = Some x -> read l i = Done x.
Proof. unfold read. now intros ->. Qed.

(** ItemPointerCompare is the lexicographic order on (block, offset). *)

Lemma cmp_cases a b :
  (ItemPointerCompare a b = -1 /\ ip_lt a b) \/
  (ItemPointerCompare a b = 0 /\ ip_blkid a = ip_blkid b /\ ip_posid a = ip_posid b) \/
  (ItemPointerCompare a b = 1 /\ ip_lt b a).
Proof.
  unfold ItemPointerCompare, ItemPointerGetBlockNumber,
    ItemPointerGetOffsetNumber, ip_lt.
  destruct (Z.ltb_spec (ip_blkid a) (ip_blkid b)); [left; lia|].
  destruct (Z.gtb_spec (ip_blkid a) (ip_blkid b)); [right; right; lia|].
  destruct (Z.ltb_spec (ip_posid a) (ip_posid b)); [left; lia|].
  destruct (Z.gtb_spec (ip_posid a) (ip_posid b)); [right; right; lia|].
  right; left; lia.
Qed.

Ltac cmp_arith :=
  repeat match goal with
  | H : context [ItemPointerCompare ?a ?b] |- _ =>
      let E := fresh "E" in
      destruct (cmp_cases a b) as [[E ?]|[[E ?]|[E ?]]];
      rewrite E in *; clear E
  | |- context [ItemPointerCompare ?a ?b] =>
      let E := fresh "E" in
      destruct (cmp_cases a b) as [[E ?]|[[E ?]|[E ?]]];
      rewrite E in *; clear E
  end;
  unfold ip_lt in *; try lia.

Lemma cmp_trans_lt_le a b c :
  ItemPointerCompare a b < 0 -> ItemPointerCompare b c <= 0 ->
  ItemPointerCompare a c < 0.
Proof. intros. cmp_arith. Qed.

Lemma cmp_trans_le_lt a b c :
  ItemPointerCompare a b <= 0 -> ItemPointerCompare b c < 0 ->
  ItemPointerCompare a c < 0.
Proof. intros. cmp_arith. Qed.

Lemma cmp_ge_trans a b c :
  ItemPointerCompare a b <= 0 -> ItemPointerCompare a c >= 0 ->
  ItemPointerCompare b c >= 0.
Proof. intros. cmp_arith. Qed.

(** ** tcache_find_next_record *)



Lemma is_successor_unique a n ctid r1 r2 :
  is_successor a n ctid r1 -> is_successor a n ctid r2 -> r1 = r2.
Proof.
  intros [[-> H1]|[Hr1 [c1 [Hc1 [Hq1 H1]]]]] [[-> H2]|[Hr2 [c2 [Hc2 [Hq2 H2]]]]].
  - reflexivity.
  - specialize (H1 _ _ Hr2 Hc2). lia.
  - specialize (H2 _ _ Hr1 Hc1). lia.
  - destruct (H1 _ _ Hr2 Hc2 Hq2) as [Ha Hb].
    destruct (H2 _ _ Hr1 Hc1 Hq1) as [Hc Hd].
    destruct (Z.lt_trichotomy r1 r2) as [Hlt|[Heq|Hgt]]; [|assumption|].
    + specialize (Hd Hlt). cmp_arith.
    + specialize (Hb Hgt). cmp_arith.
Qed.

Section FindNextRecord.

Variable a : list ItemPointerData.
Variable n : Z.
Variable ctid : ItemPointerData.
Hypothesis Hn : 0 <= n <= Z.of_nat (length a).

Section Sorted.

Hypothesis Hsorted : forall i j x y, 0 <= i -> i <= j -> j < n ->
  zth a i = Some x -> zth a j = Some y -> ItemPointerCompare x y <= 0.

Lemma bsearch_loop_spec fuel : forall lo hi,
  0 <= lo <= hi -> hi <= n -> (Z.to_nat (hi - lo) <= fuel)%nat ->
  (forall i x, 0 <= i < lo -> zth a i = Some x -> ItemPointerCompare x ctid < 0) ->
  (forall i x, hi <= i < n -> zth a i = Some x -> ItemPointerCompare x ctid >= 0) ->
  exists r, bsearch_loop fuel a ctid lo hi = Done r /\ lo <= r <= hi /\
    (forall i x, 0 <= i < r -> zth a i = Some x -> ItemPointerCompare x ctid < 0) /\
    (forall i x, r <= i < n -> zth a i = Some x -> ItemPointerCompare x ctid >= 0).
Proof.
  induction fuel as [|fuel IH]; intros lo hi Hlo Hhi Hfuel Hbelow Habove.
  - assert (lo = hi) as -> by lia. exists hi. simpl.
    rewrite Z.ltb_irrefl. repeat split; auto; lia.
  - simpl. destruct (Z.ltb_spec lo hi) as [Hlt|Hge].
    + assert (Hq : Z.quot (lo + hi) 2 = (lo + hi) / 2)
        by (apply Z.quot_div_nonneg; lia).
      rewrite Hq. set (mid := (lo + hi) / 2).
      assert (Hmid : lo <= mid < hi).
      { unfold mid. clear - Hlt Hlo. Z.div_mod_to_equations. lia. }
      destruct (zth_lt a mid) as [c Hc]; [lia|].
      rewrite (read_Done _ _ _ Hc). simpl.
      destruct (Z.geb_spec (ItemPointerCompare c ctid) 0) as [Hcge|Hclt].
      * destruct (IH lo mid) as [r [Hr [Hb [H1 H2]]]]; try lia; auto.
        { intros i x Hi Hx. destruct (Z.lt_ge_cases i hi).
          - assert (ItemPointerCompare c x <= 0)
              by (apply (Hsorted mid i); auto; lia).
            apply (cmp_ge_trans c); lia.
          - apply (Habove i); auto; lia. }
        exists r. repeat split; auto; lia.
      * destruct (IH (mid + 1) hi) as [r [Hr [Hb [H1 H2]]]]; try lia; auto.
        { intros i x Hi Hx. destruct (Z.lt_ge_cases i lo).
          - apply (Hbelow i); auto; lia.
          - assert (ItemPointerCompare x c <= 0)
              by (apply (Hsorted i mid); auto; lia).
            apply (cmp_trans_le_lt x c); lia. }
        exists r. repeat split; auto; lia.
    + assert (lo = hi) as -> by lia. exists hi. repeat split; auto; lia.
Qed.

Lemma bsearch_is_successor :
  exists r, bsearch_loop (Z.to_nat n) a ctid 0 n = Done r /\
    is_successor a n ctid
      (if (0 <=? r) && (r <? n) then r else -1).
Proof.
  destruct (bsearch_loop_spec (Z.to_nat n) 0 n) as [r [Hr [Hb [H1 H2]]]];
    try lia.
  exists r. split; [assumption|].
  destruct (Z.leb_spec 0 r); [|lia]. simpl.
  destruct (Z.ltb_spec r n) as [Hlt|Hge].
  - right. split; [lia|].
    destruct (zth_lt a r) as [c Hc]; [lia|].
    exists c. split; [assumption|]. split; [apply (H2 r); auto; lia|].
    intros j x Hj Hx Hq.
    assert (r <= j).
    { destruct (Z.lt_ge_cases j r) as [Hjr|]; [|assumption].
      specialize (H1 j x ltac:(lia) Hx). lia. }
    split; [apply (Hsorted r j); auto; lia|lia].
  - left. split; [reflexivity|]. intros j x Hj Hx. apply (H1 j); auto; lia.
Qed.

End Sorted.

Hypothesis Hsentinel : forall i x, 0 <= i < n -> zth a i = Some x ->
  ItemPointerCompare x sentinel < 0.


Lemma scan_body_inv i st :
  0 <= i < n -> scan_inv a ctid i st ->
  exists st', scan_body a ctid i st = Done st' /\ scan_inv a ctid (i + 1) st'.
Proof.
  intros Hi Hinv. destruct st as [ip_cur index]. unfold scan_body.
  destruct (zth_lt a i) as [c Hc]; [lia|].
  rewrite (read_Done _ _ _ Hc). simpl.
  pose proof (Hsentinel i c Hi Hc) as Hcs.
  destruct (Z.geb_spec (ItemPointerCompare c ctid) 0) as [Hq|Hnq];
    [destruct (Z.ltb_spec (ItemPointerCompare c ip_cur) 0) as [Hlt|Hge]|];
    simpl; eexists; (split; [reflexivity|]).
  - (* a new minimum *)
    right. simpl. split; [lia|]. split; [assumption|]. split; [lia|].
    intros j x Hj Hx Hqx.
    destruct (Z.eq_dec j i) as [->|Hne].
    + rewrite Hc in Hx. inversion Hx; subst x. split; [|lia]. cmp_arith.
    + destruct Hinv as [[_ [_ Hnone]]|[Hidx [Hip [Hqip Hmin]]]]; simpl in *.
      * specialize (Hnone j x ltac:(lia) Hx). lia.
      * destruct (Hmin j x ltac:(lia) Hx Hqx) as [Hle _].
        assert (ItemPointerCompare c x < 0)
          by (apply (cmp_trans_lt_le c ip_cur); lia).
        split; [lia|auto].
  - (* qualifies, but not below the current minimum *)
    destruct Hinv as [[Hm1 [Hs Hnone]]|[Hidx [Hip [Hqip Hmin]]]]; simpl in *.
    + subst ip_cur. lia.
    + right. simpl. split; [lia|]. split; [assumption|]. split; [lia|].
      intros j x Hj Hx Hqx.
      destruct (Z.eq_dec j i) as [->|Hne].
      * rewrite Hc in Hx. inversion Hx; subst x. split; [|lia].
        clear - Hge. cmp_arith.
      * apply Hmin; auto; lia.
  - (* does not qualify *)
    destruct Hinv as [[Hm1 [Hs Hnone]]|[Hidx [Hip [Hqip Hmin]]]]; simpl in *.
    + left. simpl. repeat split; auto. intros j x Hj Hx.
      destruct (Z.eq_dec j i) as [->|Hne].
      * rewrite Hc in Hx. inversion Hx; subst x. assumption.
      * apply (Hnone j); auto; lia.
    + right. simpl. split; [lia|]. split; [assumption|]. split; [lia|].
      intros j x Hj Hx Hqx.
      destruct (Z.eq_dec j i) as [->|Hne].
      * rewrite Hc in Hx. inversion Hx; subst x. lia.
      * apply Hmin; auto; lia.
Qed.

Lemma scan_loop_inv k : forall i st,
  0 <= i -> i + Z.of_nat k <= n -> scan_inv a ctid i st ->
  exists st', for_loop k i (scan_body a ctid) st = Done st' /\
    scan_inv a ctid (i + Z.of_nat k) st'.
Proof.
  induction k as [|k IH]; intros i st Hi Hk Hinv.
  - exists st. simpl. rewrite Z.add_0_r. auto.
  - destruct (scan_body_inv i st) as [st1 [Hb Hinv1]]; [lia|assumption|].
    destruct (IH (i + 1) st1) as [st' [Hl Hinv']]; [lia|lia|assumption|].
    exists st'. simpl. rewrite Hb. simpl. split; [assumption|].
    replace (i + Z.of_nat (S k)) with (i + 1 + Z.of_nat k) by lia. assumption.
Qed.

Lemma scan_is_successor :
  exists st, for_loop (Z.to_nat n) 0 (scan_body a ctid) (sentinel, -1) = Done st /\
    is_successor a n ctid (snd st).
Proof.
  destruct (scan_loop_inv (Z.to_nat n) 0 (sentinel, -1)) as [st [Hl Hinv]];
    [lia|lia| |].
  { left. simpl. repeat split; auto. intros; lia. }
  exists st. split; [assumption|].
  rewrite Z2Nat.id in Hinv by lia. simpl in Hinv.
  destruct Hinv as [[H1 [_ H2]]|[H1 [H2 [H3 H4]]]].
  - left. auto.
  - right. split; [assumption|]. exists (fst st). auto.
Qed.

End FindNextRecord.



(** The linear scan starts from the pair
    [(MaxBlockNumber, MaxOffsetNumber)] and takes item pointers below it
    only: the bound on the item pointers is what the scan relies on.  An
    item pointer equal to that pair, which no heap tuple has, is found
    by the binary search and not by the scan. *)
Remark find_next_record_sentinel_row :
  tcs_wf sentinel_chunk /\ ctids_sorted sentinel_chunk /\
  range_inv sentinel_chunk /\
  tcache_find_next_record (set_is_sorted true sentinel_chunk)
    (ItemPointerSet 0 FirstOffsetNumber) = Done 0 /\
  tcache_find_next_record (set_is_sorted false sentinel_chunk)
    (ItemPointerSet 0 FirstOffsetNumber) = Done (-1).
Proof.
  split; [|split; [|split; [|split]]]; try reflexivity.
  - unfold tcs_wf; simpl; lia.
  - intros i j a b Hi Hij Hj Ha Hb. simpl in Hj.
    assert (i = 0) by lia. assert (j = 0) by lia. subst.
    vm_compute in Ha, Hb. inversion Ha; inversion Hb; subst. vm_compute. discriminate.
  - intros i c Hi Hc. simpl in Hi. assert (i = 0) by lia. subst.
    vm_compute in Hc. inversion Hc; subst. vm_compute. split; discriminate.
Qed.


Ltac small_index i :=
  first [ assert (i = 0) by lia; subst i
        | let H := fresh in assert (H : i = 0 \/ i = 1) by lia;
          destruct H; subst i ].

Lemma two_row_chunk_wf : tcs_wf two_row_chunk.
Proof. unfold tcs_wf; simpl; lia. Qed.

Lemma two_row_chunk_sorted : ctids_sorted two_row_chunk.
Proof.
  intros i j a b Hi Hij Hj Ha Hb. simpl in Hj.
  small_index i; small_index j; try lia;
    vm_compute in Ha, Hb; inversion Ha; inversion Hb; subst;
    vm_compute; discriminate.
Qed.

Lemma two_row_chunk_range : range_inv two_row_chunk.
Proof.
  intros i c Hi Hc. simpl in Hi.
  small_index i; vm_compute in Hc; inversion Hc; subst; vm_compute;
    split; discriminate.
Qed.


(** ** Rows of a chunk *)

Lemma rows_zip tcs :
  rows tcs = take (Z.to_nat (nrows tcs)) (zip (ctids tcs) (theads tcs)).
Proof. unfold rows, live. now rewrite zip_with_take. Qed.

Lemma rows_lookup tcs i c h :
  rows tcs !! i = Some (c, h) ->
  (i < Z.to_nat (nrows tcs))%nat /\ ctids tcs !! i = Some c
  /\ theads tcs !! i = Some h.
Proof.
  rewrite rows_zip. intros H. apply lookup_take_Some in H as [H Hlt].
  apply lookup_zip_with_Some in H as [x [y [E [Hx Hy]]]].
  inversion E; subst. auto.
Qed.

Lemma lookup_rows tcs i c :
  tcs_wf tcs -> (i < Z.to_nat (nrows tcs))%nat -> ctids tcs !! i = Some c ->
  exists h, rows tcs !! i = Some (c, h).
Proof.
  intros [H0 [H1 H2]] Hi Hc.
  destruct (lookup_lt_is_Some_2 (theads tcs) i) as [h Hh]; [lia|].
  exists h. rewrite rows_zip. rewrite lookup_take_lt by assumption.
  apply lookup_zip_with_Some. eauto.
Qed.

(** ** Loops over the user columns *)

Lemma for_loop_steps (step : Z -> outcome unit) : forall n i,
  for_loop n i (fun k (_ : unit) => step k) tt = Done tt <->
  (forall k, i <= k < i + Z.of_nat n -> step k = Done tt).
Proof.
  induction n as [|n IH]; intros i.
  - simpl. split; [intros _ k Hk; lia|reflexivity].
  - cbn [for_loop]. split.
    + intros H k Hk. destruct (step i) as [[]|] eqn:Ei; [|discriminate].
      cbn [obind] in H. destruct (Z.eq_dec k i) as [->|Hne]; [exact Ei|].
      apply (proj1 (IH (i + 1)) H). lia.
    + intros H. rewrite (H i) by lia. cbn [obind]. apply IH.
      intros k Hk. apply H. lia.
Qed.

Lemma for_columns_Done (E : tcache_env) (step : Z -> outcome unit) :
  for_columns E step = Done tt <->
  (forall k, 0 <= k < ncols E -> step k = Done tt).
Proof.
  unfold for_columns. rewrite for_loop_steps. split; intros H k Hk; apply H; lia.
Qed.

Lemma for_columns_cases (E : tcache_env) (step : Z -> outcome unit) :
  for_columns E step = Done tt \/ for_columns E step = Fault.
Proof. destruct (for_columns E step) as [[]|]; auto. Qed.

Lemma for_no_columns (step : Z -> outcome unit) :
  for_columns no_user_columns step = Done tt.
Proof. reflexivity. Qed.

(** ** tcache_alloc_tcnode, tcache_split_tcnode *)

Lemma alloc_tcnode_faults (E : tcache_env) (tc_head : tcache_head) :
  tcache_alloc_tcnode E tc_head = Fault.
Proof.
  unfold tcache_alloc_tcnode.
  destruct (free_list tc_head) as [|dnode rest] eqn:Efl.
  - destruct (node_block E) as [nodes|]; [|reflexivity]. cbn [obind].
    cbn [free_list set_free_list app]. destruct nodes; reflexivity.
  - cbn [obind]. rewrite Efl. reflexivity.
Qed.

(** C1 (failing input).  [tcache_split_tcnode] never splits a chunk:
    its first statement is the call of [tcache_alloc_tcnode], which
    clears its local pointer to the node it took from the free list and
    then writes through that pointer.  Whatever the head, the node, the
    user columns and the state of the shared memory, neither call
    returns, so no row is moved and no second chunk appears. *)
Theorem split_faults_in_alloc (E : tcache_env) (tc_head : tcache_head)
    (tc_node_old : tcache_node) :
  tcache_alloc_tcnode E tc_head = Fault /\
  tcache_split_tcnode E tc_head tc_node_old = Fault.
Proof.
  split; [apply alloc_tcnode_faults|].
  unfold tcache_split_tcnode. rewrite alloc_tcnode_faults. reflexivity.
Qed.

(** ** tcache_compaction_tcnode *)

Lemma write_append {A} (l : list A) (x : A) :
  write l (Z.of_nat (length l)) x = Done (l ++ [x]).
Proof.
  unfold write. destruct (Z.ltb_spec (Z.of_nat (length l)) 0); [lia|].
  rewrite Nat2Z.id.
  destruct (Nat.ltb_spec (length l) (length l)); [lia|].
  now rewrite Nat.eqb_refl.
Qed.

Lemma zth_of_nat {A} (l : list A) (i : nat) : zth l (Z.of_nat i) = l !! i.
Proof.
  unfold zth. destruct (Z.ltb_spec (Z.of_nat i) 0); [lia|].
  now rewrite Nat2Z.id.
Qed.

Lemma running_max_app l r start :
  running_max (l ++ [r]) start =
  (if row_block r >? running_max l start then row_block r
   else running_max l start).
Proof. unfold running_max. now rewrite fold_left_app. Qed.

Lemma running_min_app l r start :
  running_min (l ++ [r]) start =
  (if row_block r <? running_min l start then row_block r
   else running_min l start).
Proof. unfold running_min. now rewrite fold_left_app. Qed.

Lemma running_max_spec l : forall start,
  start <= running_max l start /\
  (forall r, r ∈ l -> row_block r <= running_max l start) /\
  (running_max l start = start \/
   exists r, r ∈ l /\ row_block r = running_max l start).
Proof.
  induction l as [|x l IH] using rev_ind; intros start.
  - simpl. split; [lia|]. split; [|auto]. intros r Hr. inversion Hr.
  - rewrite running_max_app. destruct (IH start) as [H1 [H2 H3]].
    destruct (Z.gtb_spec (row_block x) (running_max l start)) as [Hgt|Hle].
    + split; [lia|]. split.
      * intros r Hr. apply elem_of_app in Hr as [Hr|Hr].
        -- specialize (H2 r Hr). lia.
        -- apply list_elem_of_singleton in Hr. subst. lia.
      * right. exists x. split; [|reflexivity].
        apply elem_of_app. right. apply list_elem_of_singleton. reflexivity.
    + split; [lia|]. split.
      * intros r Hr. apply elem_of_app in Hr as [Hr|Hr].
        -- auto.
        -- apply list_elem_of_singleton in Hr. subst. lia.
      * destruct H3 as [H3|[r [Hr1 Hr2]]]; [left; assumption|].
        right. exists r. split; [|assumption]. apply elem_of_app. auto.
Qed.

Lemma running_min_spec l : forall start,
  running_min l start <= start /\
  (forall r, r ∈ l -> running_min l start <= row_block r) /\
  (running_min l start = start \/
   exists r, r ∈ l /\ row_block r = running_min l start).
Proof.
  induction l as [|x l IH] using rev_ind; intros start.
  - simpl. split; [lia|]. split; [|auto]. intros r Hr. inversion Hr.
  - rewrite running_min_app. destruct (IH start) as [H1 [H2 H3]].
    destruct (Z.ltb_spec (row_block x) (running_min l start)) as [Hlt|Hge].
    + split; [lia|]. split.
      * intros r Hr. apply elem_of_app in Hr as [Hr|Hr].
        -- specialize (H2 r Hr). lia.
        -- apply list_elem_of_singleton in Hr. subst. lia.
      * right. exists x. split; [|reflexivity].
        apply elem_of_app. right. apply list_elem_of_singleton. reflexivity.
    + split; [lia|]. split.
      * intros r Hr. apply elem_of_app in Hr as [Hr|Hr].
        -- auto.
        -- apply list_elem_of_singleton in Hr. subst. lia.
      * destruct H3 as [H3|[r [Hr1 Hr2]]]; [left; assumption|].
        right. exists r. split; [|assumption]. apply elem_of_app. auto.
Qed.

Lemma zip_take_S (C : list ItemPointerData) (H : list HeapTupleHeaderData)
    m c h :
  C !! m = Some c -> H !! m = Some h ->
  zip (take (S m) C) (take (S m) H) = zip (take m C) (take m H) ++ [(c, h)].
Proof.
  intros HC HH.
  rewrite (take_S_r _ _ _ HC), (take_S_r _ _ _ HH).
  rewrite zip_with_app; [reflexivity|].
  apply lookup_lt_Some in HC. apply lookup_lt_Some in HH.
  rewrite !length_take. lia.
Qed.

(** The rows before row [m] that were copied. *)
Lemma take_rows tcs m :
  (m <= Z.to_nat (nrows tcs))%nat ->
  take m (rows tcs) = zip (take m (ctids tcs)) (take m (theads tcs)).
Proof.
  intros Hm. rewrite rows_zip, take_take, Nat.min_l by lia.
  now rewrite zip_with_take.
Qed.

Lemma compaction_body_inv E tcs_old m st c h :
  ctids tcs_old !! m = Some c -> theads tcs_old !! m = Some h ->
  compaction_inv tcs_old m st ->
  (survives (c, h) = true ->
   for_columns E (fun k => copy_column E k (snd st) (Z.of_nat m) 1) = Done tt) ->
  exists st', compaction_body E tcs_old (Z.of_nat m) st = Done st' /\
    compaction_inv tcs_old (S m) st'.
Proof.
  intros Hc Hh Hinv Hcols. destruct st as [tn j].
  unfold compaction_inv in *. simpl in Hinv.
  destruct Hinv as [I1 [I2 [I3 [I4 I5]]]].
  rewrite (zip_take_S _ _ _ _ _ Hc Hh), List.filter_app. simpl.
  unfold compaction_body.
  rewrite (read_Done _ _ h) by (rewrite zth_of_nat; assumption). simpl.
  unfold survives in Hcols. unfold survives at 2 4 6 8 10. simpl in *.
  destruct (Z.ltb_spec (HeapTupleHeaderGetRawXmax h) FirstNormalTransactionId).
  - simpl. eexists. split; [reflexivity|]. simpl. rewrite !app_nil_r. auto.
  - simpl. rewrite (read_Done _ _ c) by (rewrite zth_of_nat; assumption). simpl.
    assert (Hj1 : j = Z.of_nat (length (ctids tn)))
      by (rewrite I1, length_fmap; assumption).
    assert (Hj2 : j = Z.of_nat (length (theads tn)))
      by (rewrite I2, length_fmap; assumption).
    assert (W1 : write (ctids tn) j c = Done (ctids tn ++ [c]))
      by (rewrite Hj1 at 1; apply write_append).
    assert (W2 : write (theads tn) j h = Done (theads tn ++ [h]))
      by (rewrite Hj2 at 1; apply write_append).
    rewrite W1. simpl. rewrite W2. simpl. rewrite (Hcols eq_refl). simpl.
    eexists. split; [reflexivity|].
    rewrite !fmap_app, length_app, running_max_app, running_min_app. simpl.
    change (row_block (c, h)) with (ItemPointerGetBlockNumber c).
    rewrite <- I4, <- I5, <- I1, <- I2.
    destruct (ItemPointerGetBlockNumber c >? blkno_max tn) eqn:E1;
      destruct (ItemPointerGetBlockNumber c <? blkno_min tn) eqn:E2; simpl;
      rewrite ?E2; simpl; repeat split; try reflexivity; lia.
Qed.

Lemma compaction_body_Done E tcs_old m st st' c h :
  ctids tcs_old !! m = Some c -> theads tcs_old !! m = Some h ->
  compaction_body E tcs_old (Z.of_nat m) st = Done st' ->
  survives (c, h) = true ->
  for_columns E (fun k => copy_column E k (snd st) (Z.of_nat m) 1) = Done tt.
Proof.
  intros Hc Hh Hb Hs. destruct st as [tn j]. unfold compaction_body in Hb.
  rewrite (read_Done _ _ h) in Hb by (rewrite zth_of_nat; assumption).
  cbn [obind] in Hb. unfold survives in Hs. cbn [snd] in Hs.
  destruct (HeapTupleHeaderGetRawXmax h <? FirstNormalTransactionId);
    [discriminate|].
  rewrite (read_Done _ _ c) in Hb by (rewrite zth_of_nat; assumption).
  cbn [obind] in Hb.
  destruct (write (ctids tn) j c); [|discriminate]. cbn [obind] in Hb.
  destruct (write (theads tn) j h); [|discriminate]. cbn [obind] in Hb.
  cbn [snd].
  destruct (for_columns_cases E (fun k => copy_column E k j (Z.of_nat m) 1))
    as [Hd|Hf]; [exact Hd|].
  rewrite Hf in Hb. discriminate.
Qed.

Lemma compaction_loop_inv E tcs_old k : forall m st,
  (m + k <= length (ctids tcs_old))%nat ->
  (m + k <= length (theads tcs_old))%nat ->
  compaction_inv tcs_old m st ->
  rows_copied E tcs_old m k ->
  exists st', for_loop k (Z.of_nat m) (compaction_body E tcs_old) st = Done st' /\
    compaction_inv tcs_old (m + k) st'.
Proof.
  induction k as [|k IH]; intros m st HC HH Hinv Hcp.
  - exists st. simpl. rewrite Nat.add_0_r. auto.
  - destruct (lookup_lt_is_Some_2 (ctids tcs_old) m) as [c Hc]; [lia|].
    destruct (lookup_lt_is_Some_2 (theads tcs_old) m) as [h Hh]; [lia|].
    destruct (compaction_body_inv E tcs_old m st c h Hc Hh Hinv)
      as [st1 [Hb Hinv1]].
    { intros Hs. pose proof (Hcp m c h ltac:(lia) Hc Hh Hs) as H.
      destruct Hinv as [_ [_ [I3 _]]]. rewrite I3. exact H. }
    destruct (IH (S m) st1) as [st' [Hl Hinv']]; [lia|lia|assumption| |].
    { intros i c' h' Hi. apply Hcp. lia. }
    exists st'. cbn [for_loop]. rewrite Hb. cbn [obind].
    replace (Z.of_nat m + 1) with (Z.of_nat (S m)) by lia.
    split; [assumption|].
    replace (m + S k)%nat with (S m + k)%nat by lia. assumption.
Qed.

Lemma compaction_loop_Done E tcs_old k : forall m st st',
  (m + k <= length (ctids tcs_old))%nat ->
  (m + k <= length (theads tcs_old))%nat ->
  compaction_inv tcs_old m st ->
  for_loop k (Z.of_nat m) (compaction_body E tcs_old) st = Done st' ->
  rows_copied E tcs_old m k.
Proof.
  induction k as [|k IH]; intros m st st' HC HH Hinv Hl i c h Hi Hc Hh Hs;
    [lia|].
  destruct (lookup_lt_is_Some_2 (ctids tcs_old) m) as [cm Hcm]; [lia|].
  destruct (lookup_lt_is_Some_2 (theads tcs_old) m) as [hm Hhm]; [lia|].
  cbn [for_loop] in Hl.
  destruct (compaction_body E tcs_old (Z.of_nat m) st) as [st1|] eqn:Hb;
    [|discriminate].
  cbn [obind] in Hl.
  pose proof (compaction_body_Done E tcs_old m st st1 cm hm Hcm Hhm Hb) as Hm.
  destruct (Nat.eq_dec i m) as [->|Hne].
  - rewrite Hc in Hcm. rewrite Hh in Hhm. inversion Hcm. inversion Hhm. subst.
    destruct Hinv as [_ [_ [I3 _]]]. rewrite <- I3. exact (Hm Hs).
  - destruct (compaction_body_inv E tcs_old m st cm hm Hcm Hhm Hinv Hm)
      as [st2 [Hb2 Hinv1]].
    rewrite Hb in Hb2. inversion Hb2. subst st2.
    replace (Z.of_nat m + 1) with (Z.of_nat (S m)) in Hl by lia.
    apply (IH (S m) st1 st' ltac:(lia) ltac:(lia) Hinv1 Hl i c h); auto. lia.
Qed.

Lemma rows_copied_all E tcs_old :
  tcs_wf tcs_old ->
  rows_copied E tcs_old 0 (Z.to_nat (nrows tcs_old)) <->
  (forall i r k, rows tcs_old !! i = Some r -> survives r = true ->
     0 <= k < ncols E ->
     copy_column E k (Z.of_nat (survivors_before tcs_old i)) (Z.of_nat i) 1
     = Done tt).
Proof.
  intros Hwf. unfold rows_copied, survivors_before. split.
  - intros H i [c h] k Hr Hs Hk. apply rows_lookup in Hr as [Hi [Hc Hh]].
    specialize (H i c h ltac:(lia) Hc Hh Hs).
    rewrite take_rows by lia.
    exact (proj1 (for_columns_Done E _) H k Hk).
  - intros H i c h Hi Hc Hh Hs. apply for_columns_Done. intros k Hk.
    destruct (lookup_rows tcs_old i c Hwf ltac:(lia) Hc) as [h' Hr].
    pose proof (rows_lookup _ _ _ _ Hr) as [_ [_ Hh']].
    rewrite Hh in Hh'. inversion Hh'. subst h'.
    rewrite <- take_rows by lia. exact (H i (c, h) k Hr Hs Hk).
Qed.

Lemma compaction_tcs_spec E tcs_old :
  tcs_wf tcs_old -> compaction_completes E tcs_old ->
  exists tcs_new, compaction_tcs E tcs_old = Done tcs_new /\
    ctids tcs_new = (surviving tcs_old).*1 /\
    theads tcs_new = (surviving tcs_old).*2 /\
    nrows tcs_new = Z.of_nat (length (surviving tcs_old)) /\
    njunks tcs_new = 0 /\
    is_sorted tcs_new = is_sorted tcs_old /\
    blkno_max tcs_new = running_max (surviving tcs_old) (blkno_min tcs_old) /\
    blkno_min tcs_new = running_min (surviving tcs_old) (blkno_max tcs_old).
Proof.
  intros Hwf [Hshm [Htoast Hcopy]]. pose proof Hwf as [Hn0 [Hn1 Hn2]].
  unfold compaction_tcs, alloc_column_store. rewrite Hshm. cbn [obind].
  rewrite (proj2 (for_columns_Done E (assign_toast E)) Htoast). cbn [obind].
  destruct (compaction_loop_inv E tcs_old (Z.to_nat (nrows tcs_old)) 0
              (set_blkno_max (blkno_min tcs_old)
                 (set_blkno_min (blkno_max tcs_old) tcache_create_column_store),
               0)) as [[tn j] [Hl Hinv]]; [lia|lia| | |].
  { unfold compaction_inv. simpl. auto. }
  { apply rows_copied_all; assumption. }
  change (Z.of_nat 0) with 0 in Hl. rewrite Hl. simpl.
  eexists. split; [reflexivity|]. simpl.
  unfold compaction_inv in Hinv. simpl in Hinv.
  destruct Hinv as [I1 [I2 [I3 [I4 I5]]]].
  unfold surviving, rows, live. auto 10.
Qed.

Lemma compaction_tcs_Done E tcs_old tcs_new :
  tcs_wf tcs_old -> compaction_tcs E tcs_old = Done tcs_new ->
  compaction_completes E tcs_old.
Proof.
  intros Hwf. pose proof Hwf as [Hn0 [Hn1 Hn2]].
  unfold compaction_tcs, alloc_column_store, compaction_completes.
  destruct (have_shmem E); [|discriminate]. cbn [obind].
  destruct (for_columns_cases E (assign_toast E)) as [Hd|Hf];
    rewrite ?Hf; [|discriminate].
  rewrite Hd. cbn [obind].
  destruct (for_loop _ _ _ _) as [st|] eqn:Hl; [|discriminate].
  intros _. split; [reflexivity|]. split; [apply for_columns_Done, Hd|].
  apply rows_copied_all; [assumption|].
  eapply (compaction_loop_Done E tcs_old _ 0); [lia|lia| |exact Hl].
  unfold compaction_inv. simpl. auto.
Qed.

Lemma rows_of_compacted tcs_new (l : list (ItemPointerData * HeapTupleHeaderData)) :
  ctids tcs_new = l.*1 -> theads tcs_new = l.*2 ->
  nrows tcs_new = Z.of_nat (length l) ->
  rows tcs_new = l.
Proof.
  intros H1 H2 H3. unfold rows, live. rewrite H1, H2, H3, Nat2Z.id.
  rewrite !firstn_all2 by (rewrite length_fmap; lia).
  apply zip_fst_snd.
Qed.

Lemma rows_in_range tcs r :
  range_inv tcs -> r ∈ rows tcs ->
  blkno_min tcs <= row_block r <= blkno_max tcs.
Proof.
  intros Hinv Hr. unfold rows, live in Hr.
  destruct r as [c h]. apply elem_of_zip_l in Hr.
  apply list_elem_of_lookup in Hr as [i Hi].
  apply lookup_take_Some in Hi as [Hi Hlt].
  apply (Hinv (Z.of_nat i) c); [lia|]. rewrite zth_of_nat. assumption.
Qed.

Lemma surviving_in_rows tcs r : r ∈ surviving tcs -> r ∈ rows tcs.
Proof.
  unfold surviving. rewrite !list_elem_of_In, List.filter_In. tauto.
Qed.

Lemma running_bounds tcs :
  range_inv tcs -> surviving tcs <> [] ->
  block_bounds (surviving tcs)
    (running_min (surviving tcs) (blkno_max tcs))
    (running_max (surviving tcs) (blkno_min tcs)).
Proof.
  intros Hinv Hne.
  assert (Hin : forall r, r ∈ surviving tcs ->
            blkno_min tcs <= row_block r <= blkno_max tcs)
    by (intros r Hr; apply rows_in_range; auto using surviving_in_rows).
  destruct (running_max_spec (surviving tcs) (blkno_min tcs)) as [X1 [X2 X3]].
  destruct (running_min_spec (surviving tcs) (blkno_max tcs)) as [N1 [N2 N3]].
  destruct (surviving tcs) as [|r0 l] eqn:E; [congruence|].
  assert (Hr0 : r0 ∈ r0 :: l) by apply list_elem_of_here.
  pose proof (Hin r0 Hr0). pose proof (X2 r0 Hr0). pose proof (N2 r0 Hr0).
  split; [|split].
  - intros r Hr. specialize (X2 r Hr). specialize (N2 r Hr). lia.
  - destruct N3 as [N3|N3]; [|assumption]. exists r0. split; [assumption|lia].
  - destruct X3 as [X3|X3]; [|assumption]. exists r0. split; [assumption|lia].
Qed.


Lemma vacuumed_row_chunk_wf : tcs_wf vacuumed_row_chunk.
Proof. unfold tcs_wf; simpl; lia. Qed.

Lemma two_user_columns_complete tcs : compaction_completes two_user_columns tcs.
Proof. split; [reflexivity|]. split; reflexivity. Qed.



(** ** do_try_merge_tcnode *)

Lemma memcpy_at_end {A} (dst src : list A) :
  memcpy_at dst (Z.of_nat (length dst)) src (Z.of_nat (length src))
  = Done (dst ++ src).
Proof.
  unfold memcpy_at.
  destruct (Z.leb_spec 0 (Z.of_nat (length dst))); [|lia].
  destruct (Z.leb_spec 0 (Z.of_nat (length src))); [|lia].
  rewrite !Z.leb_refl. simpl.
  rewrite !Nat2Z.id, firstn_all, firstn_all.
  rewrite skipn_all2 by lia. now rewrite app_nil_r.
Qed.

Lemma merge_condition (cap : Z) :
  6 <= cap ->
  (2 <? Z.quot cap 2) && (1 <? Z.quot cap 2) && (2 + 1 <? Z.quot (2 * cap) 3)
  = true.
Proof.
  intros H. rewrite !Z.quot_div_nonneg by lia.
  assert (3 <= cap / 2) by (apply Z.div_le_lower_bound; lia).
  assert (4 <= (2 * cap) / 3) by (apply Z.div_le_lower_bound; lia).
  destruct (Z.ltb_spec 2 (cap / 2)); [|lia].
  destruct (Z.ltb_spec 1 (cap / 2)); [|lia].
  destruct (Z.ltb_spec (2 + 1) (2 * cap / 3)); [|lia].
  reflexivity.
Qed.

(** What the merge makes of the two ranges, whenever it moves the rows:
    both fields become the greater of the two inputs. *)
Lemma merge_ranges (E : tcache_env) (cap : Z)
    (tc_parent tc_child tc_parent' : tcache_node)
    (tcs_dst tcs_src : tcache_column_store) :
  tcs tc_parent = Some tcs_dst -> tcs tc_child = Some tcs_src ->
  do_try_merge_tcnode E cap tc_parent tc_child = Done (true, tc_parent') ->
  exists tcs_dst', tcs tc_parent' = Some tcs_dst' /\
    blkno_max tcs_dst' = Z.max (blkno_max tcs_dst) (blkno_max tcs_src) /\
    blkno_min tcs_dst' = Z.max (blkno_min tcs_dst) (blkno_min tcs_src).
Proof.
  intros Hp Hc. unfold do_try_merge_tcnode, node_tcs. rewrite Hp, Hc. simpl.
  destruct (_ && _); [|discriminate].
  destruct (memcpy_at (ctids tcs_dst) _ _ _); [|discriminate]. simpl.
  destruct (memcpy_at (theads tcs_dst) _ _ _); [|discriminate]. simpl.
  destruct (for_columns E _) as [[]|]; [|discriminate]. simpl.
  intros H. inversion H; subst. eexists. split; [reflexivity|]. simpl.
  unfold Max. split.
  - destruct (Z.gtb_spec (blkno_max tcs_dst) (blkno_max tcs_src)); lia.
  - destruct (Z.gtb_spec (blkno_min tcs_dst) (blkno_min tcs_src)); lia.
Qed.

(** C2 (failing input).  With any capacity of at least 6 rows, in a
    cache of the system columns only, the merge
    of the donor chunk, one row of block 1, into the chunk that holds
    the blocks 10 and 20 moves the row: the destination then holds the
    rows of both, its [blkno_max] is 20 and its [blkno_min] is 10, the
    greater of the two [blkno_min], so the row of block 1 lies outside
    the range and the invariant is broken. *)
Theorem merge_raises_blkno_min (cap : Z) :
  6 <= cap ->
  exists tc_parent' tcs_dst,
    do_try_merge_tcnode no_user_columns cap (node_of 1 merge_dst_chunk)
      (node_of 2 merge_src_chunk) = Done (true, tc_parent') /\
    tcs tc_parent' = Some tcs_dst /\
    rows tcs_dst = rows merge_dst_chunk ++ rows merge_src_chunk /\
    blkno_max tcs_dst = 20 /\
    blkno_min tcs_dst = 10 /\
    blkno_min tcs_dst <> Z.min (blkno_min merge_dst_chunk)
                               (blkno_min merge_src_chunk) /\
    ~ range_inv tcs_dst.
Proof.
  intros Hcap. unfold do_try_merge_tcnode, node_tcs. simpl.
  rewrite (merge_condition cap Hcap).
  do 2 eexists. split; [reflexivity|]. simpl.
  split; [reflexivity|]. split; [reflexivity|]. split; [reflexivity|].
  split; [reflexivity|]. split; [vm_compute; discriminate|].
  intros Hinv. specialize (Hinv 2 (ItemPointerSet 1 1)).
  simpl in Hinv. vm_compute in Hinv.
  destruct Hinv as [Hinv _]; [split; [discriminate|reflexivity]|reflexivity|].
  apply Hinv. reflexivity.
Qed.

Lemma merge_raises_blkno_min_witness :
  6 <= 262144 /\
  exists tc_parent' tcs_dst,
    do_try_merge_tcnode no_user_columns 262144 (node_of 1 merge_dst_chunk)
      (node_of 2 merge_src_chunk) = Done (true, tc_parent') /\
    tcs tc_parent' = Some tcs_dst /\
    rows tcs_dst = rows merge_dst_chunk ++ rows merge_src_chunk /\
    blkno_max tcs_dst = 20 /\
    blkno_min tcs_dst = 10 /\
    blkno_min tcs_dst <> Z.min (blkno_min merge_dst_chunk)
                               (blkno_min merge_src_chunk) /\
    ~ range_inv tcs_dst.
Proof.
  split; [lia|]. apply (merge_raises_blkno_min 262144). lia.
Defined.

(** ** tcache_find_next_internal, tcache_find_prev_internal *)

Lemma tcache_node_ind' (P : tcache_node -> Prop) :
  (forall t, (forall l, left t = Some l -> P l) ->
             (forall r, right t = Some r -> P r) -> P t) ->
  forall t, P t.
Proof.
  intros H. fix IH 1. intros [c tc l r ld rd]. apply H; simpl; intros x.
  - destruct l as [l'|]; [|discriminate].
    intros Hx. apply (eq_ind l' P (IH l') x). congruence.
  - destruct r as [r'|]; [|discriminate].
    intros Hx. apply (eq_ind r' P (IH r') x). congruence.
Qed.

Lemma find_app' {A} (f : A -> bool) (l1 l2 : list A) :
  List.find f (l1 ++ l2) =
  match List.find f l1 with Some x => Some x | None => List.find f l2 end.
Proof.
  induction l1 as [|x l1 IH]; simpl; [reflexivity|].
  destruct (f x); [reflexivity|assumption].
Qed.

Lemma find_none' {A} (f : A -> bool) (l : list A) :
  Forall (fun x => f x = false) l -> List.find f l = None.
Proof.
  induction 1 as [|x l Hx _ IH]; simpl; [reflexivity|]. now rewrite Hx.
Qed.

Lemma find_next_ordered (column_store : bool) (blkno_cur : Z) :
  forall t, tree_ok t ->
  tcache_find_next_internal t blkno_cur column_store
  = Done (found_of column_store <$> first_next (inorder t) blkno_cur).
Proof.
  induction t as [t IHl IHr] using tcache_node_ind'. intros Hok.
  destruct t as [c tc l r ld rd]. simpl in *.
  destruct Hok as [[cs [Hcs [Hrows Hrange]]] [Hl Hr]]. simpl in Hcs. subst tc.
  unfold first_next. rewrite find_app'. simpl.
  unfold node_max at 2. simpl.
  destruct (Z.eqb_spec (nrows cs) 0) as [|_]; [contradiction|].
  assert (Hleft : forall l', l = Some l' -> blkno_min cs <= blkno_cur ->
            List.find (fun n => blkno_cur <=? node_max n) (inorder l') = None).
  { intros l' -> Hge. destruct Hl as [_ Hl]. apply find_none'.
    eapply Forall_impl; [exact Hl|]. intros n Hn. simpl in Hn.
    unfold node_min in Hn. simpl in Hn. apply Z.leb_gt. lia. }
  destruct (Z.gtb_spec blkno_cur (blkno_max cs)) as [Hgt|Hle].
  - destruct (Z.leb_spec blkno_cur (blkno_max cs)); [lia|].
    assert (Hnone : List.find (fun n => blkno_cur <=? node_max n)
                      match l with Some l' => inorder l' | None => [] end = None).
    { destruct l as [l'|]; [|reflexivity]. apply (Hleft l' eq_refl). lia. }
    rewrite Hnone. destruct r as [r'|]; [|reflexivity].
    destruct Hr as [Hr _]. apply (IHr r' eq_refl Hr).
  - destruct (Z.leb_spec blkno_cur (blkno_max cs)); [|lia].
    destruct l as [l'|]; simpl.
    + destruct (Z.geb_spec blkno_cur (blkno_min cs)) as [Hge|Hlt].
      * rewrite (Hleft l' eq_refl) by lia. reflexivity.
      * destruct Hl as [Hl _]. rewrite (IHl l' eq_refl Hl). simpl.
        unfold first_next.
        destruct (List.find _ (inorder l')); reflexivity.
    + reflexivity.
Qed.

Lemma find_prev_ordered (column_store : bool) (blkno_cur : Z) :
  forall t, tree_ok t ->
  tcache_find_prev_internal t blkno_cur column_store
  = Done (found_of column_store <$> last_prev (inorder t) blkno_cur).
Proof.
  induction t as [t IHl IHr] using tcache_node_ind'. intros Hok.
  destruct t as [c tc l r ld rd]. simpl in *.
  destruct Hok as [[cs [Hcs [Hrows Hrange]]] [Hl Hr]]. simpl in Hcs. subst tc.
  unfold last_prev. rewrite rev_app_distr. simpl. rewrite <- app_assoc.
  rewrite find_app'. simpl. unfold node_min at 2. simpl.
  destruct (Z.eqb_spec (nrows cs) 0) as [|_]; [contradiction|].
  assert (Hright : forall r', r = Some r' -> blkno_cur <= blkno_max cs ->
            List.find (fun n => node_min n <=? blkno_cur) (rev (inorder r')) = None).
  { intros r' -> Hge. destruct Hr as [_ Hr]. apply find_none'.
    apply Forall_rev. eapply Forall_impl; [exact Hr|]. intros n Hn. simpl in Hn.
    unfold node_max in Hn. simpl in Hn. apply Z.leb_gt. lia. }
  destruct (Z.ltb_spec blkno_cur (blkno_min cs)) as [Hlt|Hge].
  - destruct (Z.leb_spec (blkno_min cs) blkno_cur); [lia|].
    assert (Hnone : List.find (fun n => node_min n <=? blkno_cur)
                      (rev match r with Some r' => inorder r' | None => [] end)
                    = None).
    { destruct r as [r'|]; [|reflexivity]. apply (Hright r' eq_refl). lia. }
    rewrite Hnone. destruct l as [l'|]; [|reflexivity].
    destruct Hl as [Hl _]. apply (IHl l' eq_refl Hl).
  - destruct (Z.leb_spec (blkno_min cs) blkno_cur); [|lia].
    destruct r as [r'|]; simpl.
    + destruct (Z.leb_spec blkno_cur (blkno_max cs)) as [Hle|Hgt].
      * rewrite (Hright r' eq_refl) by lia. reflexivity.
      * destruct Hr as [Hr _]. rewrite (IHr r' eq_refl Hr). simpl.
        unfold last_prev.
        destruct (List.find _ (rev (inorder r'))); reflexivity.
    + reflexivity.
Qed.

(** C3 (amended).  For a node with a non-empty chunk.  In
    [tcache_find_next_internal]: when the requested block is above the
    node's [blkno_max], the result is the result of the search in the
    right subtree, nothing when there is no right child, and the node is
    not a fallback; when the block is below the node's [blkno_min] and
    the node has a left child, the result is the result of the search in
    the left subtree, and the node itself when that search yields
    nothing.  [tcache_find_prev_internal] is the mirror image: below
    [blkno_min] the left subtree decides alone, above [blkno_max] the
    right subtree is searched with the node as the fallback.  On a tree
    that satisfies the range order the successor search returns the
    first chunk in block order that ends at or after the block, the
    predecessor search the last chunk that starts at or before it; so a
    block in a gap between two ranges yields the adjacent chunk. *)
Theorem find_internal_descent_and_fallback (tc_node : tcache_node)
    (cs : tcache_column_store) (blkno_cur : Z) (column_store : bool) :
  tcs tc_node = Some cs -> nrows cs <> 0 ->
  (blkno_cur > blkno_max cs ->
   tcache_find_next_internal tc_node blkno_cur column_store
   = match right tc_node with
     | Some r => tcache_find_next_internal r blkno_cur column_store
     | None => Done None
     end) /\
  (blkno_cur < blkno_min cs -> blkno_cur <= blkno_max cs ->
   forall l, left tc_node = Some l ->
   tcache_find_next_internal tc_node blkno_cur column_store
   = do temp <- tcache_find_next_internal l blkno_cur column_store;
     Done (Some (match temp with
                 | Some t => t
                 | None => answer column_store tc_node cs
                 end))) /\
  (blkno_cur < blkno_min cs ->
   tcache_find_prev_internal tc_node blkno_cur column_store
   = match left tc_node with
     | Some l => tcache_find_prev_internal l blkno_cur column_store
     | None => Done None
     end) /\
  (blkno_cur > blkno_max cs -> blkno_min cs <= blkno_cur ->
   forall r, right tc_node = Some r ->
   tcache_find_prev_internal tc_node blkno_cur column_store
   = do temp <- tcache_find_prev_internal r blkno_cur column_store;
     Done (Some (match temp with
                 | Some t => t
                 | None => answer column_store tc_node cs
                 end))) /\
  (tree_ok tc_node ->
   tcache_find_next_internal tc_node blkno_cur column_store
   = Done (found_of column_store <$> first_next (inorder tc_node) blkno_cur) /\
   tcache_find_prev_internal tc_node blkno_cur column_store
   = Done (found_of column_store <$> last_prev (inorder tc_node) blkno_cur)).
Proof.
  intros Hcs Hrows.
  destruct tc_node as [c tc l r ld rd]. simpl in Hcs. subst tc.
  split; [|split; [|split; [|split]]].
  - intros H. simpl.
    destruct (Z.eqb_spec (nrows cs) 0); [contradiction|].
    destruct (Z.gtb_spec blkno_cur (blkno_max cs)); [reflexivity|lia].
  - intros H1 H2 l' Hl. simpl in Hl. subst l. simpl.
    destruct (Z.eqb_spec (nrows cs) 0); [contradiction|].
    destruct (Z.gtb_spec blkno_cur (blkno_max cs)); [lia|].
    destruct (Z.geb_spec blkno_cur (blkno_min cs)); [lia|].
    destruct (tcache_find_next_internal l' blkno_cur column_store) as [[t|]|];
      reflexivity.
  - intros H. simpl.
    destruct (Z.eqb_spec (nrows cs) 0); [contradiction|].
    destruct (Z.ltb_spec blkno_cur (blkno_min cs)); [reflexivity|lia].
  - intros H1 H2 r' Hr. simpl in Hr. subst r. simpl.
    destruct (Z.eqb_spec (nrows cs) 0); [contradiction|].
    destruct (Z.ltb_spec blkno_cur (blkno_min cs)); [lia|].
    destruct (Z.leb_spec blkno_cur (blkno_max cs)); [lia|].
    destruct (tcache_find_prev_internal r' blkno_cur column_store) as [[t|]|];
      reflexivity.
  - intros Hok. split.
    + apply find_next_ordered. assumption.
    + apply find_prev_ordered. assumption.
Qed.

Lemma find_internal_descent_and_fallback_witness :
  tcs gap_tree = Some merge_dst_chunk /\ nrows merge_dst_chunk <> 0 /\
  tree_ok gap_tree /\
  tcache_find_next_internal gap_tree 7 false = Done (Some (FoundNode gap_tree)) /\
  tcache_find_prev_internal gap_tree 7 false
  = Done (Some (FoundNode (node_of 1 low_chunk))).
Proof.
  assert (H1 : tcs gap_tree = Some merge_dst_chunk) by reflexivity.
  assert (H2 : nrows merge_dst_chunk <> 0) by (simpl; lia).
  assert (H3 : tree_ok gap_tree).
  { simpl. unfold chunk_ok. simpl. repeat split; eauto.
    - exists merge_dst_chunk. simpl. repeat split; lia.
    - exists low_chunk. simpl. repeat split; lia.
    - repeat constructor. }
  split; [exact H1|]. split; [exact H2|]. split; [exact H3|].
  destruct (find_internal_descent_and_fallback gap_tree merge_dst_chunk 7 false
              H1 H2) as [_ [_ [_ [_ H]]]].
  destruct (H H3) as [Hn Hp]. rewrite Hn, Hp. split; reflexivity.
Defined.

Lemma find_next_no_fallback_counterexample :
  tcs low_node_with_empty_right = Some low_chunk /\
  nrows low_chunk <> 0 /\ 10 > blkno_max low_chunk /\
  tcache_find_next_internal (node_of 2 tcache_create_column_store) 10 false
    = Done None /\
  tcache_find_next_internal low_node_with_empty_right 10 false = Done None /\
  tcache_find_next_internal (node_of 1 low_chunk) 10 false = Done None.
Proof.
  split; [reflexivity|]. split; [simpl; lia|]. split; [simpl; lia|].
  repeat split.
Qed.

(** ** tcache_end_scan, tcache_rescan *)

Lemma free_node_recurse_spec : forall t fl,
  all_released (snd (tcache_free_node_recurse fl t)) /\
  chains (snd (tcache_free_node_recurse fl t)) = chains t /\
  (forall c, c ∈ fst (tcache_free_node_recurse fl t) <-> c ∈ chains t \/ c ∈ fl).
Proof.
  induction t as [t IHl IHr] using tcache_node_ind'. intros fl.
  destruct t as [c tc l r ld rd]. simpl in *.
  unfold all_released, chains in *.
  destruct r as [r'|]; destruct l as [l'|]; simpl.
  - specialize (IHr r' eq_refl fl).
    destruct (tcache_free_node_recurse fl r') as [fl1 r1]. simpl in IHr.
    specialize (IHl l' eq_refl fl1).
    destruct (tcache_free_node_recurse fl1 l') as [fl2 l1]. simpl in *.
    destruct IHr as [R1 [R2 R3]]. destruct IHl as [L1 [L2 L3]].
    split; [|split].
    + apply Forall_app. split; [assumption|]. constructor; [reflexivity|assumption].
    + rewrite !map_app. simpl. now rewrite L2, R2.
    + intros x. rewrite map_app. simpl.
      rewrite elem_of_cons, elem_of_app, elem_of_cons, L3, R3. tauto.
  - specialize (IHr r' eq_refl fl).
    destruct (tcache_free_node_recurse fl r') as [fl1 r1]. simpl in *.
    destruct IHr as [R1 [R2 R3]].
    split; [|split].
    + constructor; [reflexivity|assumption].
    + now rewrite R2.
    + intros x. rewrite !elem_of_cons, R3. tauto.
  - specialize (IHl l' eq_refl fl).
    destruct (tcache_free_node_recurse fl l') as [fl2 l1]. simpl in *.
    destruct IHl as [L1 [L2 L3]].
    split; [|split].
    + apply Forall_app. split; [assumption|]. constructor; [reflexivity|constructor].
    + rewrite !map_app. simpl. now rewrite L2.
    + intros x. rewrite map_app. simpl.
      rewrite elem_of_cons, elem_of_app, L3, list_elem_of_singleton. tauto.
  - split; [|split].
    + constructor; [reflexivity|constructor].
    + reflexivity.
    + intros x. rewrite !elem_of_cons. split; [tauto|].
      intros [[H|H]|H]; auto. inversion H.
Qed.

(** What the release of the tree does to the head. *)
Lemma free_root_spec tc_head root :
  tcs_root tc_head = Some root ->
  exists root' fl',
    free_root tc_head
      = Done (set_tcs_root (Some root') (set_free_list fl' tc_head)) /\
    all_released root' /\ chains root' = chains root /\
    (forall c, c ∈ fl' <-> c ∈ chains root \/ c ∈ free_list tc_head).
Proof.
  intros Hroot. unfold free_root. rewrite Hroot.
  pose proof (free_node_recurse_spec root (free_list tc_head)) as H.
  destruct (tcache_free_node_recurse (free_list tc_head) root) as [fl' root'].
  exists root', fl'. split; [reflexivity|]. exact H.
Qed.

(** C4 (failing input, in general form).  For a head in the state
    [NOW_BUILD] with a tree and more than one reference: when
    [tcache_end_scan] is called while the heap scan is open, and when
    [tcache_rescan] is called, every node of the tree is released (its
    chunk dropped, its chain on the free list), but the state of the
    head remains [NOW_BUILD]: it is not reverted to [NOT_BUILT], the
    root pointer still refers to the released nodes, and a scan begun on
    the head afterwards opens no heap scan, hence does not rebuild. *)
Theorem abort_leaves_now_build (tc_scan : tcache_scandesc)
    (tc_head : tcache_head) (root : tcache_node) :
  state tc_head = TCACHE_STATE_NOW_BUILD ->
  tcs_root tc_head = Some root ->
  refcnt tc_head <> 1 ->
  (heapscan tc_scan <> None ->
   exists h' root',
     tcache_end_scan tc_scan tc_head = Done (Some h') /\
     tcs_root h' = Some root' /\ all_released root' /\
     (forall c, c ∈ chains root -> c ∈ free_list h') /\
     state h' = TCACHE_STATE_NOW_BUILD /\
     state h' <> TCACHE_STATE_NOT_BUILT /\
     heapscan (fst (tcache_begin_scan h')) = None) /\
  (exists s' h' root',
     tcache_rescan tc_scan tc_head = Done (s', h') /\
     tcs_root h' = Some root' /\ all_released root' /\
     (forall c, c ∈ chains root -> c ∈ free_list h') /\
     state h' = TCACHE_STATE_NOW_BUILD /\
     state h' <> TCACHE_STATE_NOT_BUILT /\
     heapscan (fst (tcache_begin_scan h')) = None).
Proof.
  intros Hstate Hroot Hrefcnt.
  destruct (free_root_spec tc_head root Hroot) as [root' [fl' [Hf [R1 [R2 R3]]]]].
  split.
  - intros Hscan. unfold tcache_end_scan.
    destruct (heapscan tc_scan) as [u|]; [|congruence].
    rewrite Hf. simpl. unfold tcache_put_tchead. simpl.
    destruct (Z.eqb_spec (refcnt tc_head - 1) 0); [lia|].
    eexists. exists root'. split; [reflexivity|]. simpl.
    split; [reflexivity|]. split; [assumption|].
    split; [intros c Hc; apply R3; auto|].
    rewrite Hstate. split; [reflexivity|].
    split; [discriminate|]. unfold tcache_begin_scan. simpl.
    rewrite Hstate. reflexivity.
  - unfold tcache_rescan. rewrite Hstate, Hf. simpl.
    do 2 eexists. exists root'. split; [reflexivity|]. simpl.
    split; [reflexivity|]. split; [assumption|].
    split; [intros c Hc; apply R3; auto|].
    rewrite Hstate. split; [reflexivity|].
    split; [discriminate|]. unfold tcache_begin_scan. simpl.
    rewrite Hstate. reflexivity.
Qed.

Lemma abort_leaves_now_build_witness :
  state building_head = TCACHE_STATE_NOW_BUILD /\
  tcs_root building_head = Some building_root /\
  refcnt building_head <> 1 /\
  heapscan building_scan <> None /\
  exists h' root',
    tcache_end_scan building_scan building_head = Done (Some h') /\
    tcs_root h' = Some root' /\ all_released root' /\
    (forall c, c ∈ chains building_root -> c ∈ free_list h') /\
    state h' = TCACHE_STATE_NOW_BUILD /\
    state h' <> TCACHE_STATE_NOT_BUILT /\
    heapscan (fst (tcache_begin_scan h')) = None.
Proof.
  assert (H1 : refcnt building_head <> 1) by (simpl; lia).
  assert (H2 : heapscan building_scan <> None) by (simpl; discriminate).
  split; [reflexivity|]. split; [reflexivity|]. split; [exact H1|].
  split; [exact H2|].
  exact (proj1 (abort_leaves_now_build building_scan building_head
                  building_root eq_refl eq_refl H1) H2).
Defined.

(** The same run, evaluated: the three nodes go to the free list, the
    head keeps one reference and stays in [NOW_BUILD]. *)
Fact end_scan_on_building_head :
  exists h', tcache_end_scan building_scan building_head = Done (Some h') /\
    free_list h' = [1; 2; 3; 4; 5]%nat /\ refcnt h' = 1 /\
    state h' = TCACHE_STATE_NOW_BUILD.
Proof. eexists. split; [reflexivity|]. simpl. auto. Qed.

(** ** Toast buffers: do_insert_tuple, tcache_copy_cs_varlena *)

Lemma MAXALIGN_spec (len : Z) :
  0 <= len -> MAXALIGN len = 8 * ((len + 7) / 8).
Proof.
  intros H. unfold MAXALIGN.
  rewrite <- Z.ldiff_land. change 7 with (Z.ones 3) at 2.
  rewrite Z.ldiff_ones_r by lia.
  rewrite Z.shiftr_div_pow2, Z.shiftl_mul_pow2 by lia.
  change (2 ^ 3) with 8. lia.
Qed.

Lemma MAXALIGN_bounds (len : Z) :
  0 <= len -> len <= MAXALIGN len < len + 8.
Proof.
  intros H. rewrite MAXALIGN_spec by assumption.
  Z.div_mod_to_equations. lia.
Qed.

(** Both callers replace the buffer exactly when the aligned value fits
    into the room that is left, and keep it when it does not. *)
Lemma grow_when_room (hdr init : Z) (alap : Z -> option Z)
    (tbuf tbuf' : Toast.tcache_toastbuf) (v : Toast.varlena) (replaced : bool) :
  Toast.do_insert_tuple_grow hdr init alap tbuf v = Done (tbuf', replaced) ->
  (replaced = true <-> Toast.has_room tbuf (Toast.VARSIZE v)) /\
  (replaced = false -> tbuf' = tbuf).
Proof.
  unfold Toast.do_insert_tuple_grow, Toast.grow_test, Toast.has_room.
  destruct (Z.ltb_spec (Toast.tbuf_usage tbuf + MAXALIGN (Toast.VARSIZE v))
              (Toast.tbuf_length tbuf)) as [Hroom|Hfull].
  - destruct (Toast.tcache_create_toast_buffer hdr init alap _); [|discriminate].
    simpl. intros H. inversion H; subst. split; [tauto|discriminate].
  - intros H. inversion H; subst. split; [|reflexivity].
    split; [discriminate|lia].
Qed.

Lemma copy_grow_when_room (hdr init : Z) (alap : Z -> option Z)
    (tbuf tbuf' : Toast.tcache_toastbuf) (v : Toast.varlena) (replaced : bool) :
  Toast.copy_grow hdr init alap tbuf v = Done (tbuf', replaced) ->
  (replaced = true <-> Toast.has_room tbuf (Toast.VARSIZE v)) /\
  (replaced = false -> tbuf' = tbuf).
Proof.
  unfold Toast.copy_grow, Toast.grow_test, Toast.has_room.
  destruct (Z.ltb_spec (Toast.tbuf_usage tbuf + MAXALIGN (Toast.VARSIZE v))
              (Toast.tbuf_length tbuf)) as [Hroom|Hfull].
  - destruct (Toast.tcache_duplicate_toast_buffer hdr init alap _ _);
      [|discriminate].
    simpl. intros H. inversion H; subst. split; [tauto|discriminate].
  - intros H. inversion H; subst. split; [|reflexivity].
    split; [discriminate|lia].
Qed.

(** C5 (failing input).  A value of 16 bytes is stored into a buffer of
    1024 bytes of which 1016 are used.  Whatever the allocator, neither
    [do_insert_tuple] nor [tcache_copy_cs_varlena] replaces the buffer:
    the room does not suffice, the assertion of [do_insert_tuple] does
    not hold at the copy, and the copy writes past the end of the
    buffer.  With 1008 bytes free the buffer is replaced although the
    value fits. *)
Theorem toast_growth_inverted (hdr init : Z) (alap : Z -> option Z) :
  ~ Toast.has_room full_tbuf (Toast.VARSIZE value16) /\
  Toast.do_insert_tuple_grow hdr init alap full_tbuf value16
    = Done (full_tbuf, false) /\
  Toast.do_insert_tuple_varlena hdr init alap
    {| Toast.values := []; Toast.toast := full_tbuf |} 0 value16 = Fault /\
  Toast.copy_grow hdr init alap full_tbuf value16 = Done (full_tbuf, false) /\
  Toast.tcache_copy_cs_varlena hdr init alap
    {| Toast.values := []; Toast.toast := full_tbuf |} 0 src_column 0 1 = Fault /\
  Toast.has_room roomy_tbuf (Toast.VARSIZE value16) /\
  (exists tbuf', Toast.do_insert_tuple_grow 16 1024 exact_alap roomy_tbuf value16
                 = Done (tbuf', true) /\ Toast.tbuf_length tbuf' = 2048) /\
  (exists tbuf', Toast.copy_grow 16 1024 exact_alap roomy_tbuf value16
                 = Done (tbuf', true) /\ Toast.tbuf_length tbuf' = 2048).
Proof.
  split; [unfold Toast.has_room; vm_compute; discriminate|].
  split; [reflexivity|]. split; [reflexivity|]. split; [reflexivity|].
  split; [reflexivity|]. split; [unfold Toast.has_room; vm_compute; reflexivity|].
  split; eexists; split; reflexivity.
Qed.

(** ** pgstrom_shmem_alloc *)

Lemma alloc_loop_none_fits (h : Shmem.ShmemHead) (magic' required : Z) :
  forall iter block,
  (forall x, x ∈ iter ->
     exists b, Shmem.blocks h !! x = Some b /\ Shmem.size b < required) ->
  Shmem.alloc_loop h iter block magic' required
  = Done (h, match last iter with Some x => Some x | None => block end).
Proof.
  induction iter as [|x iter IH]; intros block H; simpl; [reflexivity|].
  destruct (H x) as [b [Hb Hsz]]; [apply list_elem_of_here|].
  unfold Shmem.block_at. rewrite Hb. simpl.
  destruct (Z.ltb_spec (Shmem.size b) required); [|lia].
  rewrite IH by (intros y Hy; apply H; now apply list_elem_of_further).
  destruct iter as [|z iter]; [reflexivity|].
  rewrite last_cons_cons.
  destruct (proj2 (last_is_Some (z :: iter)) ltac:(discriminate)) as [y Hy].
  now rewrite Hy.
Qed.

(** Where a block of the free list is large enough, the first such
    block is taken: it leaves the free list and carries the caller's
    tag; it is split when the remainder is at least 4096 bytes. *)
Lemma alloc_loop_first_fit (h : Shmem.ShmemHead) (magic' required : Z) :
  0 < required ->
  forall l1 a l2 b block,
  (forall x, x ∈ l1 ->
     exists b, Shmem.blocks h !! x = Some b /\ Shmem.size b < required) ->
  Shmem.blocks h !! a = Some b -> required <= Shmem.size b ->
  exists h', Shmem.alloc_loop h (l1 ++ a :: l2) block magic' required
             = Done (h', Some a) /\
    (exists b', Shmem.blocks h' !! a = Some b' /\ Shmem.magic b' = magic' /\
       Shmem.size b' = (if Shmem.size b <? required + 4096
                        then Shmem.size b else required)) /\
    (if Shmem.size b <? required + 4096
     then Shmem.free_head h' = Shmem.dlist_delete a (Shmem.free_head h)
     else Shmem.free_head h'
          = (a + required) :: Shmem.dlist_delete a (Shmem.free_head h) /\
          exists n, Shmem.blocks h' !! (a + required) = Some n /\
            Shmem.magic n = Shmem.SHMEM_BLOCK_FREE /\
            Shmem.size n = Shmem.size b - required).
Proof.
  intros Hreq.
  induction l1 as [|x l1 IH]; intros a l2 b block H Hb Hfit; simpl.
  - unfold Shmem.block_at. rewrite Hb. simpl.
    destruct (Z.ltb_spec (Shmem.size b) required); [lia|].
    destruct (Z.ltb_spec (Shmem.size b) (required + 4096)).
    + eexists. split; [reflexivity|]. simpl. split; [|reflexivity].
      eexists. rewrite lookup_insert_eq. split; [reflexivity|]. auto.
    + eexists. split; [reflexivity|]. simpl. split.
      * eexists. rewrite lookup_insert_eq. split; [reflexivity|]. auto.
      * split; [reflexivity|]. eexists.
        rewrite lookup_insert_ne by lia. rewrite lookup_insert_eq.
        split; [reflexivity|]. auto.
  - destruct (H x) as [bx [Hbx Hsz]]; [apply list_elem_of_here|].
    unfold Shmem.block_at. rewrite Hbx. simpl.
    destruct (Z.ltb_spec (Shmem.size bx) required); [|lia].
    apply IH; auto. intros y Hy. apply H. now apply list_elem_of_further.
Qed.

(** C6 (failing input, in general form).  When the free list is not
    empty and none of its blocks is large enough for the request,
    [pgstrom_shmem_alloc] does not return NULL: it returns the last
    block of the free list, which stays on the free list with its size
    and its tag unchanged, stamped with the caller's pid, owner and
    overrun mark. *)
Theorem alloc_returns_block_when_none_fits (mypid myowner : Z)
    (h : Shmem.ShmemHead) (magic' size' : Z) (l : list Z) (a : Z) :
  Shmem.free_head h = l ++ [a] ->
  none_fits h (Shmem.required_size size') ->
  exists h' b b',
    Shmem.pgstrom_shmem_alloc mypid myowner h magic' size' = Done (h', Some a) /\
    Shmem.free_head h' = Shmem.free_head h /\
    Shmem.blocks h !! a = Some b /\ Shmem.blocks h' !! a = Some b' /\
    Shmem.size b' = Shmem.size b /\ Shmem.magic b' = Shmem.magic b /\
    Shmem.size b' < Shmem.required_size size' /\
    Shmem.pid b' = mypid /\ Shmem.owner b' = myowner /\
    Shmem.overrun_marker b' = Shmem.SHMEM_BLOCK_OVERRUN_MARK.
Proof.
  intros Hfree Hnone. unfold Shmem.pgstrom_shmem_alloc.
  rewrite (alloc_loop_none_fits h magic' (Shmem.required_size size')
             (Shmem.free_head h) None Hnone).
  rewrite Hfree, last_snoc. simpl.
  destruct (Hnone a) as [b [Hb Hsz]];
    [rewrite Hfree; apply elem_of_app; right; apply list_elem_of_here|].
  unfold Shmem.block_at. rewrite Hb. simpl.
  eexists. exists b. eexists. split; [reflexivity|]. simpl.
  rewrite lookup_insert_eq. rewrite Hfree. repeat split; auto.
Qed.

Lemma alloc_returns_block_when_none_fits_witness :
  Shmem.free_head small_arena = [1152] ++ [1024] /\
  none_fits small_arena (Shmem.required_size 1000) /\
  exists h' b b',
    Shmem.pgstrom_shmem_alloc 42 9 small_arena
      Shmem.SHMEM_BLOCK_KERNEL_PARAMS 1000 = Done (h', Some 1024) /\
    Shmem.free_head h' = Shmem.free_head small_arena /\
    Shmem.blocks small_arena !! 1024 = Some b /\
    Shmem.blocks h' !! 1024 = Some b' /\
    Shmem.size b' = Shmem.size b /\ Shmem.magic b' = Shmem.magic b /\
    Shmem.size b' < Shmem.required_size 1000 /\
    Shmem.pid b' = 42 /\ Shmem.owner b' = 9 /\
    Shmem.overrun_marker b' = Shmem.SHMEM_BLOCK_OVERRUN_MARK.
Proof.
  assert (H1 : Shmem.free_head small_arena = [1152] ++ [1024]) by reflexivity.
  assert (H2 : none_fits small_arena (Shmem.required_size 1000)).
  { intros x Hx. simpl in Hx.
    apply elem_of_cons in Hx as [->|Hx];
      [|apply list_elem_of_singleton in Hx; subst x];
      eexists; (split; [reflexivity|vm_compute; reflexivity]). }
  split; [exact H1|]. split; [exact H2|].
  exact (alloc_returns_block_when_none_fits 42 9 small_arena
           Shmem.SHMEM_BLOCK_KERNEL_PARAMS 1000 [1152] 1024 H1 H2).
Defined.

(** On the empty free list the result is NULL. *)
Fact alloc_on_empty_free_list (mypid myowner : Z) (h : Shmem.ShmemHead)
    (magic' size' : Z) :
  Shmem.free_head h = [] ->
  Shmem.pgstrom_shmem_alloc mypid myowner h magic' size' = Done (h, None).
Proof.
  intros H. unfold Shmem.pgstrom_shmem_alloc. rewrite H. reflexivity.
Qed.

(** ** Message queue *)

Lemma run_op_keeps_shutdown (queue : Queue.StromQueue) (op : Queue.queue_op) :
  Queue.is_shutdown queue = true ->
  Queue.is_shutdown (Queue.run_op queue op) = true /\
  Queue.head (Queue.run_op queue op) `suffix_of` Queue.head queue.
Proof.
  intros H. destruct queue as [hd sd]. simpl in H. subst sd.
  destruct op as [chain| | |woken| |]; simpl.
  - split; [reflexivity|]. reflexivity.
  - destruct hd; simpl; (split; [reflexivity|]);
      [reflexivity|(apply suffix_cons_r; reflexivity)].
  - destruct hd; simpl; (split; [reflexivity|]);
      [reflexivity|(apply suffix_cons_r; reflexivity)].
  - unfold Queue.pgstrom_queue_dequeue_wake. simpl.
    destruct woken; destruct hd; simpl; (split; [reflexivity|]);
      first [reflexivity|(apply suffix_cons_r; reflexivity)].
  - split; [reflexivity|]. reflexivity.
  - split; [reflexivity|]. reflexivity.
Qed.

Lemma run_ops_keep_shutdown (ops : list Queue.queue_op) :
  forall queue, Queue.is_shutdown queue = true ->
  Queue.is_shutdown (Queue.run_ops queue ops) = true /\
  Queue.head (Queue.run_ops queue ops) `suffix_of` Queue.head queue.
Proof.
  induction ops as [|op ops IH]; intros queue H; simpl.
  - split; [assumption|]. reflexivity.
  - destruct (run_op_keeps_shutdown queue op H) as [H1 H2].
    destruct (IH _ H1) as [H3 H4]. split; [assumption|].
    etransitivity; eassumption.
Qed.

(** C9 (amended).  After [pgstrom_queue_shutdown] the closed flag stays
    set through every later operation on the queue, and every later
    [pgstrom_queue_enqueue] returns false and leaves the queue as it is;
    no operation adds an item any more.  The shutdown itself makes no
    call on the condition variable; the only call made after it is the
    signal that [pgstrom_queue_enqueue] issues, also when it refuses the
    item. *)
Theorem shutdown_is_one_way (queue : Queue.StromQueue)
    (ops : list Queue.queue_op) (chain : nat) :
  Queue.is_shutdown (fst (fst (Queue.pgstrom_queue_shutdown queue))) = true /\
  snd (Queue.pgstrom_queue_shutdown queue) = [] /\
  Queue.is_shutdown
    (Queue.run_ops (fst (fst (Queue.pgstrom_queue_shutdown queue))) ops) = true /\
  Queue.head (Queue.run_ops (fst (fst (Queue.pgstrom_queue_shutdown queue))) ops)
    `suffix_of` Queue.head queue /\
  Queue.pgstrom_queue_enqueue
    (Queue.run_ops (fst (fst (Queue.pgstrom_queue_shutdown queue))) ops) chain
  = (Queue.run_ops (fst (fst (Queue.pgstrom_queue_shutdown queue))) ops,
     false, [Queue.cond_signal]).
Proof.
  split; [reflexivity|]. split; [reflexivity|].
  destruct (run_ops_keep_shutdown ops
              (fst (fst (Queue.pgstrom_queue_shutdown queue))) eq_refl)
    as [H1 H2].
  split; [assumption|]. split; [assumption|].
  unfold Queue.pgstrom_queue_enqueue. rewrite H1. reflexivity.
Qed.

Lemma shutdown_no_broadcast_counterexample :
  snd (fst (Queue.pgstrom_queue_dequeue_enter empty_queue)) = inr tt /\
  snd (Queue.pgstrom_queue_shutdown empty_queue) = [] /\
  ~ Queue.cond_broadcast ∈ snd (Queue.pgstrom_queue_shutdown empty_queue).
Proof.
  split; [reflexivity|]. split; [reflexivity|]. simpl. intros H. inversion H.
Qed.

(** ** do_vacuum_row_store *)

(** The row store used below is what three calls of
    [tcache_row_store_insert_tuple] build. *)
Fact three_block_trs_built :
  (do r1 <- RowStore.tcache_row_store_insert_tuple 64
              (RowStore.tcache_create_row_store 4096) (rs_tuple_of 1);
   do r2 <- RowStore.tcache_row_store_insert_tuple 64 (fst r1) (rs_tuple_of 2);
   do r3 <- RowStore.tcache_row_store_insert_tuple 64 (fst r2) (rs_tuple_of 3);
   Done (fst r3)) = Done three_block_trs.
Proof. reflexivity. Qed.

(** C10 (failing input, in general form).  [do_vacuum_row_store] leaves
    the row store unchanged for every page whose block number is below
    [blkno_max], also when the block lies within
    [[blkno_min, blkno_max]]: the guard tests [blkno_max > blknum]. *)
Theorem vacuum_skips_blocks_below_blkno_max (trs : RowStore.tcache_row_store)
    (buffer : RowStore.Buffer) :
  RowStore.BufferGetBlockNumber buffer < RowStore.blkno_max trs ->
  RowStore.do_vacuum_row_store trs buffer = Done trs.
Proof.
  intros H. unfold RowStore.do_vacuum_row_store.
  destruct (Z.gtb_spec (RowStore.blkno_max trs)
              (RowStore.BufferGetBlockNumber buffer)); [|lia].
  now rewrite orb_true_r.
Qed.

Lemma vacuum_skips_blocks_below_blkno_max_witness :
  RowStore.BufferGetBlockNumber (buffer_of 2)
    < RowStore.blkno_max three_block_trs /\
  RowStore.do_vacuum_row_store three_block_trs (buffer_of 2)
    = Done three_block_trs.
Proof.
  assert (H : RowStore.BufferGetBlockNumber (buffer_of 2)
              < RowStore.blkno_max three_block_trs) by (simpl; lia).
  split; [exact H|].
  exact (vacuum_skips_blocks_below_blkno_max three_block_trs (buffer_of 2) H).
Defined.

(** The page of block 2 lies within the range of the row store, the
    sibling [tcache_update_tuple_hints_rowstore] would walk the row
    store for it, and its line pointer 1 is dead; the page of block 3
    shows what the vacuum does where the guard lets it pass: the offset
    of the dead row is zeroed. *)
Fact vacuum_within_range :
  RowStore.blkno_min three_block_trs <= 2 <= RowStore.blkno_max three_block_trs /\
  RowStore.outside_range three_block_trs 2 = false /\
  RowStore.kern_rowstore_get_tuple three_block_trs 1 = Done (Some (rs_tuple_of 2)) /\
  RowStore.do_vacuum_row_store three_block_trs (buffer_of 2)
    = Done three_block_trs /\
  exists trs', RowStore.do_vacuum_row_store three_block_trs (buffer_of 3)
               = Done trs' /\
    RowStore.tupoffset (RowStore.kern trs') = [4032; 3968; 0].
Proof.
  split; [simpl; lia|]. split; [reflexivity|]. split; [reflexivity|].
  split; [reflexivity|]. eexists. split; [reflexivity|]. reflexivity.
Qed.

(** * Further properties of the code *)

(** ** Searches and scans over the tree *)

Lemma gap_tree_ordered : tree_ok gap_tree.
Proof.
  simpl. unfold chunk_ok. simpl. repeat split; eauto.
  - exists merge_dst_chunk. simpl. repeat split; lia.
  - exists low_chunk. simpl. repeat split; lia.
  - repeat constructor.
Qed.

Lemma inorder_chunk_ok : forall t, tree_ok t -> Forall chunk_ok (inorder t).
Proof.
  induction t as [t IHl IHr] using tcache_node_ind'.
  destruct t as [c tc l r ld rd]. simpl in *. intros [Hc [Hl Hr]].
  apply Forall_app. split; [|constructor; [exact Hc|]].
  - destruct l as [l'|]; [|constructor]. apply (IHl l' eq_refl). tauto.
  - destruct r as [r'|]; [|constructor]. apply (IHr r' eq_refl). tauto.
Qed.

Lemma found_of_chunk_ok (n : tcache_node) :
  chunk_ok n ->
  found_of false n = FoundNode n /\
  as_column_store (Some (found_of true n)) = Done (tcs n).
Proof. intros [cs [Hcs _]]. unfold found_of. rewrite Hcs. auto. Qed.

(** X1.  On a tree that satisfies the T-tree invariant,
    [tcache_find_next_node] and [tcache_find_next_column_store] return
    the first node (its chunk), in ascending block order, whose range
    ends at or after the requested block, and NULL when there is none
    or when the head has no tree. *)
Theorem find_next_is_first_in_order (tc_head : tcache_head) (blkno : Z) :
  (tcs_root tc_head = None ->
   tcache_find_next_node tc_head blkno = Done None /\
   tcache_find_next_column_store tc_head blkno = Done None) /\
  (forall root, tcs_root tc_head = Some root -> tree_ok root ->
   tcache_find_next_node tc_head blkno
   = Done (FoundNode <$> first_next (inorder root) blkno) /\
   tcache_find_next_column_store tc_head blkno
   = Done (first_next (inorder root) blkno ≫= tcs)).
Proof.
  unfold tcache_find_next_node, tcache_find_next_column_store. split.
  - intros ->. auto.
  - intros root -> Hok. rewrite !find_next_ordered by assumption.
    destruct (first_next (inorder root) blkno) as [n|] eqn:E; simpl; [|auto].
    apply find_some in E as [Hin _].
    pose proof (inorder_chunk_ok root Hok) as Hall.
    rewrite List.Forall_forall in Hall.
    destruct (found_of_chunk_ok n (Hall n Hin)) as [-> H2]. auto.
Qed.

Lemma find_next_is_first_in_order_witness :
  tcs_root (ready_head gap_tree) = Some gap_tree /\ tree_ok gap_tree /\
  tcache_find_next_node (ready_head gap_tree) 7
  = Done (FoundNode <$> first_next (inorder gap_tree) 7) /\
  tcache_find_next_column_store (ready_head gap_tree) 7
  = Done (first_next (inorder gap_tree) 7 ≫= tcs).
Proof.
  split; [reflexivity|]. split; [exact gap_tree_ordered|].
  exact (proj2 (find_next_is_first_in_order (ready_head gap_tree) 7)
           gap_tree eq_refl gap_tree_ordered).
Defined.

(** X2.  On a tree that satisfies the T-tree invariant,
    [tcache_find_prev_column_store] returns the chunk of the last node,
    in ascending block order, whose range starts at or before the
    requested block, and NULL when there is none or when the head has
    no tree. *)
Theorem find_prev_is_last_in_order (tc_head : tcache_head) (blkno : Z) :
  (tcs_root tc_head = None ->
   tcache_find_prev_column_store tc_head blkno = Done None) /\
  (forall root, tcs_root tc_head = Some root -> tree_ok root ->
   tcache_find_prev_column_store tc_head blkno
   = Done (last_prev (inorder root) blkno ≫= tcs)).
Proof.
  unfold tcache_find_prev_column_store. split.
  - intros ->. auto.
  - intros root -> Hok. rewrite !find_prev_ordered by assumption.
    destruct (last_prev (inorder root) blkno) as [n|] eqn:E; simpl; [|auto].
    apply find_some in E as [Hin _]. apply in_rev in Hin.
    pose proof (inorder_chunk_ok root Hok) as Hall.
    rewrite List.Forall_forall in Hall.
    destruct (found_of_chunk_ok n (Hall n Hin)) as [_ H2]. exact H2.
Qed.

Lemma find_prev_is_last_in_order_witness :
  tcs_root (ready_head gap_tree) = Some gap_tree /\ tree_ok gap_tree /\
  tcache_find_prev_column_store (ready_head gap_tree) 7
  = Done (last_prev (inorder gap_tree) 7 ≫= tcs).
Proof.
  split; [reflexivity|]. split; [exact gap_tree_ordered|].
  exact (proj2 (find_prev_is_last_in_order (ready_head gap_tree) 7)
           gap_tree eq_refl gap_tree_ordered).
Defined.

Lemma chunk_ok_range (n : tcache_node) : chunk_ok n -> node_min n <= node_max n.
Proof.
  intros [cs [Hcs [_ H]]]. unfold node_min, node_max. now rewrite Hcs.
Qed.

Lemma ranges_ascend_app (l1 l2 : list tcache_node) :
  ranges_ascend (l1 ++ l2) <->
  ranges_ascend l1 /\ ranges_ascend l2 /\
  Forall (fun a => Forall (fun b => node_max a < node_min b) l2) l1.
Proof.
  induction l1 as [|a l1 IH]; simpl.
  - intuition constructor.
  - rewrite Forall_app, IH, Forall_cons. tauto.
Qed.

Lemma inorder_ranges_ascend : forall t, tree_ok t -> ranges_ascend (inorder t).
Proof.
  induction t as [t IHl IHr] using tcache_node_ind'. intros Hok.
  pose proof Hok as Hok'.
  destruct t as [c tc l r ld rd]. simpl in *. destruct Hok as [Hc [Hl Hr]].
  apply chunk_ok_range in Hc.
  set (t := {| chain := c; tcs := tc; left := l; right := r;
               l_depth := ld; r_depth := rd |}) in *.
  apply ranges_ascend_app.
  assert (HR : Forall (fun m => node_max t < node_min m)
                 match r with Some r' => inorder r' | None => [] end).
  { destruct r as [r'|]; [tauto|constructor]. }
  split; [|split].
  - destruct l as [l'|]; [|exact I]. apply (IHl l' eq_refl). tauto.
  - simpl. split; [exact HR|].
    destruct r as [r'|]; [|exact I]. apply (IHr r' eq_refl). tauto.
  - destruct l as [l'|]; [|constructor]. destruct Hl as [_ Hl].
    eapply Forall_impl; [exact Hl|]. intros a Ha. simpl in Ha.
    constructor; [exact Ha|].
    eapply Forall_impl; [exact HR|]. intros b Hb. simpl in Hb. lia.
Qed.

Lemma first_next_after (l1 l2 : list tcache_node) (n : tcache_node) :
  ranges_ascend (l1 ++ n :: l2) -> Forall chunk_ok (l1 ++ n :: l2) ->
  first_next (l1 ++ n :: l2) (node_max n + 1) = head l2.
Proof.
  intros Ha Hc. apply ranges_ascend_app in Ha as [_ [[Hn _] H1]].
  apply Forall_app in Hc as [_ Hc]. apply Forall_cons in Hc as [Hcn Hc2].
  apply chunk_ok_range in Hcn.
  unfold first_next. rewrite find_app'. rewrite find_none'.
  - simpl. destruct (Z.leb_spec (node_max n + 1) (node_max n)); [lia|].
    destruct l2 as [|m l2]; [reflexivity|]. simpl.
    apply Forall_cons in Hn as [Hm _]. apply Forall_cons in Hc2 as [Hcm _].
    apply chunk_ok_range in Hcm.
    destruct (Z.leb_spec (node_max n + 1) (node_max m)); [reflexivity|lia].
  - eapply Forall_impl; [exact H1|]. intros a Ha. simpl in Ha.
    apply Forall_cons in Ha as [Ha _]. apply Z.leb_gt. lia.
Qed.

Lemma last_prev_before (l1 l2 : list tcache_node) (n : tcache_node) :
  ranges_ascend (l1 ++ n :: l2) -> Forall chunk_ok (l1 ++ n :: l2) ->
  last_prev (l1 ++ n :: l2) (node_min n - 1) = head (rev l1).
Proof.
  intros Ha Hc. apply ranges_ascend_app in Ha as [_ [[Hn _] H1]].
  apply Forall_app in Hc as [Hc1 Hc]. apply Forall_cons in Hc as [Hcn Hc2].
  apply chunk_ok_range in Hcn.
  unfold last_prev. rewrite rev_app_distr. simpl. rewrite <- app_assoc.
  rewrite find_app'. rewrite find_none'.
  - simpl. destruct (Z.leb_spec (node_min n) (node_min n - 1)); [lia|].
    apply Forall_rev in H1. apply Forall_rev in Hc1.
    destruct (rev l1) as [|m l]; [reflexivity|]. simpl.
    apply Forall_cons in H1 as [Hm _]. apply Forall_cons in Hm as [Hm _].
    apply Forall_cons in Hc1 as [Hcm _]. apply chunk_ok_range in Hcm.
    destruct (Z.leb_spec (node_min m) (node_min n - 1)); [reflexivity|lia].
  - apply Forall_rev.
    assert (H : Forall (fun m => node_max n < node_min m /\ chunk_ok m) l2).
    { apply Forall_and; split; assumption. }
    eapply Forall_impl; [exact H|]. intros a [Ha _]. simpl. apply Z.leb_gt. lia.
Qed.

Lemma find_next_column_store_ordered (tc_head : tcache_head)
    (root : tcache_node) (blkno : Z) :
  tcs_root tc_head = Some root -> tree_ok root ->
  tcache_find_next_column_store tc_head blkno
  = Done (first_next (inorder root) blkno ≫= tcs).
Proof.
  intros Hroot Hok. unfold tcache_find_next_column_store. rewrite Hroot.
  rewrite find_next_ordered by assumption.
  destruct (first_next (inorder root) blkno) as [n|] eqn:E; simpl; [|auto].
  apply find_some in E as [Hin _].
  pose proof (inorder_chunk_ok root Hok) as Hall.
  rewrite List.Forall_forall in Hall.
  destruct (found_of_chunk_ok n (Hall n Hin)) as [_ H2]. exact H2.
Qed.

Lemma find_prev_column_store_ordered (tc_head : tcache_head)
    (root : tcache_node) (blkno : Z) :
  tcs_root tc_head = Some root -> tree_ok root ->
  tcache_find_prev_column_store tc_head blkno
  = Done (last_prev (inorder root) blkno ≫= tcs).
Proof.
  intros Hroot Hok. unfold tcache_find_prev_column_store. rewrite Hroot.
  rewrite find_prev_ordered by assumption.
  destruct (last_prev (inorder root) blkno) as [n|] eqn:E; simpl; [|auto].
  apply find_some in E as [Hin _]. apply in_rev in Hin.
  pose proof (inorder_chunk_ok root Hok) as Hall.
  rewrite List.Forall_forall in Hall.
  destruct (found_of_chunk_ok n (Hall n Hin)) as [_ H2]. exact H2.
Qed.

Section Scans.

Variable tc_head : tcache_head.
Variable root : tcache_node.
Hypothesis Hroot : tcs_root tc_head = Some root.
Hypothesis Hok : tree_ok root.
Hypothesis Hvalid : blocks_valid root.

Lemma node_blocks_valid (l1 l2 : list tcache_node) (n : tcache_node) :
  inorder root = l1 ++ n :: l2 ->
  chunk_ok n /\ 0 <= node_min n /\ node_max n <= MaxBlockNumber.
Proof.
  intros E. pose proof (inorder_chunk_ok root Hok) as Hc.
  unfold blocks_valid in Hvalid. rewrite E in Hc, Hvalid.
  apply Forall_app in Hc as [_ Hc]. apply Forall_cons in Hc as [Hc _].
  apply Forall_app in Hvalid as [_ Hv]. apply Forall_cons in Hv as [Hv _].
  tauto.
Qed.

Lemma scan_forward_from (hs : option unit) :
  forall l2 l1 n cs, inorder root = l1 ++ n :: l2 -> tcs n = Some cs ->
  scan_forward (S (length l2)) tc_head {| heapscan := hs; tcs_curr := Some cs |}
  = Done (omap tcs l2).
Proof.
  induction l2 as [|m l2 IH]; intros l1 n cs E Hcs.
  - destruct (node_blocks_valid _ _ _ E) as [Hc [Hlo Hhi]].
    pose proof (chunk_ok_range n Hc) as Hr.
    unfold node_min, node_max in *. rewrite Hcs in *.
    cbn [scan_forward]. unfold tcache_scan_next_tcs. cbn [tcs_curr heapscan].
    rewrite Z.mod_small by (unfold MaxBlockNumber in Hhi; lia).
    rewrite (find_next_column_store_ordered tc_head root) by assumption.
    replace (blkno_max cs) with (node_max n)
      by (unfold node_max; now rewrite Hcs).
    rewrite E, first_next_after;
      [|rewrite <- E; now apply inorder_ranges_ascend
       |rewrite <- E; now apply inorder_chunk_ok].
    reflexivity.
  - destruct (node_blocks_valid _ _ _ E) as [Hc [Hlo Hhi]].
    pose proof (chunk_ok_range n Hc) as Hr.
    assert (E' : inorder root = (l1 ++ [n]) ++ m :: l2)
      by (rewrite <- app_assoc; exact E).
    destruct (node_blocks_valid _ _ _ E') as [[cm [Hcm _]] _].
    unfold node_min, node_max in Hlo, Hhi, Hr. rewrite Hcs in *.
    change (scan_forward (S (length (m :: l2))) tc_head
              {| heapscan := hs; tcs_curr := Some cs |})
      with (do tc_scan <- tcache_scan_next_tcs tc_head
                            {| heapscan := hs; tcs_curr := Some cs |};
            match tcs_curr tc_scan with
            | None => Done []
            | Some cs' =>
                do rest <- scan_forward (S (length l2)) tc_head tc_scan;
                Done (cs' :: rest)
            end).
    unfold tcache_scan_next_tcs. cbn [tcs_curr heapscan].
    rewrite Z.mod_small by (unfold MaxBlockNumber in Hhi; lia).
    rewrite (find_next_column_store_ordered tc_head root) by assumption.
    replace (blkno_max cs) with (node_max n)
      by (unfold node_max; now rewrite Hcs).
    rewrite E, first_next_after;
      [|rewrite <- E; now apply inorder_ranges_ascend
       |rewrite <- E; now apply inorder_chunk_ok].
    cbn [head mbind option_bind obind tcs_curr]. rewrite Hcm. cbn [obind tcs_curr].
    rewrite (IH (l1 ++ [n]) m cm E' Hcm). cbn [obind omap].
    simpl. rewrite Hcm. reflexivity.
Qed.

Lemma scan_backward_from (hs : option unit) :
  forall l1 l2 n cs, inorder root = rev l1 ++ n :: l2 -> tcs n = Some cs ->
  scan_backward (S (length l1)) tc_head {| heapscan := hs; tcs_curr := Some cs |}
  = Done (omap tcs l1).
Proof.
  induction l1 as [|m l1 IH]; intros l2 n cs E Hcs.
  - destruct (node_blocks_valid _ _ _ E) as [Hc [Hlo Hhi]].
    unfold node_min, node_max in *. rewrite Hcs in *.
    cbn [scan_backward]. unfold tcache_scan_prev_tcs. cbn [tcs_curr heapscan].
    destruct (Z.eqb_spec (blkno_min cs) 0) as [|Hne]; [reflexivity|].
    rewrite Z.mod_small by (unfold MaxBlockNumber in Hhi;
      pose proof (chunk_ok_range n Hc) as Hr;
      unfold node_min, node_max in Hr; rewrite Hcs in Hr; lia).
    rewrite (find_prev_column_store_ordered tc_head root) by assumption.
    replace (blkno_min cs) with (node_min n)
      by (unfold node_min; now rewrite Hcs).
    rewrite E, last_prev_before;
      [|rewrite <- E; now apply inorder_ranges_ascend
       |rewrite <- E; now apply inorder_chunk_ok].
    reflexivity.
  - destruct (node_blocks_valid _ _ _ E) as [Hc [Hlo Hhi]].
    pose proof (chunk_ok_range n Hc) as Hr.
    assert (E' : inorder root = rev l1 ++ m :: n :: l2).
    { rewrite E. simpl. now rewrite <- app_assoc. }
    destruct (node_blocks_valid _ _ _ E') as [Hokm [Hlom _]].
    pose proof (chunk_ok_range m Hokm) as Hrm.
    destruct Hokm as [cm [Hcm _]].
    assert (Hlt : node_max m < node_min n).
    { pose proof (inorder_ranges_ascend root Hok) as Ha. rewrite E' in Ha.
      apply ranges_ascend_app in Ha as [_ [[Ha _] _]].
      now apply Forall_cons in Ha as [Ha _]. }
    change (scan_backward (S (length (m :: l1))) tc_head
              {| heapscan := hs; tcs_curr := Some cs |})
      with (do tc_scan <- tcache_scan_prev_tcs tc_head
                            {| heapscan := hs; tcs_curr := Some cs |};
            match tcs_curr tc_scan with
            | None => Done []
            | Some cs' =>
                do rest <- scan_backward (S (length l1)) tc_head tc_scan;
                Done (cs' :: rest)
            end).
    unfold tcache_scan_prev_tcs. cbn [tcs_curr heapscan].
    replace (blkno_min cs) with (node_min n)
      by (unfold node_min; now rewrite Hcs).
    destruct (Z.eqb_spec (node_min n) 0) as [|Hne]; [lia|].
    rewrite Z.mod_small
      by (unfold MaxBlockNumber in Hhi; lia).
    rewrite (find_prev_column_store_ordered tc_head root) by assumption.
    rewrite E, last_prev_before;
      [|rewrite <- E; now apply inorder_ranges_ascend
       |rewrite <- E; now apply inorder_chunk_ok].
    rewrite rev_involutive.
    cbn [head mbind option_bind obind tcs_curr]. rewrite Hcm. cbn [obind tcs_curr].
    rewrite (IH (n :: l2) m cm E' Hcm). cbn [obind omap].
    simpl. rewrite Hcm. reflexivity.
Qed.

End Scans.

Lemma building_root_ordered : tree_ok building_root /\ blocks_valid building_root.
Proof.
  split.
  - simpl. unfold chunk_ok. simpl. repeat split; eauto.
    + exists merge_dst_chunk. simpl. repeat split; lia.
    + exists low_chunk. simpl. repeat split; lia.
    + repeat constructor.
    + exists high_chunk. simpl. repeat split; lia.
    + repeat constructor.
  - unfold blocks_valid. simpl. repeat constructor; vm_compute; discriminate.
Qed.

(** X3.  A forward scan over a ready cache whose tree satisfies the
    T-tree invariant visits every chunk of the tree exactly once, in
    ascending block order: the calls of [tcache_scan_next] hand out the
    chunks of the in-order traversal one after the other, and the call
    after the last chunk finds none. *)
Theorem forward_scan_visits_chunks_in_order (tc_head : tcache_head)
    (root : tcache_node) :
  tcs_root tc_head = Some root -> tree_ok root -> blocks_valid root ->
  scan_forward (S (length (inorder root))) tc_head
    {| heapscan := None; tcs_curr := None |}
  = Done (chunks_of root).
Proof.
  intros Hroot Hok Hvalid. unfold chunks_of.
  destruct (inorder root) as [|n l2] eqn:E.
  { destruct root as [c tc [l|] r ld rd]; simpl in E;
      [destruct (inorder l)|]; discriminate. }
  destruct (node_blocks_valid root Hok Hvalid [] l2 n E)
    as [Hc [Hlo Hhi]].
  pose proof (chunk_ok_range n Hc) as Hr. destruct Hc as [cs [Hcs _]].
  change (scan_forward (S (length (n :: l2))) tc_head
            {| heapscan := None; tcs_curr := None |})
    with (do tc_scan <- tcache_scan_next_tcs tc_head
                          {| heapscan := None; tcs_curr := None |};
          match tcs_curr tc_scan with
          | None => Done []
          | Some cs' =>
              do rest <- scan_forward (S (length l2)) tc_head tc_scan;
              Done (cs' :: rest)
          end).
  unfold tcache_scan_next_tcs. cbn [tcs_curr heapscan].
  rewrite (find_next_column_store_ordered tc_head root) by assumption.
  rewrite E. unfold first_next. cbn [List.find].
  destruct (Z.leb_spec 0 (node_max n)); [|lia].
  cbn [mbind option_bind obind tcs_curr]. rewrite Hcs. cbn [obind tcs_curr].
  rewrite (scan_forward_from tc_head root Hroot Hok Hvalid None l2 [] n cs E Hcs).
  simpl. rewrite Hcs. reflexivity.
Qed.

Lemma forward_scan_visits_chunks_in_order_witness :
  tcs_root (ready_head building_root) = Some building_root /\
  tree_ok building_root /\ blocks_valid building_root /\
  scan_forward (S (length (inorder building_root))) (ready_head building_root)
    {| heapscan := None; tcs_curr := None |}
  = Done (chunks_of building_root).
Proof.
  split; [reflexivity|]. split; [exact (proj1 building_root_ordered)|].
  split; [exact (proj2 building_root_ordered)|].
  exact (forward_scan_visits_chunks_in_order (ready_head building_root)
           building_root eq_refl (proj1 building_root_ordered)
           (proj2 building_root_ordered)).
Defined.

(** X4.  A backward scan that holds the chunk of a node of a tree
    satisfying the T-tree invariant visits the chunks before it, from
    the nearest to the first, and then finds none: [tcache_scan_prev]
    hands out the in-order predecessors in descending block order.
    Called for a scan that holds no chunk and finds no row store, it
    dereferences the NULL chunk pointer. *)
Theorem backward_scan_visits_predecessors (tc_head : tcache_head)
    (root n : tcache_node) (cs : tcache_column_store)
    (l1 l2 : list tcache_node) (hs : option unit) :
  tcs_root tc_head = Some root -> tree_ok root -> blocks_valid root ->
  inorder root = l1 ++ n :: l2 -> tcs n = Some cs ->
  scan_backward (S (length l1)) tc_head {| heapscan := hs; tcs_curr := Some cs |}
  = Done (omap tcs (rev l1)) /\
  tcache_scan_prev_tcs tc_head {| heapscan := hs; tcs_curr := None |} = Fault.
Proof.
  intros Hroot Hok Hvalid E Hcs. split; [|reflexivity].
  rewrite <- (length_rev l1).
  apply (scan_backward_from tc_head root Hroot Hok Hvalid hs (rev l1) l2 n cs);
    [|exact Hcs].
  now rewrite rev_involutive.
Qed.

Lemma backward_scan_visits_predecessors_witness :
  tcs_root (ready_head building_root) = Some building_root /\
  tree_ok building_root /\ blocks_valid building_root /\
  inorder building_root
  = [node_of 2 low_chunk; building_root] ++ node_of 3 high_chunk :: [] /\
  tcs (node_of 3 high_chunk) = Some high_chunk /\
  scan_backward 3 (ready_head building_root)
    {| heapscan := None; tcs_curr := Some high_chunk |}
  = Done [merge_dst_chunk; low_chunk] /\
  tcache_scan_prev_tcs (ready_head building_root)
    {| heapscan := None; tcs_curr := None |} = Fault.
Proof.
  split; [reflexivity|]. split; [exact (proj1 building_root_ordered)|].
  split; [exact (proj2 building_root_ordered)|].
  split; [reflexivity|]. split; [reflexivity|].
  exact (backward_scan_visits_predecessors (ready_head building_root)
           building_root (node_of 3 high_chunk) high_chunk
           [node_of 2 low_chunk; building_root] [] None eq_refl
           (proj1 building_root_ordered) (proj2 building_root_ordered)
           eq_refl eq_refl).
Defined.

(** ** Rotations *)

Lemma right_heavy_tree_ordered : tree_ok right_heavy_tree.
Proof.
  simpl. unfold chunk_ok. simpl. repeat split; eauto.
  - exists low_chunk. simpl. repeat split; lia.
  - exists merge_dst_chunk. simpl. repeat split; lia.
  - exists high_chunk. simpl. repeat split; lia.
  - repeat constructor.
  - repeat constructor.
Qed.

(** X5.  [tcache_rebalance_tree] leaves a node alone whose two depths
    differ by at most one; otherwise it rotates the deeper child,
    which has to exist, up.  A rotation
    changes neither the nodes nor their order from the lowest to the
    highest block range, and a tree that satisfies the T-tree invariant
    still satisfies it afterwards. *)
Theorem rebalance_keeps_order (tc_node : tcache_node) :
  (l_depth tc_node + 1 < r_depth tc_node -> right tc_node <> None) ->
  (r_depth tc_node + 1 < l_depth tc_node -> left tc_node <> None) ->
  exists upper,
    tcache_rebalance_tree tc_node = Done upper /\
    map chain (inorder upper) = map chain (inorder tc_node) /\
    map tcs (inorder upper) = map tcs (inorder tc_node) /\
    (tree_ok tc_node -> tree_ok upper) /\
    (l_depth tc_node + 1 < r_depth tc_node ->
     exists r, right tc_node = Some r /\ chain upper = chain r /\
       right upper = right r /\
       (left upper ≫= right) = left r /\
       (left upper ≫= left) = left tc_node) /\
    (r_depth tc_node + 1 < l_depth tc_node ->
     l_depth tc_node + 1 >= r_depth tc_node ->
     exists l, left tc_node = Some l /\ chain upper = chain l /\
       left upper = left l /\
       (right upper ≫= left) = right l /\
       (right upper ≫= right) = right tc_node) /\
    (l_depth tc_node <= r_depth tc_node + 1 ->
     r_depth tc_node <= l_depth tc_node + 1 -> upper = tc_node).
Proof.
  intros Hr Hl. unfold tcache_rebalance_tree.
  destruct (Z.ltb_spec (l_depth tc_node + 1) (r_depth tc_node)) as [H1|H1].
  - (* anticlockwise *)
    destruct tc_node as [c tc l [[rc rtc rl rr rld rrd]|] ld rd];
      simpl in *; [|now destruct (Hr H1)].
    eexists. split; [reflexivity|]. simpl.
    split; [now rewrite !map_app; simpl; rewrite !map_app, <- !app_assoc|].
    split; [now rewrite !map_app; simpl; rewrite !map_app, <- !app_assoc|].
    split; [|split; [|split; intros; lia]].
    + cbn [tree_ok left right inorder set_right set_r_depth].
      intros [Hc [HL [[Hrc [HRL HRR]] Hall]]].
      apply Forall_app in Hall as [Hall1 Hall2].
      apply Forall_cons in Hall2 as [Htr Hall2].
      unfold node_max, node_min in Htr. simpl in Htr.
      pose proof (chunk_ok_range _ Hc) as Hrange.
      unfold node_max, node_min in Hrange. simpl in Hrange.
      split; [exact Hrc|]. split; [|exact HRR].
      split.
      * split; [exact Hc|]. split; [exact HL|].
        destruct rl as [rl'|]; [|exact I]. split; [tauto|exact Hall1].
      * apply Forall_app. split; [|constructor].
        -- destruct l as [l'|]; [|constructor]. destruct HL as [_ HL].
           eapply Forall_impl; [exact HL|]. intros a Ha.
           unfold node_max, node_min in *. simpl in *. lia.
        -- exact Htr.
        -- destruct rl as [rl'|]; [|constructor]. tauto.
    + intros _. eexists. split; [reflexivity|]. simpl. auto.
  - destruct (Z.gtb_spec (l_depth tc_node) (r_depth tc_node + 1)) as [H2|H2].
    + (* clockwise *)
      destruct tc_node as [c tc [[lc ltc ll lr lld lrd]|] r ld rd];
        simpl in *; [|now destruct (Hl ltac:(lia))].
      eexists. split; [reflexivity|]. simpl.
      split; [now rewrite !map_app; simpl; rewrite !map_app, <- !app_assoc|].
    split; [now rewrite !map_app; simpl; rewrite !map_app, <- !app_assoc|].
      split; [|split; [intros; lia|split; [|intros; lia]]].
      * cbn [tree_ok left right inorder set_left set_l_depth].
        intros [Hc [[[Hlc [HLL HLR]] Hall] HR]].
        apply Forall_app in Hall as [Hall1 Hall2].
        apply Forall_cons in Hall2 as [Htl Hall2].
        unfold node_max, node_min in Htl. simpl in Htl.
        pose proof (chunk_ok_range _ Hc) as Hrange.
        unfold node_max, node_min in Hrange. simpl in Hrange.
        split; [exact Hlc|]. split; [exact HLL|].
        split.
        -- split; [exact Hc|]. split; [|exact HR].
           destruct lr as [lr'|]; [|exact I]. split; [tauto|exact Hall2].
        -- apply Forall_app. split; [|constructor].
           ++ destruct lr as [lr'|]; [|constructor]. tauto.
           ++ exact Htl.
           ++ destruct r as [r'|]; [|constructor]. destruct HR as [_ HR].
              eapply Forall_impl; [exact HR|]. intros a Ha.
              unfold node_max, node_min in *. simpl in *. lia.
      * intros _ _. eexists. split; [reflexivity|]. simpl. auto.
    + exists tc_node. split; [reflexivity|]. split; [reflexivity|].
      split; [reflexivity|]. split; [auto|].
      split; [intros; lia|]. split; [intros; lia|]. reflexivity.
Qed.

Lemma rebalance_keeps_order_witness :
  (l_depth right_heavy_tree + 1 < r_depth right_heavy_tree ->
   right right_heavy_tree <> None) /\
  (r_depth right_heavy_tree + 1 < l_depth right_heavy_tree ->
   left right_heavy_tree <> None) /\
  tree_ok right_heavy_tree /\
  exists upper,
    tcache_rebalance_tree right_heavy_tree = Done upper /\
    map chain (inorder upper) = [1; 2; 3]%nat /\
    chain upper = 2%nat /\ tree_ok upper.
Proof.
  assert (H1 : l_depth right_heavy_tree + 1 < r_depth right_heavy_tree ->
               right right_heavy_tree <> None) by (intros _; discriminate).
  assert (H2 : r_depth right_heavy_tree + 1 < l_depth right_heavy_tree ->
               left right_heavy_tree <> None) by (simpl; lia).
  split; [exact H1|]. split; [exact H2|].
  split; [exact right_heavy_tree_ordered|].
  destruct (rebalance_keeps_order right_heavy_tree H1 H2)
    as [upper [E [Hc [_ [Hok [Hup _]]]]]].
  exists upper. split; [exact E|]. split; [exact Hc|].
  split; [|exact (Hok right_heavy_tree_ordered)].
  destruct (Hup ltac:(simpl; lia)) as [r [Hr [Hch _]]].
  inversion Hr. subst r. exact Hch.
Defined.

(** ** Insertion into a chunk *)

Lemma write_at {A} (l : list A) (n : nat) (x : A) :
  (n <= length l)%nat ->
  exists l', write l (Z.of_nat n) x = Done l' /\
    take (S n) l' = take n l ++ [x] /\ (S n <= length l')%nat /\
    (forall i, (i < n)%nat -> l' !! i = l !! i) /\ l' !! n = Some x.
Proof.
  intros Hn. unfold write. destruct (Z.ltb_spec (Z.of_nat n) 0); [lia|].
  rewrite Nat2Z.id.
  destruct (Nat.ltb_spec n (length l)) as [Hlt|Hge].
  - exists (<[n := x]> l). split; [reflexivity|].
    destruct (lookup_lt_is_Some_2 l n Hlt) as [y Hy].
    split; [|split; [|split]].
    + rewrite take_insert_lt by lia. rewrite (take_S_r l n y Hy).
      rewrite insert_app_r_alt by (rewrite length_take; lia).
      rewrite length_take. replace (n - n `min` length l)%nat with 0%nat by lia.
      reflexivity.
    + rewrite length_insert. lia.
    + intros i Hi. apply list_lookup_insert_ne. lia.
    + apply list_lookup_insert_eq. lia.
  - assert (n = length l) by lia. subst n. rewrite Nat.eqb_refl.
    exists (l ++ [x]). split; [reflexivity|]. split; [|split; [|split]].
    + rewrite firstn_all. rewrite take_ge by (rewrite length_app; simpl; lia).
      reflexivity.
    + rewrite length_app. simpl. lia.
    + intros i Hi. now apply lookup_app_l.
    + rewrite lookup_app_r by lia. now rewrite Nat.sub_diag.
Qed.

Lemma rows_elem tcs c h :
  (c, h) ∈ rows tcs ->
  exists i, (i < Z.to_nat (nrows tcs))%nat /\ ctids tcs !! i = Some c.
Proof.
  intros H. apply list_elem_of_lookup in H as [i Hi].
  apply rows_lookup in Hi as [H1 [H2 _]]. eauto.
Qed.

Lemma cmp_refl a : ItemPointerCompare a a = 0.
Proof. cmp_arith. Qed.

Lemma cmp_block_le a b :
  ItemPointerCompare a b <= 0 ->
  ItemPointerGetBlockNumber a <= ItemPointerGetBlockNumber b.
Proof. unfold ItemPointerGetBlockNumber. cmp_arith. Qed.

Lemma block_bounds_snoc l r lo hi :
  block_bounds l lo hi ->
  block_bounds (l ++ [r])
    (if row_block r <? lo then row_block r else lo)
    (if row_block r >? hi then row_block r else hi).
Proof.
  intros [Hall [[rl [Hl1 Hl2]] [rh [Hh1 Hh2]]]].
  split; [|split].
  - intros x Hx. apply elem_of_app in Hx as [Hx|Hx].
    + specialize (Hall x Hx).
      destruct (Z.ltb_spec (row_block r) lo), (Z.gtb_spec (row_block r) hi); lia.
    + apply list_elem_of_singleton in Hx. subst x.
      destruct (Z.ltb_spec (row_block r) lo), (Z.gtb_spec (row_block r) hi); lia.
  - destruct (Z.ltb_spec (row_block r) lo).
    + exists r. split; [|reflexivity]. apply elem_of_app. right.
      now apply list_elem_of_singleton.
    + exists rl. split; [|assumption]. apply elem_of_app. now left.
  - destruct (Z.gtb_spec (row_block r) hi).
    + exists r. split; [|reflexivity]. apply elem_of_app. right.
      now apply list_elem_of_singleton.
    + exists rh. split; [|assumption]. apply elem_of_app. now left.
Qed.

Lemma insert_keeps_chunk_invariant_full (E : tcache_env) (N : Z)
    (tcs : tcache_column_store)
    (t_self : ItemPointerData) (t_data : HeapTupleHeaderData) :
  chunk_inv tcs -> insert_completes E N tcs ->
  exists tcs',
    do_insert_tuple E N tcs t_self t_data = Done tcs' /\
    rows tcs' = rows tcs ++ [(t_self, t_data)] /\
    nrows tcs' = nrows tcs + 1 /\
    njunks tcs' = njunks tcs /\
    chunk_inv tcs' /\
    (is_sorted tcs' = true <->
     nrows tcs = 0 \/
     is_sorted tcs = true /\
     exists last, zth (ctids tcs) (nrows tcs - 1) = Some last /\
       ItemPointerCompare t_self last > 0).
Proof.
  intros [Hwf [Hs Hb]] [Hroom Hput]. pose proof Hwf as [H0 [H1 H2]].
  set (n := Z.to_nat (nrows tcs)).
  assert (Hn : nrows tcs = Z.of_nat n) by (unfold n; lia).
  destruct (write_at (ctids tcs) n t_self ltac:(lia))
    as [C' [WC [TC [LC [OC NC]]]]].
  destruct (write_at (theads tcs) n t_data ltac:(lia))
    as [T' [WT [TT [LT [OT NT]]]]].
  rewrite <- Hn in WC, WT.
  unfold do_insert_tuple, write_within.
  destruct (Z.geb_spec (nrows tcs) N) as [Hfull|_]; [lia|].
  rewrite WC. cbn [obind]. rewrite WT. cbn [obind].
  rewrite (proj2 (for_columns_Done E (fun i => put_column E i (nrows tcs))) Hput).
  cbn [obind].
  set (tcs1 := set_theads T' (set_ctids C' tcs)).
  assert (Hrows : forall tcs2, ctids tcs2 = C' -> theads tcs2 = T' ->
            nrows tcs2 = nrows tcs + 1 ->
            rows tcs2 = rows tcs ++ [(t_self, t_data)]).
  { intros tcs2 E1 E2 E3. unfold rows, live. rewrite E1, E2, E3.
    replace (Z.to_nat (nrows tcs + 1)) with (S n) by lia.
    rewrite TC, TT. fold n.
    rewrite zip_with_app by (rewrite !length_take; lia). reflexivity. }
  assert (Hwf' : forall tcs2, ctids tcs2 = C' -> theads tcs2 = T' ->
            nrows tcs2 = nrows tcs + 1 -> tcs_wf tcs2).
  { intros tcs2 E1 E2 E3. unfold tcs_wf. rewrite E1, E2, E3. lia. }
  assert (Hold : forall i a, 0 <= i < Z.of_nat n -> zth C' i = Some a ->
            zth (ctids tcs) i = Some a).
  { intros i a Hi. unfold zth. destruct (i <? 0); [discriminate|].
    rewrite OC by lia. auto. }
  assert (Hnew : zth C' (Z.of_nat n) = Some t_self)
    by (rewrite zth_of_nat; exact NC).
  change (nrows tcs1) with (nrows tcs). change (is_sorted tcs1) with (is_sorted tcs).
  destruct (Z.eqb_spec (nrows tcs) 0) as [Hz|Hnz].
  - (* the first row *)
    cbn [obind]. eexists. split; [reflexivity|].
    assert (n = 0%nat) by lia.
    split; [apply Hrows; simpl; auto; lia|].
    split; [simpl; lia|]. split; [reflexivity|].
    split; [|simpl; intuition].
    split; [apply Hwf'; simpl; auto; lia|]. split.
    + intros _ i j a b Hi Hij Hj Ha Hb'. simpl in *.
      assert (i = 0) by lia. assert (j = 0) by lia. subst i j.
      rewrite Ha in Hb'. inversion Hb'. subst. rewrite cmp_refl. lia.
    + intros _. rewrite Hrows by (simpl; auto; lia).
      assert (rows tcs = []) as ->.
      { unfold rows, live. fold n. subst n. now rewrite H. }
      simpl. split; [|split].
      * intros r Hr. apply list_elem_of_singleton in Hr. subst r.
        unfold row_block. simpl. lia.
      * eexists. split; [apply list_elem_of_singleton; reflexivity|reflexivity].
      * eexists. split; [apply list_elem_of_singleton; reflexivity|reflexivity].
  - specialize (Hb Hnz).
    assert (Hpos : (0 < n)%nat) by lia.
    destruct (lookup_lt_is_Some_2 (ctids tcs) (n - 1)) as [last Hlast]; [lia|].
    assert (Zlast : zth (ctids tcs) (nrows tcs - 1) = Some last).
    { rewrite Hn. replace (Z.of_nat n - 1) with (Z.of_nat (n - 1)) by lia.
      now rewrite zth_of_nat. }
    assert (Zlast' : zth C' (nrows tcs - 1) = Some last).
    { replace (nrows tcs - 1) with (Z.of_nat (n - 1)) by lia.
      rewrite zth_of_nat, OC by lia. exact Hlast. }
    destruct (lookup_rows tcs (n - 1) last Hwf ltac:(fold n; lia) Hlast)
      as [hlast Rlast].
    assert (Inlast : (last, hlast) ∈ rows tcs)
      by (apply list_elem_of_lookup; eauto).
    pose proof (block_bounds_snoc _ (t_self, t_data) _ _ Hb) as Hsnoc.
    change (row_block (t_self, t_data))
      with (ItemPointerGetBlockNumber t_self) in Hsnoc.
    destruct (is_sorted tcs) eqn:Esorted.
    + (* marked sorted *)
      specialize (Hs eq_refl).
      change (ctids tcs1) with C'.
      rewrite (read_Done _ _ last Zlast'). cbn [obind].
      assert (Hle : forall i a, 0 <= i < Z.of_nat n -> zth (ctids tcs) i = Some a ->
                ItemPointerCompare a last <= 0).
      { intros i a Hi Ha.
        apply (Hs i (nrows tcs - 1) a last); auto; lia. }
      destruct (Z.gtb_spec (ItemPointerCompare t_self last) 0) as [Hgt|Hle0].
      * cbn [obind]. eexists. split; [reflexivity|].
        split; [apply Hrows; simpl; auto; lia|].
        split; [simpl; lia|]. split; [reflexivity|].
        split.
        2:{ simpl. rewrite Esorted. split; [intros _|reflexivity].
            right. split; [reflexivity|]. exists last. split; [exact Zlast|lia]. }
        split; [apply Hwf'; simpl; auto; lia|]. split.
        -- intros _ i j a b Hi Hij Hj Ha Hb'. simpl in *.
           destruct (Z.eq_dec j (Z.of_nat n)) as [->|Hjn].
           ++ rewrite Hnew in Hb'. inversion Hb'. subst b.
              destruct (Z.eq_dec i (Z.of_nat n)) as [->|Hin].
              ** rewrite Hnew in Ha. inversion Ha. rewrite cmp_refl. lia.
              ** apply Hold in Ha; [|lia].
                 pose proof (Hle i a ltac:(lia) Ha).
                 revert H Hgt. clear. intros. cmp_arith.
           ++ apply Hold in Ha; [|lia]. apply Hold in Hb'; [|lia].
              apply (Hs i j a b); auto; lia.
        -- intros _. rewrite Hrows by (simpl; auto; lia).
           simpl.
           assert (Hblk : ItemPointerGetBlockNumber last
                          <= ItemPointerGetBlockNumber t_self)
             by (revert Hgt; clear; unfold ItemPointerGetBlockNumber;
                 intros; cmp_arith).
           assert (Hall : forall r, r ∈ rows tcs ->
                     row_block r <= ItemPointerGetBlockNumber last).
           { intros [c h] Hr. apply rows_elem in Hr as [i [Hi Hc]].
             unfold row_block. simpl. apply cmp_block_le.
             apply (Hle (Z.of_nat i)); [fold n in Hi; lia|].
             now rewrite zth_of_nat. }
           destruct Hb as [Hb1 [[rl [Hl1 Hl2]] [rh [Hh1 Hh2]]]].
           pose proof (Hall rl Hl1). pose proof (Hall rh Hh1).
           revert Hsnoc.
           destruct (Z.ltb_spec (ItemPointerGetBlockNumber t_self) (blkno_min tcs));
             [lia|].
           destruct (Z.gtb_spec (ItemPointerGetBlockNumber t_self) (blkno_max tcs))
             as [|Hmax]; [auto|].
           replace (blkno_max tcs) with (ItemPointerGetBlockNumber t_self) by lia.
           auto.
      * cbn [obind]. eexists. split; [reflexivity|].
        assert (Hblk : ItemPointerGetBlockNumber t_self
                       <= ItemPointerGetBlockNumber last)
          by (revert Hle0; clear; unfold ItemPointerGetBlockNumber;
              intros; cmp_arith).
        assert (Hmax : ItemPointerGetBlockNumber t_self <= blkno_max tcs).
        { destruct Hb as [Hb1 _]. pose proof (Hb1 _ Inlast) as Hr.
          unfold row_block in Hr. simpl in Hr. lia. }
        revert Hsnoc.
        destruct (Z.gtb_spec (ItemPointerGetBlockNumber t_self) (blkno_max tcs));
          [lia|]. intros Hsnoc.
        cbn [blkno_min set_is_sorted].
        change (blkno_min tcs1) with (blkno_min tcs).
        assert (Hflag : forall tcs2, is_sorted tcs2 = false ->
                  (is_sorted tcs2 = true <->
                   nrows tcs = 0 \/
                   true = true /\
                   exists last, zth (ctids tcs) (nrows tcs - 1) = Some last /\
                     ItemPointerCompare t_self last > 0)).
        { intros tcs2 ->. split; [discriminate|].
          intros [|[_ [l' [El ?]]]]; [lia|].
          rewrite Zlast in El. inversion El. subst. lia. }
        destruct (Z.ltb_spec (ItemPointerGetBlockNumber t_self) (blkno_min tcs)).
        -- split; [apply Hrows; simpl; auto; lia|].
           split; [simpl; lia|]. split; [reflexivity|].
           split; [|apply Hflag; reflexivity].
           split; [apply Hwf'; simpl; auto; lia|].
           split; [discriminate|]. intros _.
           rewrite Hrows by (simpl; auto; lia). exact Hsnoc.
        -- split; [apply Hrows; simpl; auto; lia|].
           split; [simpl; lia|]. split; [reflexivity|].
           split; [|apply Hflag; reflexivity].
           split; [apply Hwf'; simpl; auto; lia|].
           split; [discriminate|]. intros _.
           rewrite Hrows by (simpl; auto; lia). exact Hsnoc.
    + (* not marked sorted *)
      cbn [obind]. eexists. split; [reflexivity|].
      change (blkno_max tcs1) with (blkno_max tcs).
      assert (Hfin : forall tcs2, ctids tcs2 = C' -> theads tcs2 = T' ->
                nrows tcs2 = nrows tcs -> njunks tcs2 = njunks tcs ->
                is_sorted tcs2 = false ->
                blkno_min tcs2 = (if ItemPointerGetBlockNumber t_self <? blkno_min tcs
                                  then ItemPointerGetBlockNumber t_self
                                  else blkno_min tcs) ->
                blkno_max tcs2 = (if ItemPointerGetBlockNumber t_self >? blkno_max tcs
                                  then ItemPointerGetBlockNumber t_self
                                  else blkno_max tcs) ->
                rows (set_nrows (nrows tcs2 + 1) tcs2)
                  = rows tcs ++ [(t_self, t_data)] /\
                nrows (set_nrows (nrows tcs2 + 1) tcs2) = nrows tcs + 1 /\
                njunks (set_nrows (nrows tcs2 + 1) tcs2) = njunks tcs /\
                chunk_inv (set_nrows (nrows tcs2 + 1) tcs2) /\
                (is_sorted (set_nrows (nrows tcs2 + 1) tcs2) = true <->
                 nrows tcs = 0 \/
                 false = true /\
                 exists last, zth (ctids tcs) (nrows tcs - 1) = Some last /\
                   ItemPointerCompare t_self last > 0)).
      { intros tcs2 E1 E2 E3 E4 E5 E6 E7.
        assert (R : rows (set_nrows (nrows tcs2 + 1) tcs2)
                    = rows tcs ++ [(t_self, t_data)])
          by (apply Hrows; simpl; auto; lia).
        split; [exact R|]. split; [simpl; lia|]. split; [exact E4|].
        split.
        2:{ simpl. rewrite E5. split; [discriminate|].
            intros [|[? _]]; [lia|discriminate]. }
        split; [apply Hwf'; simpl; auto; lia|].
        split; [simpl; rewrite E5; discriminate|]. intros _.
        rewrite R. simpl. rewrite E6, E7. exact Hsnoc. }
      destruct (Z.gtb_spec (ItemPointerGetBlockNumber t_self) (blkno_max tcs));
        cbn [blkno_min set_blkno_max];
        change (blkno_min tcs1) with (blkno_min tcs);
        destruct (Z.ltb_spec (ItemPointerGetBlockNumber t_self) (blkno_min tcs));
        apply Hfin; simpl; auto;
        repeat match goal with
        | |- context [?a <? ?b] => destruct (Z.ltb_spec a b); try lia
        | |- context [?a >? ?b] => destruct (Z.gtb_spec a b); try lia
        end; auto.
Qed.


Lemma insert_Done (E : tcache_env) (N : Z) (tcs : tcache_column_store)
    (t_self : ItemPointerData) (t_data : HeapTupleHeaderData) tcs' :
  do_insert_tuple E N tcs t_self t_data = Done tcs' ->
  insert_completes E N tcs.
Proof.
  unfold do_insert_tuple, write_within, insert_completes.
  destruct (Z.geb_spec (nrows tcs) N) as [Hfull|Hroom]; [discriminate|].
  destruct (write (ctids tcs) (nrows tcs) t_self); [|discriminate].
  cbn [obind].
  destruct (write (theads tcs) (nrows tcs) t_data); [|discriminate].
  cbn [obind].
  destruct (for_columns_cases E (fun i => put_column E i (nrows tcs)))
    as [Hd|Hf]; rewrite ?Hf; [|discriminate].
  intros _. split; [exact Hroom|]. apply for_columns_Done, Hd.
Qed.


Lemma two_row_chunk_inv : chunk_inv two_row_chunk.
Proof.
  split; [exact two_row_chunk_wf|]. split; [intros _; exact two_row_chunk_sorted|].
  intros _. split; [|split].
  - intros r Hr. apply list_elem_of_In in Hr. simpl in Hr.
    destruct Hr as [<-|[<-|[]]]; vm_compute; split; discriminate.
  - eexists. split; [apply list_elem_of_here|reflexivity].
  - eexists. split; [apply list_elem_of_further, list_elem_of_here|reflexivity].
Qed.


Lemma insert_all_spec (E : tcache_env) (N : Z) :
  forall l tcs0, chunk_inv tcs0 ->
    nrows tcs0 + Z.of_nat (length l) <= N ->
    rows_storable E (nrows tcs0) (Z.of_nat (length l)) ->
    exists tcs, insert_all E N tcs0 l = Done tcs /\
      rows tcs = rows tcs0 ++ l /\
      nrows tcs = nrows tcs0 + Z.of_nat (length l) /\ chunk_inv tcs.
Proof.
  induction l as [|[c h] l IH]; intros tcs0 H0 Hroom Hst.
  - exists tcs0. simpl. rewrite app_nil_r.
    split; [reflexivity|]. split; [reflexivity|]. split; [lia|exact H0].
  - simpl length in *.
    assert (Hc : insert_completes E N tcs0).
    { split; [lia|]. intros i Hi. apply Hst; [|exact Hi].
      destruct H0 as [[Hn _] _]. lia. }
    destruct (insert_keeps_chunk_invariant_full E N tcs0 c h H0 Hc)
      as [tcs1 [E1 [R [N1 [_ [I _]]]]]].
    destruct (IH tcs1 I) as [tcs [E' [R' [N' I']]]]; [lia| |].
    { intros r i Hr Hi. apply Hst; [lia|exact Hi]. }
    exists tcs. simpl. rewrite E1. simpl. split; [exact E'|].
    rewrite R', R, N', N1, <- app_assoc.
    split; [reflexivity|]. split; [lia|exact I'].
Qed.

Lemma insert_all_overflow (E : tcache_env) (N : Z) :
  forall l tcs0, chunk_inv tcs0 ->
    nrows tcs0 <= N < nrows tcs0 + Z.of_nat (length l) ->
    insert_all E N tcs0 l = Fault.
Proof.
  induction l as [|[c h] l IH]; intros tcs0 H0 Hover.
  - simpl in Hover. lia.
  - simpl length in Hover. cbn [insert_all].
    destruct (do_insert_tuple E N tcs0 c h) as [tcs1|] eqn:E1; [|reflexivity].
    cbn [obind].
    pose proof (insert_Done E N tcs0 c h tcs1 E1) as Hc.
    destruct (insert_keeps_chunk_invariant_full E N tcs0 c h H0 Hc)
      as [tcs2 [E2 [_ [N2 [_ [I _]]]]]].
    rewrite E1 in E2. inversion E2. subst tcs2.
    apply IH; [exact I|]. destruct Hc as [Hroom _]. lia.
Qed.

Lemma fresh_chunk_inv : chunk_inv tcache_create_column_store.
Proof.
  split; [unfold tcs_wf; simpl; lia|]. split; [discriminate|]. simpl. lia.
Qed.



(** ** Merging two chunks *)

Lemma memcpy_at_rows {A} (dst src : list A) (n1 n2 : nat) :
  (n1 <= length dst)%nat -> (n2 <= length src)%nat ->
  exists l, memcpy_at dst (Z.of_nat n1) src (Z.of_nat n2) = Done l /\
    take (n1 + n2) l = take n1 dst ++ take n2 src.
Proof.
  intros H1 H2. unfold memcpy_at.
  destruct (Z.leb_spec 0 (Z.of_nat n1)); [|lia].
  destruct (Z.leb_spec 0 (Z.of_nat n2)); [|lia].
  destruct (Z.leb_spec (Z.of_nat n1) (Z.of_nat (length dst))); [|lia].
  destruct (Z.leb_spec (Z.of_nat n2) (Z.of_nat (length src))); [|lia].
  simpl. eexists. split; [reflexivity|]. rewrite !Nat2Z.id.
  rewrite app_assoc. rewrite take_app_le by (rewrite length_app, !length_take; lia).
  rewrite take_ge by (rewrite length_app, !length_take; lia). reflexivity.
Qed.



(** ** Bitmaps *)

Lemma bit_is_set_testbit (b x : Z) :
  0 <= x -> bit_is_set b x = Z.testbit b (x mod 8).
Proof.
  intros Hx. unfold bit_is_set, bit_mask, BITS_PER_BYTE.
  rewrite Z.rem_mod_nonneg by lia.
  assert (Hk : 0 <= x mod 8) by (apply Z.mod_pos_bound; lia).
  rewrite Z.shiftl_1_l.
  destruct (Z.testbit b (x mod 8)) eqn:E.
  - destruct (Z.eqb_spec (Z.land b (2 ^ (x mod 8))) 0) as [H0|]; [|reflexivity].
    assert (F : Z.testbit (Z.land b (2 ^ (x mod 8))) (x mod 8) = true)
      by (rewrite Z.land_spec, E, Z.pow2_bits_true by lia; reflexivity).
    rewrite H0, Z.bits_0 in F. discriminate.
  - replace (Z.land b (2 ^ (x mod 8))) with 0; [reflexivity|].
    symmetry. apply Z.bits_inj'. intros n Hn.
    rewrite Z.bits_0, Z.land_spec.
    destruct (Z.eq_dec n (x mod 8)) as [->|Hne].
    + now rewrite E.
    + rewrite Z.pow2_bits_false by lia. apply andb_false_r.
Qed.

Lemma byte_high_bits (b j : Z) : 0 <= b < 256 -> 8 <= j -> Z.testbit b j = false.
Proof.
  intros Hb Hj. rewrite <- (Z.mod_small b (2 ^ 8)) by (change (2 ^ 8) with 256; lia).
  apply Z.mod_pow2_bits_high. lia.
Qed.

Lemma set_or_clear_byte (b k : Z) (v : bool) :
  0 <= b < 256 -> 0 <= k < 8 ->
  let b' := (if v then Z.lor b (Z.shiftl 1 k) mod 256
             else Z.land b (Z.lnot (Z.shiftl 1 k)) mod 256) in
  0 <= b' < 256 /\
  forall j, 0 <= j -> Z.testbit b' j = if j =? k then v else Z.testbit b j.
Proof.
  intros Hb Hk b'. split.
  - subst b'. destruct v; apply Z.mod_pos_bound; lia.
  - intros j Hj. subst b'. change 256 with (2 ^ 8). rewrite Z.shiftl_1_l.
    destruct (Z.ltb_spec j 8) as [Hlt|Hge].
    + destruct v; rewrite Z.mod_pow2_bits_low by lia.
      * rewrite Z.lor_spec. destruct (Z.eqb_spec j k) as [->|Hne].
        -- rewrite Z.pow2_bits_true by lia. apply orb_true_r.
        -- rewrite Z.pow2_bits_false by lia. apply orb_false_r.
      * rewrite Z.land_spec, Z.lnot_spec by lia.
        destruct (Z.eqb_spec j k) as [->|Hne].
        -- rewrite Z.pow2_bits_true by lia. apply andb_false_r.
        -- rewrite Z.pow2_bits_false by lia. apply andb_true_r.
    + destruct (Z.eqb_spec j k); [lia|].
      rewrite (byte_high_bits b j) by lia.
      destruct v; apply Z.mod_pow2_bits_high; lia.
Qed.

Lemma set_or_clear_spec (bitmap : list Z) (x : Z) (v : bool) :
  bytes bitmap -> 0 <= x < 8 * Z.of_nat (length bitmap) ->
  exists bitmap', set_or_clear bitmap x v = Done bitmap' /\
    length bitmap' = length bitmap /\ bytes bitmap' /\
    forall i, 0 <= i ->
      bitmap_bit bitmap' i = if i =? x then v else bitmap_bit bitmap i.
Proof.
  intros Hb Hx. unfold set_or_clear, bit_mask, BITS_PER_BYTE.
  rewrite Z.quot_div_nonneg, Z.rem_mod_nonneg by lia.
  assert (Hq : 0 <= x / 8 < Z.of_nat (length bitmap))
    by (split; [apply Z.div_pos; lia|apply Z.div_lt_upper_bound; lia]).
  assert (Hk : 0 <= x mod 8 < 8) by (apply Z.mod_pos_bound; lia).
  destruct (lookup_lt_is_Some_2 bitmap (Z.to_nat (x / 8))) as [b Hbx]; [lia|].
  assert (Hbr : 0 <= b < 256).
  { unfold bytes in Hb. rewrite List.Forall_forall in Hb. apply Hb.
    apply list_elem_of_In. eapply list_elem_of_lookup_2. exact Hbx. }
  rewrite (read_Done _ _ b)
    by (unfold zth; destruct (Z.ltb_spec (x / 8) 0); [lia|exact Hbx]).
  cbn [obind].
  destruct (set_or_clear_byte b (x mod 8) v Hbr Hk) as [Hr' Hbits].
  set (b' := if v then Z.lor b (Z.shiftl 1 (x mod 8)) mod 256
             else Z.land b (Z.lnot (Z.shiftl 1 (x mod 8))) mod 256) in *.
  exists (<[Z.to_nat (x / 8) := b']> bitmap).
  split; [|split; [|split]].
  - assert (W : write bitmap (x / 8) b' = Done (<[Z.to_nat (x / 8) := b']> bitmap)).
    { unfold write. destruct (Z.ltb_spec (x / 8) 0); [lia|].
      destruct (Nat.ltb_spec (Z.to_nat (x / 8)) (length bitmap)); [reflexivity|lia]. }
    subst b'. destruct v; exact W.
  - apply length_insert.
  - unfold bytes. apply Forall_insert; assumption.
  - intros i Hi. unfold bitmap_bit.
    destruct (Z.eq_dec (i / 8) (x / 8)) as [Eq|Ne].
    + rewrite Eq, list_lookup_insert_eq by lia. rewrite Hbx.
      rewrite Hbits by (apply Z.mod_pos_bound; lia).
      destruct (Z.eqb_spec (i mod 8) (x mod 8)) as [Em|Nm].
      * destruct (Z.eqb_spec i x) as [|Nx]; [reflexivity|].
        exfalso. apply Nx.
        rewrite (Z.div_mod i 8), (Z.div_mod x 8) by lia. lia.
      * destruct (Z.eqb_spec i x) as [->|]; [contradiction|reflexivity].
    + rewrite list_lookup_insert_ne
        by (intros E; apply Ne; apply Z2Nat.inj in E; try lia;
            apply Z.div_pos; lia).
      destruct (Z.eqb_spec i x) as [->|]; [contradiction|reflexivity].
Qed.

(** X9.  [bitswap] exchanges the bits [x] and [y] of a bitmap and
    leaves every other bit as it was; the bitmap keeps its length. *)
Theorem bitswap_exchanges_two_bits (bitmap : list Z) (x y : Z) :
  bytes bitmap ->
  0 <= x < 8 * Z.of_nat (length bitmap) ->
  0 <= y < 8 * Z.of_nat (length bitmap) ->
  exists bitmap',
    bitswap bitmap x y = Done bitmap' /\
    length bitmap' = length bitmap /\ bytes bitmap' /\
    forall i, 0 <= i ->
      bitmap_bit bitmap' i
      = if i =? x then bitmap_bit bitmap y
        else if i =? y then bitmap_bit bitmap x
        else bitmap_bit bitmap i.
Proof.
  intros Hb Hx Hy. unfold bitswap.
  assert (Hread : forall z, 0 <= z < 8 * Z.of_nat (length bitmap) ->
            exists b, read bitmap (Z.quot z BITS_PER_BYTE) = Done b /\
              bit_is_set b z = bitmap_bit bitmap z).
  { intros z Hz. unfold BITS_PER_BYTE. rewrite Z.quot_div_nonneg by lia.
    assert (Hq : 0 <= z / 8 < Z.of_nat (length bitmap))
      by (split; [apply Z.div_pos; lia|apply Z.div_lt_upper_bound; lia]).
    destruct (lookup_lt_is_Some_2 bitmap (Z.to_nat (z / 8))) as [b Hbz]; [lia|].
    exists b. split.
    - apply read_Done. unfold zth.
      destruct (Z.ltb_spec (z / 8) 0); [lia|exact Hbz].
    - rewrite bit_is_set_testbit by lia. unfold bitmap_bit. now rewrite Hbz. }
  destruct (Hread x Hx) as [bx [-> Bx]]. destruct (Hread y Hy) as [by_ [-> By]].
  cbn [obind]. rewrite Bx, By.
  destruct (set_or_clear_spec bitmap x (bitmap_bit bitmap y) Hb Hx)
    as [bm1 [-> [L1 [B1 S1]]]].
  cbn [obind].
  destruct (set_or_clear_spec bm1 y (bitmap_bit bitmap x) B1 ltac:(lia))
    as [bm2 [-> [L2 [B2 S2]]]].
  exists bm2. split; [reflexivity|]. split; [congruence|]. split; [exact B2|].
  intros i Hi. rewrite S2, S1 by assumption.
  destruct (Z.eqb_spec i y) as [Ey|Hy']; destruct (Z.eqb_spec i x) as [Ex|Hx'];
    try reflexivity.
  congruence.
Qed.

Lemma bitswap_exchanges_two_bits_witness :
  bytes [5; 128] /\ 0 <= 0 < 8 * Z.of_nat (length [5; 128]) /\
  0 <= 9 < 8 * Z.of_nat (length [5; 128]) /\
  exists bitmap',
    bitswap [5; 128] 0 9 = Done bitmap' /\
    length bitmap' = 2%nat /\ bytes bitmap' /\
    bitmap_bit bitmap' 0 = bitmap_bit [5; 128] 9 /\
    bitmap_bit bitmap' 9 = bitmap_bit [5; 128] 0 /\
    bitmap_bit bitmap' 2 = bitmap_bit [5; 128] 2.
Proof.
  assert (Hb : bytes [5; 128]) by (repeat constructor; lia).
  assert (H0 : 0 <= 0 < 8 * Z.of_nat (length [5; 128])) by (simpl; lia).
  assert (H9 : 0 <= 9 < 8 * Z.of_nat (length [5; 128])) by (simpl; lia).
  split; [exact Hb|]. split; [exact H0|]. split; [exact H9|].
  destruct (bitswap_exchanges_two_bits [5; 128] 0 9 Hb H0 H9)
    as [bm [E [L [B S]]]].
  exists bm. split; [exact E|]. split; [exact L|]. split; [exact B|].
  split; [exact (S 0 ltac:(lia))|]. split; [exact (S 9 ltac:(lia))|].
  exact (S 2 ltac:(lia)).
Defined.

(** ** Layout of a chunk *)

Lemma regions_fit_app start l1 l2 stop :
  regions_fit start (l1 ++ l2) stop <->
  exists mid, regions_fit start l1 mid /\ regions_fit mid l2 stop.
Proof.
  revert start. induction l1 as [|[s z] l1 IH]; intros start; simpl.
  - split.
    + intros H. exists start. split; [lia|exact H].
    + intros [mid [H1 H2]]. revert H2. clear - H1.
      destruct l2 as [|[s z] l2]; simpl; intros; [lia|].
      intuition lia.
  - rewrite IH. split.
    + intros [H1 [H2 [mid H3]]]. exists mid. tauto.
    + intros [mid [[H1 [H2 H3]] H4]]. split; [exact H1|]. split; [exact H2|].
      exists mid. tauto.
Qed.

Section Layout.

Variable N : Z.
Variable offsetof_cdata : Z -> Z.
Variable sizeof_ip sizeof_hth : Z.
Hypothesis HN : 0 <= N.
Hypothesis Hip : 0 <= sizeof_ip.
Hypothesis Hhth : 0 <= sizeof_hth.

Lemma values_size_nonneg attr : 0 <= values_size N attr.
Proof.
  unfold values_size, sizeof_cl_uint.
  destruct (Z.gtb_spec (attlen attr) 0); nia.
Qed.

Lemma isnull_size_nonneg : 0 <= isnull_size N.
Proof. unfold isnull_size, BITS_PER_BYTE. apply Z.quot_pos; lia. Qed.

Lemma layout_columns_spec : forall attrs offset,
  snd (layout_columns N attrs offset) = length_columns N attrs offset /\
  length (fst (layout_columns N attrs offset)) = length attrs /\
  regions_fit offset
    (concat (zip_with (column_regions N) attrs
               (fst (layout_columns N attrs offset))))
    (length_columns N attrs offset).
Proof.
  induction attrs as [|attr rest IH]; intros offset; simpl.
  - split; [reflexivity|]. split; [reflexivity|lia].
  - pose proof (values_size_nonneg attr) as Hv.
    pose proof isnull_size_nonneg as Hi.
    pose proof (MAXALIGN_bounds _ Hv) as Mv.
    pose proof (MAXALIGN_bounds _ Hi) as Mi.
    destruct (attnotnull attr); simpl.
    + specialize (IH (offset + MAXALIGN (values_size N attr))).
      destruct (layout_columns N rest (offset + MAXALIGN (values_size N attr)))
        as [cols off'] eqn:E. simpl in *.
      destruct IH as [IH1 [IH2 IH3]]. split; [exact IH1|]. split; [now rewrite IH2|].
      unfold column_regions at 1. simpl.
      split; [lia|]. split; [lia|].
      revert IH3. clear - Mv.
      destruct (concat _) as [|[s z] l]; simpl; intros; [lia|intuition lia].
    + specialize (IH (offset + MAXALIGN (isnull_size N)
                      + MAXALIGN (values_size N attr))).
      destruct (layout_columns N rest
                  (offset + MAXALIGN (isnull_size N)
                   + MAXALIGN (values_size N attr))) as [cols off'] eqn:E.
      simpl in *.
      destruct IH as [IH1 [IH2 IH3]]. split; [exact IH1|]. split; [now rewrite IH2|].
      unfold column_regions at 1. simpl.
      split; [lia|]. split; [lia|]. split; [lia|]. split; [lia|].
      revert IH3. clear - Mv.
      destruct (concat _) as [|[s z] l]; simpl; intros; [lia|intuition lia].
Qed.

End Layout.

(** X10.  The layout of [tcache_create_column_store]: the offset
    reached after the arrays of the last column is the length the
    function allocated (its closing [Assert]), there is one pair of
    array offsets per cached column, and the arrays of item pointers,
    tuple headers, null bitmaps and values lie behind the header one
    after the other, none overlapping the next, within the block. *)
Theorem column_store_layout_fits (N : Z) (offsetof_cdata : Z -> Z)
    (sizeof_ip sizeof_hth : Z) (attrs : list Form_pg_attribute) :
  0 <= N -> 0 <= sizeof_ip -> 0 <= sizeof_hth ->
  let lay := column_store_layout N offsetof_cdata sizeof_ip sizeof_hth attrs in
  let len := column_store_length N offsetof_cdata sizeof_ip sizeof_hth attrs in
  end_ofs lay = len /\
  length (cdata_ofs lay) = length attrs /\
  regions_fit (MAXALIGN (offsetof_cdata (Z.of_nat (length attrs))))
    (chunk_regions N sizeof_ip sizeof_hth attrs lay) len.
Proof.
  intros HN Hip Hhth lay len. subst lay len.
  unfold column_store_layout, column_store_length, chunk_regions.
  set (hdr := MAXALIGN (offsetof_cdata (Z.of_nat (length attrs)))).
  set (o2 := hdr + MAXALIGN (sizeof_ip * N) + MAXALIGN (sizeof_hth * N)).
  destruct (layout_columns_spec N HN attrs o2) as [H1 [H2 H3]].
  destruct (layout_columns N attrs o2) as [cols off] eqn:E. simpl in *.
  split; [exact H1|]. split; [exact H2|].
  assert (0 <= sizeof_ip * N) by nia. assert (0 <= sizeof_hth * N) by nia.
  pose proof (MAXALIGN_bounds _ H). pose proof (MAXALIGN_bounds _ H0).
  split; [lia|]. split; [assumption|]. split; [lia|]. split; [assumption|].
  revert H3. unfold o2. clear - H4 H5.
  destruct (concat _) as [|[s z] l]; simpl; intros; [lia|intuition lia].
Qed.

Lemma column_store_layout_fits_witness :
  0 <= 16 /\ 0 <= 6 /\ 0 <= 24 /\
  let attrs := [mkAttr true 4; mkAttr false (-1)] in
  let lay := column_store_layout 16 (fun n => 64 + 24 * n) 6 24 attrs in
  let len := column_store_length 16 (fun n => 64 + 24 * n) 6 24 attrs in
  end_ofs lay = len /\
  length (cdata_ofs lay) = length attrs /\
  regions_fit (MAXALIGN (64 + 24 * Z.of_nat (length attrs)))
    (chunk_regions 16 6 24 attrs lay) len.
Proof.
  split; [lia|]. split; [lia|]. split; [lia|].
  exact (column_store_layout_fits 16 (fun n => 64 + 24 * n) 6 24
           [mkAttr true 4; mkAttr false (-1)]
           ltac:(lia) ltac:(lia) ltac:(lia)).
Defined.

(** ** Row stores *)

Lemma get_tuple_row (base : Z) (trs : RowStore.tcache_row_store) (i : nat) :
  trs_inv base trs ->
  RowStore.kern_rowstore_get_tuple trs (Z.of_nat i) = Done (row_tuple trs i).
Proof.
  intros [_ [Hn [_ [_ Hall]]]]. unfold RowStore.kern_rowstore_get_tuple, row_tuple.
  destruct (Z.geb_spec (Z.of_nat i) (RowStore.nrows (RowStore.kern trs))) as [Hge|Hlt].
  - rewrite lookup_ge_None_2 by lia. reflexivity.
  - destruct (lookup_lt_is_Some_2 (RowStore.tupoffset (RowStore.kern trs)) i)
      as [off Hoff]; [lia|].
    rewrite (read_Done _ _ off) by (now rewrite zth_of_nat). rewrite Hoff.
    cbn [obind]. destruct (Z.eqb_spec off 0) as [|Hnz]; [reflexivity|].
    destruct (Hall i off Hoff Hnz) as [_ [t [Ht _]]]. now rewrite Ht.
Qed.

Lemma create_row_store_inv (base usage0 : Z) :
  0 <= base <= usage0 -> usage0 < 2 ^ 64 ->
  trs_inv base (RowStore.tcache_create_row_store usage0).
Proof.
  intros H1 H2. unfold trs_inv. simpl.
  split; [lia|]. split; [reflexivity|]. split; [lia|].
  split; intros; discriminate.
Qed.

Lemma insert_tuple_spec (base : Z) (trs : RowStore.tcache_row_store)
    (tuple : RowStore.rs_tuple) :
  trs_inv base trs -> 0 <= RowStore.t_len tuple ->
  tuple_room tuple <= RowStore.usage trs ->
  let n := RowStore.nrows (RowStore.kern trs) in
  (RowStore.usage trs - tuple_room tuple <= base + 4 * (n + 1) ->
   RowStore.tcache_row_store_insert_tuple base trs tuple = Done (trs, false)) /\
  (base + 4 * (n + 1) < RowStore.usage trs - tuple_room tuple ->
   exists trs',
     RowStore.tcache_row_store_insert_tuple base trs tuple = Done (trs', true) /\
     trs_inv base trs' /\
     RowStore.nrows (RowStore.kern trs') = n + 1 /\
     RowStore.usage trs' = RowStore.usage trs - tuple_room tuple /\
     RowStore.blkno_min trs'
     = Z.min (RowStore.blkno_min trs)
         (ItemPointerGetBlockNumber (RowStore.t_self tuple)) /\
     RowStore.blkno_max trs'
     = Z.max (RowStore.blkno_max trs)
         (ItemPointerGetBlockNumber (RowStore.t_self tuple)) /\
     row_tuple trs' (Z.to_nat n) = Some tuple /\
     forall i, (i < Z.to_nat n)%nat -> row_tuple trs' i = row_tuple trs i).
Proof.
  intros Hinv Hlen Hroom n. pose proof Hinv as [Hb [Hn [Hu [Hd Hall]]]].
  unfold RowStore.tcache_row_store_insert_tuple. fold (tuple_room tuple). fold n.
  rewrite Z.mod_small
    by (unfold tuple_room in *; pose proof (MAXALIGN_bounds _ Hlen);
        change (MAXALIGN RowStore.sizeof_HeapTupleData) with 24 in *; lia).
  assert (Hpos : 24 <= tuple_room tuple).
  { unfold tuple_room. pose proof (MAXALIGN_bounds _ Hlen).
    change (MAXALIGN RowStore.sizeof_HeapTupleData) with 24. lia. }
  split; intros Hc.
  - destruct (Z.ltb_spec (base + 4 * (n + 1)) (RowStore.usage trs - tuple_room tuple));
      [lia|reflexivity].
  - destruct (Z.ltb_spec (base + 4 * (n + 1)) (RowStore.usage trs - tuple_room tuple));
      [|lia].
    set (tail := RowStore.usage trs - tuple_room tuple) in *.
    unfold n at 1. rewrite Hn, write_append. cbn [obind].
    eexists. split; [reflexivity|].
    assert (Hfresh : forall i off,
              RowStore.tupoffset (RowStore.kern trs) !! i = Some off ->
              off <> 0 -> off <> tail).
    { intros i off Hi Hnz. destruct (Hall i off Hi Hnz) as [Hge _]. lia. }
    split; [|split; [reflexivity|split; [reflexivity|split; [|split; [|split]]]]].
    + unfold trs_inv. cbn [RowStore.kern RowStore.nrows RowStore.tupoffset
                            RowStore.usage RowStore.tuples RowStore.blkno_min
                            RowStore.blkno_max].
      split; [exact Hb|]. split; [rewrite length_app; simpl; fold n; lia|].
      split; [fold n; lia|]. split.
      * intros i j off Hi Hj Hnz.
        apply lookup_app_Some in Hi as [Hi|[Hi1 Hi2]];
          apply lookup_app_Some in Hj as [Hj|[Hj1 Hj2]].
        -- eapply Hd; eassumption.
        -- apply list_lookup_singleton_Some in Hj2 as [_ <-].
           now destruct (Hfresh i tail Hi Hnz).
        -- apply list_lookup_singleton_Some in Hi2 as [_ <-].
           now destruct (Hfresh j tail Hj Hnz).
        -- apply list_lookup_singleton_Some in Hi2 as [Hi2 _].
           apply list_lookup_singleton_Some in Hj2 as [Hj2 _]. lia.
      * intros i off Hi Hnz.
        apply lookup_app_Some in Hi as [Hi|[Hi1 Hi2]].
        -- destruct (Hall i off Hi Hnz) as [Hge [t [Ht Hr]]].
           split; [lia|]. exists t.
           rewrite lookup_insert_ne by (apply not_eq_sym; eapply Hfresh; eassumption).
           split; [exact Ht|].
           destruct (Z.ltb_spec (RowStore.blkno_max trs)
                       (ItemPointerGetBlockNumber (RowStore.t_self tuple)));
             destruct (Z.gtb_spec (RowStore.blkno_min trs)
                         (ItemPointerGetBlockNumber (RowStore.t_self tuple))); lia.
        -- apply list_lookup_singleton_Some in Hi2 as [_ <-].
           split; [lia|]. exists tuple. rewrite lookup_insert_eq.
           split; [reflexivity|].
           destruct (Z.ltb_spec (RowStore.blkno_max trs)
                       (ItemPointerGetBlockNumber (RowStore.t_self tuple)));
             destruct (Z.gtb_spec (RowStore.blkno_min trs)
                         (ItemPointerGetBlockNumber (RowStore.t_self tuple))); lia.
    + cbn [RowStore.blkno_min].
      destruct (Z.gtb_spec (RowStore.blkno_min trs)
                  (ItemPointerGetBlockNumber (RowStore.t_self tuple))); lia.
    + cbn [RowStore.blkno_max].
      destruct (Z.ltb_spec (RowStore.blkno_max trs)
                  (ItemPointerGetBlockNumber (RowStore.t_self tuple))); lia.
    + unfold row_tuple. cbn [RowStore.kern RowStore.tupoffset RowStore.tuples].
      unfold n. rewrite Hn, Nat2Z.id.
      rewrite lookup_app_r by lia. rewrite Nat.sub_diag. simpl.
      destruct (Z.eqb_spec tail 0); [lia|]. apply lookup_insert_eq.
    + intros i Hi. unfold row_tuple.
      cbn [RowStore.kern RowStore.tupoffset RowStore.tuples].
      unfold n in Hi. rewrite Hn, Nat2Z.id in Hi.
      rewrite lookup_app_l by lia.
      destruct (RowStore.tupoffset (RowStore.kern trs) !! i) as [off|] eqn:E;
        [|reflexivity].
      destruct (Z.eqb_spec off 0) as [|Hnz]; [reflexivity|].
      apply lookup_insert_ne. apply not_eq_sym. eapply Hfresh; eassumption.
Qed.





Lemma ItemPointerEquals_eq (a b : ItemPointerData) :
  ItemPointerEquals a b = true <-> a = b.
Proof.
  unfold ItemPointerEquals, ItemPointerGetBlockNumber, ItemPointerGetOffsetNumber.
  destruct a as [a1 a2], b as [b1 b2]. simpl.
  rewrite andb_true_iff, !Z.eqb_eq. split; [intros [-> ->]; reflexivity|].
  intros H. inversion H. auto.
Qed.

(** The first row at or after [i] that holds a tuple with the item
    pointer [ip], among [n] rows. *)
Lemma hints_loop_spec (base : Z) (trs : RowStore.tcache_row_store)
    (tuple : RowStore.rs_tuple) :
  trs_inv base trs ->
  forall n i,
  (i + n = length (RowStore.tupoffset (RowStore.kern trs)))%nat ->
  (forall j t, (j < i)%nat -> row_tuple trs j = Some t ->
     RowStore.t_self t <> RowStore.t_self tuple) ->
  (RowStore.hints_loop n (Z.of_nat i) trs tuple = Done (trs, false) /\
   forall j t, row_tuple trs j = Some t ->
     RowStore.t_self t <> RowStore.t_self tuple) \/
  (exists k off t,
     (forall j t', (j < k)%nat -> row_tuple trs j = Some t' ->
        RowStore.t_self t' <> RowStore.t_self tuple) /\
     RowStore.tupoffset (RowStore.kern trs) !! k = Some off /\ off <> 0 /\
     RowStore.tuples trs !! off = Some t /\
     RowStore.t_self t = RowStore.t_self tuple /\
     RowStore.hints_loop n (Z.of_nat i) trs tuple
     = Done (RowStore.set_tuples
               (<[off := {| RowStore.t_len := RowStore.t_len t;
                            RowStore.t_self := RowStore.t_self t;
                            RowStore.data := RowStore.data tuple |}]>
                  (RowStore.tuples trs)) trs, true)).
Proof.
  intros Hinv. induction n as [|n IH]; intros i Hi Hbefore.
  - left. split; [reflexivity|]. intros j t Hj.
    destruct (Nat.lt_ge_cases j i) as [Hlt|Hge]; [eauto|].
    unfold row_tuple in Hj. rewrite lookup_ge_None_2 in Hj by lia. discriminate.
  - cbn [RowStore.hints_loop]. rewrite (get_tuple_row base) by exact Hinv.
    cbn [obind].
    destruct (row_tuple trs i) as [t|] eqn:Erow.
    + destruct (ItemPointerEquals (RowStore.t_self t) (RowStore.t_self tuple))
        eqn:Eeq.
      * right. apply ItemPointerEquals_eq in Eeq.
        unfold row_tuple in Erow.
        destruct (RowStore.tupoffset (RowStore.kern trs) !! i) as [off|] eqn:Eoff;
          [|discriminate].
        destruct (Z.eqb_spec off 0) as [|Hnz]; [discriminate|].
        exists i, off, t. split; [exact Hbefore|]. split; [exact Eoff|].
        split; [exact Hnz|]. split; [exact Erow|]. split; [exact Eeq|].
        rewrite (read_Done _ _ off) by (now rewrite zth_of_nat). reflexivity.
      * replace (Z.of_nat i + 1) with (Z.of_nat (S i)) by lia.
        apply IH; [lia|]. intros j t' Hj Hj'.
        destruct (Nat.eq_dec j i) as [->|]; [|apply (Hbefore j); [lia|exact Hj']].
        rewrite Erow in Hj'. inversion Hj'. subst t'.
        intros E. apply ItemPointerEquals_eq in E. congruence.
    + replace (Z.of_nat i + 1) with (Z.of_nat (S i)) by lia.
      apply IH; [lia|]. intros j t' Hj Hj'.
      destruct (Nat.eq_dec j i) as [->|]; [congruence|].
      apply (Hbefore j); [lia|exact Hj'].
Qed.

(** X13.  [tcache_update_tuple_hints_rowstore] returns true exactly
    when the row store holds a tuple with the item pointer of the given
    tuple.  It then replaces the header of the first such tuple by the
    header of the given one and leaves its item pointer, its length and
    all other rows as they are; otherwise it changes nothing.  The
    offsets, the room and the range of the store never change. *)
Theorem update_hints_replaces_header (base : Z)
    (trs : RowStore.tcache_row_store) (tuple : RowStore.rs_tuple) :
  trs_inv base trs ->
  exists trs' hit,
    RowStore.tcache_update_tuple_hints_rowstore trs tuple = Done (trs', hit) /\
    (hit = true <->
     exists i t, row_tuple trs i = Some t /\
       RowStore.t_self t = RowStore.t_self tuple) /\
    (hit = false -> trs' = trs) /\
    (hit = true ->
     exists i t,
       row_tuple trs i = Some t /\ RowStore.t_self t = RowStore.t_self tuple /\
       (forall j t', (j < i)%nat -> row_tuple trs j = Some t' ->
          RowStore.t_self t' <> RowStore.t_self tuple) /\
       row_tuple trs' i
       = Some {| RowStore.t_len := RowStore.t_len t;
                 RowStore.t_self := RowStore.t_self t;
                 RowStore.data := RowStore.data tuple |} /\
       forall j, j <> i -> row_tuple trs' j = row_tuple trs j) /\
    RowStore.kern trs' = RowStore.kern trs /\
    RowStore.usage trs' = RowStore.usage trs /\
    RowStore.blkno_min trs' = RowStore.blkno_min trs /\
    RowStore.blkno_max trs' = RowStore.blkno_max trs /\
    trs_inv base trs'.
Proof.
  intros Hinv. pose proof Hinv as [Hb [Hn [Hu [Hd Hall]]]].
  unfold RowStore.tcache_update_tuple_hints_rowstore, RowStore.outside_range.
  assert (Hrange : forall i t, row_tuple trs i = Some t ->
            RowStore.blkno_min trs
            <= ItemPointerGetBlockNumber (RowStore.t_self t)
            <= RowStore.blkno_max trs).
  { intros i t Hi. unfold row_tuple in Hi.
    destruct (RowStore.tupoffset (RowStore.kern trs) !! i) as [off|] eqn:E;
      [|discriminate].
    destruct (Z.eqb_spec off 0) as [|Hnz]; [discriminate|].
    destruct (Hall i off E Hnz) as [_ [t' [Ht' Hr]]]. congruence. }
  destruct ((ItemPointerGetBlockNumber (RowStore.t_self tuple)
               >? RowStore.blkno_max trs)
            || (ItemPointerGetBlockNumber (RowStore.t_self tuple)
                  <? RowStore.blkno_min trs)) eqn:Eout.
  - exists trs, false. split; [reflexivity|]. split.
    + split; [discriminate|]. intros [i [t [Hi Ht]]].
      pose proof (Hrange i t Hi) as Hr. rewrite Ht in Hr.
      apply orb_true_iff in Eout as [E|E];
        [apply Z.gtb_lt in E|apply Z.ltb_lt in E]; lia.
    + split; [reflexivity|]. split; [discriminate|]. auto 10.
  - destruct (hints_loop_spec base trs tuple Hinv
                (Z.to_nat (RowStore.nrows (RowStore.kern trs))) 0)
      as [[E Hnone]|[k [off [t [Hbefore [Hoff [Hnz [Ht [Heq E]]]]]]]]];
      [lia|intros; lia| |].
    + exists trs, false. split; [exact E|]. split.
      * split; [discriminate|]. intros [i [t [Hi Ht]]].
        now destruct (Hnone i t Hi).
      * split; [reflexivity|]. split; [discriminate|]. auto 10.
    + change (Z.of_nat 0) with 0 in E. eexists _, true. split; [exact E|].
      assert (Hk : row_tuple trs k = Some t).
      { unfold row_tuple. rewrite Hoff.
        destruct (Z.eqb_spec off 0); [contradiction|exact Ht]. }
      split; [split; [intros _; eauto|reflexivity]|].
      split; [discriminate|]. split.
      * intros _. exists k, t. split; [exact Hk|]. split; [exact Heq|].
        split; [exact Hbefore|]. split.
        -- unfold row_tuple. cbn [RowStore.set_tuples RowStore.kern RowStore.tuples].
           rewrite Hoff. destruct (Z.eqb_spec off 0); [contradiction|].
           apply lookup_insert_eq.
        -- intros j Hj. unfold row_tuple.
           cbn [RowStore.set_tuples RowStore.kern RowStore.tuples].
           destruct (RowStore.tupoffset (RowStore.kern trs) !! j) as [o|] eqn:Ej;
             [|reflexivity].
           destruct (Z.eqb_spec o 0) as [|Hoz]; [reflexivity|].
           apply lookup_insert_ne. intros ->. apply Hj. eapply Hd; eassumption.
      * split; [reflexivity|]. split; [reflexivity|]. split; [reflexivity|].
        split; [reflexivity|].
        unfold trs_inv. cbn [RowStore.set_tuples RowStore.kern RowStore.tuples
                              RowStore.usage RowStore.blkno_min RowStore.blkno_max].
        split; [exact Hb|]. split; [exact Hn|]. split; [exact Hu|].
        split; [exact Hd|]. intros i o Hi Hoz.
        destruct (Hall i o Hi Hoz) as [Hge [t' [Ht' Hr]]]. split; [exact Hge|].
        destruct (Z.eq_dec o off) as [->|Hne].
        -- eexists. rewrite lookup_insert_eq. split; [reflexivity|].
           cbn [RowStore.t_self]. rewrite Ht in Ht'. inversion Ht'. subst t'.
           exact Hr.
        -- exists t'. rewrite lookup_insert_ne by congruence. auto.
Qed.

Lemma three_block_trs_inv : trs_inv 64 three_block_trs.
Proof.
  unfold trs_inv. simpl. split; [lia|]. split; [reflexivity|].
  split; [split; [lia|reflexivity]|]. split.
  - intros i j off Hi Hj _.
    destruct i as [|[|[|i]]]; destruct j as [|[|[|j]]]; simpl in *;
      try discriminate; try reflexivity; congruence.
  - intros i off Hi _.
    destruct i as [|[|[|i]]]; simpl in Hi; inversion Hi; subst;
      (split; [lia|]); eexists; (split; [reflexivity|]); simpl; lia.
Qed.

Lemma update_hints_replaces_header_witness :
  trs_inv 64 three_block_trs /\
  exists trs',
    RowStore.tcache_update_tuple_hints_rowstore three_block_trs
      {| RowStore.t_len := 40; RowStore.t_self := ItemPointerSet 2 1;
         RowStore.data := mkHeapTupleHeader 100 777 0 |} = Done (trs', true) /\
    RowStore.kern trs' = RowStore.kern three_block_trs /\
    trs_inv 64 trs'.
Proof.
  split; [exact three_block_trs_inv|].
  destruct (update_hints_replaces_header 64 three_block_trs
              {| RowStore.t_len := 40; RowStore.t_self := ItemPointerSet 2 1;
                 RowStore.data := mkHeapTupleHeader 100 777 0 |}
              three_block_trs_inv)
    as [trs' [hit [E [Hhit [_ [_ [K [_ [_ [_ I]]]]]]]]]].
  exists trs'. split; [|split; [exact K|exact I]].
  rewrite E. f_equal. f_equal. apply Hhit.
  exists 1%nat, (rs_tuple_of 2). split; reflexivity.
Defined.

(** ** Message queue *)

Lemma enqueue_all_open (xs : list nat) : forall queue,
  Queue.is_shutdown queue = false ->
  enqueue_all queue xs
  = ({| Queue.head := Queue.head queue ++ xs; Queue.is_shutdown := false |},
     map (fun _ => true) xs).
Proof.
  induction xs as [|x xs IH]; intros [h s] Hs; simpl in *; subst s.
  - now rewrite app_nil_r.
  - unfold Queue.pgstrom_queue_enqueue. simpl.
    rewrite IH by reflexivity. simpl. now rewrite <- app_assoc.
Qed.

Lemma dequeue_n_all (l : list nat) (s : bool) :
  dequeue_n {| Queue.head := l; Queue.is_shutdown := s |} (length l)
  = ({| Queue.head := []; Queue.is_shutdown := s |}, map Some l).
Proof.
  induction l as [|x l IH]; simpl; [reflexivity|].
  unfold Queue.pgstrom_queue_try_dequeue, Queue.dlist_pop_head_node. simpl.
  now rewrite IH.
Qed.

(** X14.  The queue is first-in first-out.  On a queue that is not shut
    down every [pgstrom_queue_enqueue] succeeds and appends its item;
    [pgstrom_queue_try_dequeue] then hands out the items in the order
    they were put in, also after [pgstrom_queue_shutdown], which keeps
    the queued items.  On the emptied queue [pgstrom_queue_try_dequeue]
    returns NULL, [pgstrom_queue_is_empty] returns true and
    [pgstrom_queue_dequeue] starts to wait. *)
Theorem queue_is_fifo (queue : Queue.StromQueue) (xs : list nat) :
  Queue.is_shutdown queue = false ->
  let items := Queue.head queue ++ xs in
  let q1 := fst (enqueue_all queue xs) in
  let q2 := fst (fst (Queue.pgstrom_queue_shutdown q1)) in
  let q3 := fst (dequeue_n q2 (length items)) in
  snd (enqueue_all queue xs) = map (fun _ => true) xs /\
  Queue.head q1 = items /\
  snd (dequeue_n q1 (length items)) = map Some items /\
  snd (dequeue_n q2 (length items)) = map Some items /\
  Queue.head q3 = [] /\
  snd (fst (Queue.pgstrom_queue_try_dequeue q3)) = None /\
  snd (fst (Queue.pgstrom_queue_is_empty q3)) = true /\
  snd (fst (Queue.pgstrom_queue_dequeue_enter q3)) = inr tt.
Proof.
  intros Hs items q1 q2 q3. subst q3 q2 q1.
  rewrite enqueue_all_open by assumption. simpl. fold items.
  rewrite !dequeue_n_all. simpl. auto 10.
Qed.

Lemma queue_is_fifo_witness :
  Queue.is_shutdown empty_queue = false /\
  snd (enqueue_all empty_queue [7; 8; 9]%nat) = [true; true; true] /\
  snd (dequeue_n (fst (enqueue_all empty_queue [7; 8; 9]%nat)) 3)
  = [Some 7; Some 8; Some 9]%nat.
Proof.
  split; [reflexivity|].
  destruct (queue_is_fifo empty_queue [7; 8; 9]%nat eq_refl)
    as [H1 [_ [H3 _]]].
  split; [exact H1|exact H3].
Defined.

(** ** Shared-memory segment *)

Lemma dlist_delete_notin (x : Z) (l : list Z) :
  x ∉ l -> Shmem.dlist_delete x l = l.
Proof.
  induction l as [|y l IH]; intros H; simpl; [reflexivity|].
  apply not_elem_of_cons in H as [H1 H2].
  destruct (Z.eqb_spec y x); [congruence|]. now rewrite IH.
Qed.

Lemma dlist_delete_app (x : Z) (l1 l2 : list Z) :
  x ∉ l1 -> Shmem.dlist_delete x (l1 ++ x :: l2) = l1 ++ l2.
Proof.
  induction l1 as [|y l1 IH]; intros H; simpl.
  - now rewrite Z.eqb_refl.
  - apply not_elem_of_cons in H as [H1 H2].
    destruct (Z.eqb_spec y x); [congruence|]. now rewrite IH.
Qed.

Lemma dlist_insert_after_app (x n : Z) (l1 l2 : list Z) :
  x ∉ l1 -> Shmem.dlist_insert_after x n (l1 ++ x :: l2) = l1 ++ x :: n :: l2.
Proof.
  induction l1 as [|y l1 IH]; intros H; simpl.
  - now rewrite Z.eqb_refl.
  - apply not_elem_of_cons in H as [H1 H2].
    destruct (Z.eqb_spec y x); [congruence|]. now rewrite IH.
Qed.

Lemma dlist_prev_notin (x : Z) (l : list Z) :
  x ∉ l -> Shmem.dlist_prev x l = None.
Proof.
  induction l as [|a l IH]; intros H; [reflexivity|].
  apply not_elem_of_cons in H as [H1 H2]. simpl.
  destruct l as [|b l]; [reflexivity|].
  apply not_elem_of_cons in H2 as H3. destruct H3 as [H3 _].
  destruct (Z.eqb_spec b x); [congruence|]. now apply IH.
Qed.

Lemma dlist_prev_app (x : Z) (l1 l2 : list Z) :
  x ∉ l1 -> x ∉ l2 -> Shmem.dlist_prev x (l1 ++ x :: l2) = last l1.
Proof.
  intros H1 H2. induction l1 as [|a l1 IH].
  - simpl. destruct l2 as [|b l2]; [reflexivity|].
    apply not_elem_of_cons in H2 as H3. destruct H3 as [H3 _].
    destruct (Z.eqb_spec b x); [congruence|]. now apply dlist_prev_notin.
  - apply not_elem_of_cons in H1 as [Ha H1]. specialize (IH H1).
    destruct l1 as [|b l1].
    + simpl. now rewrite Z.eqb_refl.
    + apply not_elem_of_cons in H1 as [Hb _].
      change (Shmem.dlist_prev x ((a :: b :: l1) ++ x :: l2))
        with (if b =? x then Some a
              else Shmem.dlist_prev x ((b :: l1) ++ x :: l2)).
      destruct (Z.eqb_spec b x); [congruence|]. rewrite IH. reflexivity.
Qed.

Lemma dlist_next_app (x : Z) (l1 l2 : list Z) :
  x ∉ l1 -> Shmem.dlist_next x (l1 ++ x :: l2) = head l2.
Proof.
  induction l1 as [|a l1 IH]; intros H; simpl.
  - rewrite Z.eqb_refl. now destruct l2.
  - apply not_elem_of_cons in H as [H1 H2].
    destruct (Z.eqb_spec a x); [congruence|]. now apply IH.
Qed.

Lemma elem_of_dlist_delete (x y : Z) (l : list Z) :
  NoDup l -> y ∈ Shmem.dlist_delete x l <-> y ∈ l /\ y <> x.
Proof.
  induction 1 as [|a l Ha Hl IH]; simpl.
  - split; [intros H; inversion H|intros [H _]; inversion H].
  - destruct (Z.eqb_spec a x) as [->|Hne].
    + rewrite elem_of_cons. split.
      * intros H. split; [now right|]. intros ->. contradiction.
      * intros [[->|H] Hy]; [contradiction|exact H].
    + rewrite !elem_of_cons, IH. split.
      * intros [->|[H1 H2]]; [split; [now left|exact Hne]|].
        split; [now right|exact H2].
      * intros [[->|H1] H2]; [now left|right; tauto].
Qed.

Lemma NoDup_dlist_delete (x : Z) (l : list Z) :
  NoDup l -> NoDup (Shmem.dlist_delete x l).
Proof.
  induction 1 as [|a l Ha Hl IH]; simpl; [constructor|].
  destruct (Z.eqb_spec a x); [exact Hl|].
  constructor; [|exact IH]. rewrite elem_of_dlist_delete by exact Hl. tauto.
Qed.

Lemma tiles_range bl : forall l s e,
  tiles bl s l e -> s <= e /\ forall a, a ∈ l -> s <= a < e.
Proof.
  induction l as [|x l IH]; intros s e; simpl.
  - intros ->. split; [lia|]. intros a Ha. inversion Ha.
  - intros [-> [b [Hb [Hpos Ht]]]]. destruct (IH _ _ Ht) as [H1 H2].
    split; [lia|]. intros a Ha. apply elem_of_cons in Ha as [->|Ha]; [lia|].
    specialize (H2 a Ha). lia.
Qed.

Lemma tiles_app bl : forall l1 l2 s e,
  tiles bl s (l1 ++ l2) e <-> exists m, tiles bl s l1 m /\ tiles bl m l2 e.
Proof.
  induction l1 as [|x l1 IH]; intros l2 s e; simpl.
  - split; [intros H; exists s; auto|intros [m [-> H]]; exact H].
  - split.
    + intros [-> [b [Hb [Hpos Ht]]]]. apply IH in Ht as [m [H1 H2]].
      exists m. split; [|exact H2]. split; [reflexivity|]. eauto.
    + intros [m [[-> [b [Hb [Hpos H1]]]] H2]]. split; [reflexivity|].
      exists b. split; [exact Hb|]. split; [exact Hpos|].
      apply IH. eauto.
Qed.

Lemma tiles_ext bl bl' : forall l s e,
  (forall a, a ∈ l -> Shmem.size <$> bl' !! a = Shmem.size <$> bl !! a) ->
  tiles bl s l e -> tiles bl' s l e.
Proof.
  induction l as [|x l IH]; intros s e Hext; simpl; [auto|].
  intros [-> [b [Hb [Hpos Ht]]]]. split; [reflexivity|].
  pose proof (Hext s (list_elem_of_here _ _)) as Hx. rewrite Hb in Hx. simpl in Hx.
  destruct (bl' !! s) as [b'|] eqn:E; [|discriminate]. simpl in Hx.
  inversion Hx as [Hs]. exists b'. rewrite Hs. split; [reflexivity|].
  split; [exact Hpos|]. apply IH; [|exact Ht].
  intros a Ha. apply Hext. now apply list_elem_of_further.
Qed.

Lemma tiles_NoDup bl : forall l s e, tiles bl s l e -> NoDup l.
Proof.
  induction l as [|x l IH]; intros s e; simpl; [constructor|].
  intros [-> [b [Hb [Hpos Ht]]]]. constructor; [|eapply IH; exact Ht].
  intros Hin. destruct (tiles_range _ _ _ _ Ht) as [_ H]. specialize (H s Hin). lia.
Qed.

Lemma coalesced_ext bl bl' : forall l,
  (forall a, a ∈ l -> is_free bl' a -> is_free bl a) ->
  coalesced bl l -> coalesced bl' l.
Proof.
  induction l as [|x l IH]; intros Hext; simpl; [auto|].
  intros [H1 H2]. split.
  - destruct l as [|y l]; [exact I|]. intros [Fx Fy]. apply H1. split.
    + apply Hext; [apply list_elem_of_here|exact Fx].
    + apply Hext; [apply list_elem_of_further, list_elem_of_here|exact Fy].
  - apply IH; [|exact H2]. intros a Ha. apply Hext. now apply list_elem_of_further.
Qed.

Lemma coalesced_app bl : forall l1 l2,
  coalesced bl (l1 ++ l2) <->
  coalesced bl l1 /\ coalesced bl l2 /\
  match last l1, head l2 with
  | Some a, Some b => ~ (is_free bl a /\ is_free bl b)
  | _, _ => True
  end.
Proof.
  induction l1 as [|x l1 IH]; intros l2.
  - simpl. tauto.
  - destruct l1 as [|y l1].
    + simpl. destruct l2 as [|z l2]; simpl; tauto.
    + change (coalesced bl ((x :: y :: l1) ++ l2))
        with (~ (is_free bl x /\ is_free bl y) /\ coalesced bl ((y :: l1) ++ l2)).
      rewrite IH. rewrite last_cons_cons.
      change (coalesced bl (x :: y :: l1))
        with (~ (is_free bl x /\ is_free bl y) /\ coalesced bl (y :: l1)).
      tauto.
Qed.

Lemma alloc_loop_takes (h : Shmem.ShmemHead) (magic' required : Z) :
  forall l1 a l2 b block,
  (forall x, x ∈ l1 ->
     exists b, Shmem.blocks h !! x = Some b /\ Shmem.size b < required) ->
  Shmem.blocks h !! a = Some b -> required <= Shmem.size b ->
  Shmem.alloc_loop h (l1 ++ a :: l2) block magic' required
  = Done (taken h a b magic' required, Some a).
Proof.
  induction l1 as [|x l1 IH]; intros a l2 b block Hsmall Ha Hfit.
  - simpl. unfold Shmem.block_at. rewrite Ha. cbn [obind].
    destruct (Z.ltb_spec (Shmem.size b) required); [lia|]. unfold taken.
    destruct (Z.ltb_spec (Shmem.size b) (required + 4096)); reflexivity.
  - destruct (Hsmall x (list_elem_of_here _ _)) as [bx [Hx Hsz]].
    simpl. unfold Shmem.block_at at 1. rewrite Hx. cbn [obind].
    destruct (Z.ltb_spec (Shmem.size bx) required); [|lia].
    apply IH; auto. intros y Hy. apply Hsmall. now apply list_elem_of_further.
Qed.

Lemma first_fit_or_none (bl : gmap Z Shmem.ShmemBlock) (required : Z) :
  forall l, (forall x, x ∈ l -> exists b, bl !! x = Some b) ->
  (forall x, x ∈ l -> exists b, bl !! x = Some b /\ Shmem.size b < required) \/
  (exists l1 a l2 b, l = l1 ++ a :: l2 /\
     (forall x, x ∈ l1 -> exists b, bl !! x = Some b /\ Shmem.size b < required) /\
     bl !! a = Some b /\ required <= Shmem.size b).
Proof.
  induction l as [|x l IH]; intros Hdom.
  - left. intros x Hx. inversion Hx.
  - destruct (Hdom x (list_elem_of_here _ _)) as [b Hb].
    destruct (Z.lt_ge_cases (Shmem.size b) required) as [Hlt|Hge].
    + destruct IH as [Hall|[l1 [a [l2 [ba [-> [Hs [Ha Hf]]]]]]]].
      * intros y Hy. apply Hdom. now apply list_elem_of_further.
      * left. intros y Hy. apply elem_of_cons in Hy as [->|Hy]; eauto.
      * right. exists (x :: l1), a, l2, ba. split; [reflexivity|].
        split; [|auto]. intros y Hy. apply elem_of_cons in Hy as [->|Hy]; eauto.
    + right. exists [], x, l, b. split; [reflexivity|]. split; [|auto].
      intros y Hy. inversion Hy.
Qed.

Lemma stamped_ok (first mypid myowner : Z) (h : Shmem.ShmemHead) (a : Z) :
  arena_ok first h -> arena_ok first (stamped mypid myowner h a).
Proof.
  intros [Ht [Hc [Hn Hf]]]. unfold stamped.
  destruct (Shmem.blocks h !! a) as [b|] eqn:E;
    [|exact (conj Ht (conj Hc (conj Hn Hf)))].
  assert (Hfree : forall x, is_free (<[a := {| Shmem.magic := Shmem.magic b;
                      Shmem.size := Shmem.size b; Shmem.pid := mypid;
                      Shmem.owner := myowner;
                      Shmem.overrun_marker := Shmem.SHMEM_BLOCK_OVERRUN_MARK |}]>
                      (Shmem.blocks h)) x <-> is_free (Shmem.blocks h) x).
  { intros x. unfold is_free. destruct (Z.eq_dec x a) as [->|Hne].
    - rewrite lookup_insert_eq. split.
      + intros [b' [Hb' Hm]]. inversion Hb'. subst b'. eauto.
      + intros [b' [Hb' Hm]]. rewrite E in Hb'. inversion Hb'. subst b'. eauto.
    - now rewrite lookup_insert_ne by congruence. }
  unfold arena_ok. simpl. split; [|split; [|split; [exact Hn|]]].
  - eapply tiles_ext; [|exact Ht]. intros x _.
    destruct (Z.eq_dec x a) as [->|Hne].
    + rewrite lookup_insert_eq, E. reflexivity.
    + now rewrite lookup_insert_ne by congruence.
  - eapply coalesced_ext; [|exact Hc]. intros x _. apply Hfree.
  - intros x. rewrite Hf, Hfree. reflexivity.
Qed.

Lemma is_free_insert bl a b x :
  is_free (<[a := b]> bl) x <->
  (x = a /\ Shmem.magic b = Shmem.SHMEM_BLOCK_FREE) \/ (x <> a /\ is_free bl x).
Proof.
  unfold is_free. destruct (Z.eq_dec x a) as [->|Hne].
  - rewrite lookup_insert_eq. split.
    + intros [b' [E Hm]]. inversion E. subst. auto.
    + intros [[_ Hm]|[Hn _]]; [eauto|contradiction].
  - rewrite lookup_insert_ne by congruence. split; [auto|].
    intros [[Hx _]|[_ H]]; [contradiction|exact H].
Qed.

(** The arena at a block of the address list. *)
Lemma arena_split (first : Z) (h : Shmem.ShmemHead) (a : Z) :
  arena_ok first h -> a ∈ Shmem.addr_head h ->
  exists l1 l2 b,
    Shmem.addr_head h = l1 ++ a :: l2 /\ Shmem.blocks h !! a = Some b /\
    0 < Shmem.size b /\ (a ∉ l1) /\ (a ∉ l2) /\
    tiles (Shmem.blocks h) first l1 a /\
    tiles (Shmem.blocks h) (a + Shmem.size b) l2 (first + Shmem.total_size h) /\
    (forall x, x ∈ l1 -> x < a) /\
    (forall x, x ∈ l2 -> a + Shmem.size b <= x).
Proof.
  intros [Ht _] Hin. apply list_elem_of_split in Hin as [l1 [l2 E]].
  pose proof (tiles_NoDup _ _ _ _ Ht) as Hnd. rewrite E in Ht, Hnd.
  apply NoDup_app in Hnd as [_ [Hn1 Hn2]]. apply NoDup_cons in Hn2 as [Hn2 _].
  apply tiles_app in Ht as [m [T1 T2]]. simpl in T2.
  destruct T2 as [Em [b [Hb [Hpos T2]]]]. subst m.
  exists l1, l2, b. split; [exact E|]. split; [exact Hb|]. split; [exact Hpos|].
  split; [intros H; apply (Hn1 a H), list_elem_of_here|].
  split; [exact Hn2|]. split; [exact T1|]. split; [exact T2|].
  split.
  - intros x Hx. destruct (tiles_range _ _ _ _ T1) as [_ H]. specialize (H x Hx). lia.
  - intros x Hx. destruct (tiles_range _ _ _ _ T2) as [_ H]. specialize (H x Hx). lia.
Qed.

Lemma taken_ok (first : Z) (h : Shmem.ShmemHead) (a : Z) (b : Shmem.ShmemBlock)
    (magic' required : Z) :
  arena_ok first h -> a ∈ Shmem.free_head h ->
  Shmem.blocks h !! a = Some b -> 0 < required <= Shmem.size b ->
  magic' <> Shmem.SHMEM_BLOCK_FREE ->
  arena_ok first (taken h a b magic' required).
Proof.
  intros Hok Hfh Hb Hreq Hmagic. pose proof Hok as [Ht [Hc [Hn Hf]]].
  pose proof (proj1 (Hf a) Hfh) as [Hin Hfree].
  destruct (arena_split first h a Hok Hin)
    as [l1 [l2 [b' [E [Hb' [Hpos [N1 [N2 [T1 [T2 [L1 L2]]]]]]]]]]].
  rewrite Hb in Hb'. inversion Hb'. subst b'. clear Hb'.
  unfold taken. destruct (Z.ltb_spec (Shmem.size b) (required + 4096)) as [Hw|Hs].
  - (* the whole block *)
    unfold arena_ok. simpl. split; [|split; [|split]].
    + eapply tiles_ext; [|exact Ht]. intros x _.
      destruct (Z.eq_dec x a) as [->|Hne].
      * rewrite lookup_insert_eq, Hb. reflexivity.
      * now rewrite lookup_insert_ne by congruence.
    + eapply coalesced_ext; [|exact Hc]. intros x _ Hx.
      apply is_free_insert in Hx as [[_ Hm]|[_ Hx]]; [contradiction|exact Hx].
    + now apply NoDup_dlist_delete.
    + intros x. rewrite elem_of_dlist_delete by exact Hn.
      rewrite Hf, is_free_insert. simpl. tauto.
  - (* the block is split *)
    set (n := a + required).
    assert (Hn1 : n ∉ l1) by (intros H; specialize (L1 n H); lia).
    assert (Hn2 : n ∉ l2) by (intros H; specialize (L2 n H); lia).
    assert (Hna : n <> a) by lia.
    assert (Hnin : n ∉ Shmem.addr_head h).
    { rewrite E. intros H. apply elem_of_app in H as [H|H]; [contradiction|].
      apply elem_of_cons in H as [H|H]; [lia|contradiction]. }
    set (bn := {| Shmem.magic := Shmem.SHMEM_BLOCK_FREE;
                  Shmem.size := Shmem.size b - required; Shmem.pid := 0;
                  Shmem.owner := 0; Shmem.overrun_marker := 0 |}).
    set (ba := Shmem.set_size required (Shmem.set_magic magic' b)).
    assert (Hother : forall x, x <> a -> x <> n ->
              <[a := ba]> (<[n := bn]> (Shmem.blocks h)) !! x
              = Shmem.blocks h !! x).
    { intros x H1 H2. now rewrite !lookup_insert_ne by congruence. }
    assert (Hfree' : forall x, x <> a -> x <> n ->
              is_free (<[a := ba]> (<[n := bn]> (Shmem.blocks h))) x
              <-> is_free (Shmem.blocks h) x).
    { intros x H1 H2. unfold is_free. now rewrite Hother. }
    assert (Hfa : ~ is_free (<[a := ba]> (<[n := bn]> (Shmem.blocks h))) a).
    { intros H. apply is_free_insert in H as [[_ Hm]|[Hx _]];
        [contradiction|congruence]. }
    rewrite E in Hc. apply coalesced_app in Hc as [C1 [C2 C3]].
    unfold arena_ok. cbn [Shmem.blocks Shmem.addr_head Shmem.free_head
                           Shmem.total_size].
    rewrite E, dlist_insert_after_app by exact N1.
    split; [|split; [|split]].
    + apply tiles_app. exists a. split.
      * eapply tiles_ext; [|exact T1]. intros x Hx.
        rewrite Hother; [reflexivity| |]; intros ->; contradiction.
      * simpl. split; [reflexivity|]. exists ba. rewrite lookup_insert_eq.
        split; [reflexivity|]. split; [simpl; lia|]. simpl.
        split; [reflexivity|]. exists bn.
        rewrite lookup_insert_ne, lookup_insert_eq by congruence.
        split; [reflexivity|]. split; [simpl; lia|]. simpl.
        replace (n + (Shmem.size b - required))
          with (a + Shmem.size b) by (unfold n; lia).
        eapply tiles_ext; [|exact T2]. intros x Hx.
        rewrite Hother; [reflexivity| |]; intros ->; contradiction.
    + apply coalesced_app. split; [|split].
      * eapply coalesced_ext; [|exact C1]. intros x Hx.
        apply Hfree'; intros ->; contradiction.
      * change (coalesced _ (a :: n :: l2))
          with (~ (is_free (<[a := ba]> (<[n := bn]> (Shmem.blocks h))) a /\
                   is_free (<[a := ba]> (<[n := bn]> (Shmem.blocks h))) n) /\
                coalesced (<[a := ba]> (<[n := bn]> (Shmem.blocks h))) (n :: l2)).
        split; [tauto|]. simpl in C2. destruct C2 as [C2 C2'].
        simpl. split.
        -- destruct l2 as [|y l2]; [exact I|]. intros [_ Fy].
           apply C2. split; [exact Hfree|].
           apply Hfree' in Fy; [exact Fy| |]; intros ->;
             [apply N2|apply Hn2]; apply list_elem_of_here.
        -- eapply coalesced_ext; [|exact C2']. intros x Hx.
           apply Hfree'; intros ->; contradiction.
      * destruct (last l1); [|exact I]. simpl. tauto.
    + constructor; [|now apply NoDup_dlist_delete].
      rewrite elem_of_dlist_delete by exact Hn. intros [H _].
      apply Hf in H as [H _]. contradiction.
    + intros x. rewrite elem_of_cons, elem_of_dlist_delete by exact Hn.
      rewrite Hf, E. rewrite !elem_of_app, !elem_of_cons.
      destruct (Z.eq_dec x a) as [->|Hxa].
      * split; [intros [Hx|[_ H]]; [unfold n in Hx; lia|contradiction]|].
        intros [_ H]. contradiction.
      * destruct (Z.eq_dec x n) as [->|Hxn].
        -- split; [intros _|auto]. split; [auto|].
           exists bn. rewrite lookup_insert_ne, lookup_insert_eq by congruence.
           auto.
        -- rewrite Hfree' by assumption. tauto.
Qed.

Lemma required_size_pos (size' : Z) : 0 <= size' -> 68 <= Shmem.required_size size'.
Proof.
  intros H. unfold Shmem.required_size, Shmem.offsetof_data, Shmem.sizeof_uint32.
  pose proof (MAXALIGN_bounds _ H).
  assert (H1 : 0 <= 64 + MAXALIGN size' + 4) by lia.
  pose proof (MAXALIGN_bounds _ H1). lia.
Qed.

Lemma MAXALIGN_Size_small (len : Z) :
  0 <= len -> len + 7 < 2 ^ 64 -> Shmem.MAXALIGN_Size len = MAXALIGN len.
Proof.
  intros H0 H1. unfold Shmem.MAXALIGN_Size, Shmem.Size_wrap.
  rewrite (Z.mod_small (len + 7)) by lia.
  rewrite <- (Z.land_ones (Z.lnot 7) 64) by lia.
  rewrite Z.land_assoc.
  change (Z.land (len + 7) (Z.lnot 7)) with (MAXALIGN len).
  rewrite Z.land_ones by lia. apply Z.mod_small.
  pose proof (MAXALIGN_bounds len H0). lia.
Qed.

Lemma required_size_no_wrap (size' : Z) :
  0 <= size' -> size' + 82 < 2 ^ 64 ->
  Shmem.required_size_wrap size' = Shmem.required_size size'.
Proof.
  intros H0 H1. unfold Shmem.required_size_wrap, Shmem.required_size,
    Shmem.offsetof_data, Shmem.sizeof_uint32.
  rewrite (MAXALIGN_Size_small size') by lia.
  pose proof (MAXALIGN_bounds size' H0).
  unfold Shmem.Size_wrap at 1. rewrite Z.mod_small by lia.
  apply MAXALIGN_Size_small; lia.
Qed.

Lemma free_head_blocks (first : Z) (h : Shmem.ShmemHead) :
  arena_ok first h ->
  forall x, x ∈ Shmem.free_head h -> exists b, Shmem.blocks h !! x = Some b.
Proof.
  intros [_ [_ [_ Hf]]] x Hx. apply Hf in Hx as [_ [b [Hb _]]]. eauto.
Qed.

Lemma alloc_stamps (mypid myowner : Z) (h h1 : Shmem.ShmemHead)
    (magic' size' a : Z) :
  Shmem.alloc_loop h (Shmem.free_head h) None magic' (Shmem.required_size size')
  = Done (h1, Some a) ->
  (exists b, Shmem.blocks h1 !! a = Some b) ->
  Shmem.pgstrom_shmem_alloc mypid myowner h magic' size'
  = Done (stamped mypid myowner h1 a, Some a).
Proof.
  intros E [b Hb]. unfold Shmem.pgstrom_shmem_alloc. rewrite E. cbn [obind].
  unfold Shmem.block_at, stamped. rewrite Hb. reflexivity.
Qed.

Lemma startup_arena (first total : Z) :
  0 < total -> arena_ok first (Shmem.pgstrom_shmem_startup first total).
Proof.
  intros Hpos. unfold arena_ok, Shmem.pgstrom_shmem_startup. simpl.
  split; [|split; [|split]].
  - split; [reflexivity|]. eexists. rewrite lookup_singleton_eq.
    split; [reflexivity|]. simpl. split; [lia|reflexivity].
  - auto.
  - apply NoDup_singleton.
  - intros a. rewrite list_elem_of_singleton. split; [|tauto].
    intros ->. split; [reflexivity|]. eexists. rewrite lookup_singleton_eq.
    split; reflexivity.
Qed.

(** X15.  [pgstrom_shmem_startup] sets up, and [pgstrom_shmem_alloc]
    keeps, the invariant of the segment: the blocks in address order
    tile the segment without gap or overlap, no two neighbours are both
    free, and the free list holds exactly the free blocks, once each.
    This holds for every request on which neither the required size
    nor the threshold [required + 4096] of the split wraps in [Size]
    (a request of less than [2 ^ 64 - 4178] bytes); the required size
    is then the one the C code computes.  The call always returns, and
    it returns NULL only when the free list is empty. *)
Theorem alloc_keeps_arena (first total mypid myowner : Z)
    (h : Shmem.ShmemHead) (magic' size' : Z) :
  (0 < total -> arena_ok first (Shmem.pgstrom_shmem_startup first total)) /\
  (arena_ok first h -> magic' <> Shmem.SHMEM_BLOCK_FREE ->
   0 <= size' -> size' + 82 + 4096 < 2 ^ 64 ->
   Shmem.required_size_wrap size' = Shmem.required_size size' /\
   Shmem.required_size size' + 4096 < 2 ^ 64 /\
   exists h' r,
     Shmem.pgstrom_shmem_alloc mypid myowner h magic' size' = Done (h', r) /\
     arena_ok first h' /\
     Shmem.total_size h' = Shmem.total_size h /\
     (r = None <-> Shmem.free_head h = [])).
Proof.
  split; [apply startup_arena|].
  - intros Hok Hmagic Hsize Hbound.
    split; [apply required_size_no_wrap; [assumption|lia]|].
    split.
    { unfold Shmem.required_size, Shmem.offsetof_data, Shmem.sizeof_uint32.
      pose proof (MAXALIGN_bounds size' Hsize).
      pose proof (MAXALIGN_bounds (64 + MAXALIGN size' + 4) ltac:(lia)). lia. }
    pose proof (required_size_pos size' Hsize) as Hreq.
    destruct (first_fit_or_none (Shmem.blocks h) (Shmem.required_size size')
                (Shmem.free_head h) (free_head_blocks first h Hok))
      as [Hnone|[l1 [a [l2 [b [E [Hsmall [Hb Hfit]]]]]]]].
    + pose proof (alloc_loop_none_fits h magic' (Shmem.required_size size')
                    (Shmem.free_head h) None Hnone) as El.
      destruct (last (Shmem.free_head h)) as [a|] eqn:Elast.
      * assert (Hin : a ∈ Shmem.free_head h).
        { apply last_Some in Elast as [l' ->]. apply elem_of_app. right.
          apply list_elem_of_here. }
        exists (stamped mypid myowner h a), (Some a).
        split; [apply alloc_stamps; [exact El|]; now apply (free_head_blocks first)|].
        split; [now apply stamped_ok|]. split.
        -- unfold stamped. now destruct (Shmem.blocks h !! a).
        -- split; [discriminate|]. intros Hnil. rewrite Hnil in Hin. inversion Hin.
      * exists h, None. unfold Shmem.pgstrom_shmem_alloc. rewrite El. cbn [obind].
        split; [reflexivity|]. split; [exact Hok|]. split; [reflexivity|].
        split; [intros _|reflexivity]. now apply last_None.
    + pose proof (alloc_loop_takes h magic' (Shmem.required_size size')
                    l1 a l2 b None Hsmall Hb Hfit) as El.
      rewrite <- E in El.
      assert (Hin : a ∈ Shmem.free_head h).
      { rewrite E. apply elem_of_app. right. apply list_elem_of_here. }
      pose proof (taken_ok first h a b magic' (Shmem.required_size size')
                    Hok Hin Hb ltac:(lia) Hmagic) as Hok1.
      assert (Hat : exists b1,
                Shmem.blocks (taken h a b magic' (Shmem.required_size size')) !! a
                = Some b1).
      { unfold taken.
        destruct (Shmem.size b <? Shmem.required_size size' + 4096); simpl;
          rewrite lookup_insert_eq; eauto. }
      exists (stamped mypid myowner
                (taken h a b magic' (Shmem.required_size size')) a), (Some a).
      split; [now apply alloc_stamps|]. split; [now apply stamped_ok|]. split.
      * unfold stamped. destruct Hat as [b1 ->]. simpl. unfold taken.
        now destruct (Shmem.size b <? Shmem.required_size size' + 4096).
      * split; [discriminate|]. intros Hnil. rewrite Hnil in Hin. inversion Hin.
Qed.

Lemma alloc_keeps_arena_witness :
  0 < 65536 /\
  arena_ok 4096 (Shmem.pgstrom_shmem_startup 4096 65536) /\
  Shmem.SHMEM_BLOCK_STROM_QUEUE <> Shmem.SHMEM_BLOCK_FREE /\
  0 <= 1000 /\ 1000 + 82 + 4096 < 2 ^ 64 /\
  Shmem.required_size_wrap 1000 = 1072 /\
  exists h' r,
    Shmem.pgstrom_shmem_alloc 42 9 (Shmem.pgstrom_shmem_startup 4096 65536)
      Shmem.SHMEM_BLOCK_STROM_QUEUE 1000 = Done (h', r) /\
    arena_ok 4096 h' /\ Shmem.total_size h' = 65536 /\ r <> None.
Proof.
  assert (H0 : 0 < 65536) by lia.
  assert (Hm : Shmem.SHMEM_BLOCK_STROM_QUEUE <> Shmem.SHMEM_BLOCK_FREE)
    by (vm_compute; discriminate).
  assert (Hb : 1000 + 82 + 4096 < 2 ^ 64) by (vm_compute; reflexivity).
  pose proof (proj1 (alloc_keeps_arena 4096 65536 42 9
                       (Shmem.pgstrom_shmem_startup 4096 65536)
                       Shmem.SHMEM_BLOCK_STROM_QUEUE 1000) H0) as Hok.
  split; [exact H0|]. split; [exact Hok|]. split; [exact Hm|]. split; [lia|].
  split; [exact Hb|].
  destruct (proj2 (alloc_keeps_arena 4096 65536 42 9
                     (Shmem.pgstrom_shmem_startup 4096 65536)
                     Shmem.SHMEM_BLOCK_STROM_QUEUE 1000) Hok Hm ltac:(lia) Hb)
    as [W [_ [h' [r [E [I [T N]]]]]]].
  split; [rewrite W; reflexivity|].
  exists h', r. split; [exact E|]. split; [exact I|]. split; [exact T|].
  intros Hr. apply N in Hr. discriminate.
Defined.

Lemma pending_of_arena (first : Z) (h : Shmem.ShmemHead) (a : Z) :
  arena_ok first h -> a ∈ Shmem.addr_head h -> ~ is_free (Shmem.blocks h) a ->
  exists l1 l2, pending first h a l1 l2.
Proof.
  intros Hok Hin Hused. pose proof Hok as [Ht [Hc [Hn Hf]]].
  destruct (arena_split first h a Hok Hin)
    as [l1 [l2 [b [E [Hb [Hpos [N1 [N2 [T1 [T2 _]]]]]]]]]].
  exists l1, l2. unfold pending. split; [exact E|]. split; [eauto 10|].
  rewrite E in Hc. apply coalesced_app in Hc as [C1 [C2 _]].
  split; [exact C1|]. split; [simpl in C2; tauto|]. split; [exact Hn|].
  intros x. rewrite Hf, E, !elem_of_app, elem_of_cons. split.
  - intros [[H|[->|H]] Hx]; [tauto|contradiction|tauto].
  - tauto.
Qed.

Lemma pending_sides (first : Z) (h : Shmem.ShmemHead) (cur : Z) (l1 l2 : list Z) :
  pending first h cur l1 l2 ->
  exists bc, Shmem.blocks h !! cur = Some bc /\ 0 < Shmem.size bc /\
    (forall x, x ∈ l1 -> x < cur) /\
    (forall x, x ∈ l2 -> cur + Shmem.size bc <= x) /\
    (forall x, x ∈ l1 ++ l2 -> exists b, Shmem.blocks h !! x = Some b).
Proof.
  intros [E [[bc [Hb [Hpos [T1 T2]]]] _]]. exists bc.
  split; [exact Hb|]. split; [exact Hpos|].
  destruct (tiles_range _ _ _ _ T1) as [_ R1].
  destruct (tiles_range _ _ _ _ T2) as [_ R2].
  split; [intros x Hx; specialize (R1 x Hx); lia|].
  split; [intros x Hx; specialize (R2 x Hx); lia|].
  assert (Hdom : forall l s e, tiles (Shmem.blocks h) s l e ->
            forall x, x ∈ l -> exists b, Shmem.blocks h !! x = Some b).
  { induction l as [|y l IH]; intros s e Ht x Hx; [inversion Hx|].
    simpl in Ht. destruct Ht as [-> [b [Hy [_ Ht]]]].
    apply elem_of_cons in Hx as [->|Hx]; [eauto|]. eapply IH; eassumption. }
  intros x Hx. apply elem_of_app in Hx as [Hx|Hx].
  - exact (Hdom _ _ _ T1 x Hx).
  - exact (Hdom _ _ _ T2 x Hx).
Qed.

Lemma last_app_singleton {A} (l : list A) (x : A) : last (l ++ [x]) = Some x.
Proof. induction l as [|y l IH]; [reflexivity|]. simpl. now destruct (l ++ [x]). Qed.

Lemma merge_prev_pending (first : Z) (h : Shmem.ShmemHead) (cur : Z)
    (l1 l2 : list Z) (lo hi : Z) :
  pending first h cur l1 l2 -> covers h cur lo hi ->
  exists h1 cur1 l1',
    Shmem.free_merge_prev h cur = Done (h1, cur1) /\
    pending first h1 cur1 l1' l2 /\
    match last l1' with
    | Some p => ~ is_free (Shmem.blocks h1) p
    | None => True
    end /\
    covers h1 cur1 lo hi /\
    Shmem.total_size h1 = Shmem.total_size h /\
    Shmem.free_size h1 = Shmem.free_size h.
Proof.
  intros Hp Hcov. pose proof Hp as [E [[bc [Hb [Hpos [T1 T2]]]] [C1 [C2 [Hn Hf]]]]].
  destruct (pending_sides _ _ _ _ _ Hp) as [bc' [Hb' [_ [L1 [L2 Hdom]]]]].
  rewrite Hb in Hb'. inversion Hb'. subst bc'. clear Hb'.
  assert (N1 : cur ∉ l1) by (intros H; specialize (L1 _ H); lia).
  assert (N2 : cur ∉ l2) by (intros H; specialize (L2 _ H); lia).
  unfold Shmem.free_merge_prev. rewrite E, dlist_prev_app by assumption.
  destruct (last l1) as [p|] eqn:Elast.
  2:{ exists h, cur, l1. rewrite Elast. auto 10. }
  apply last_Some in Elast as [l1' ->].
  assert (Hpin : p ∈ (l1' ++ [p]) ++ l2).
  { apply elem_of_app. left. apply elem_of_app. right. apply list_elem_of_here. }
  destruct (Hdom p Hpin) as [bp Hbp].
  unfold Shmem.block_at. rewrite Hb, Hbp. cbn [obind].
  destruct (Z.eqb_spec (Shmem.magic bp) Shmem.SHMEM_BLOCK_FREE) as [Hfree|Hused].
  2:{ exists h, cur, (l1' ++ [p]). split; [reflexivity|]. split; [exact Hp|].
      rewrite last_app_singleton. split; [|auto].
      intros [b0 [H0 Hm]]. rewrite Hbp in H0. inversion H0. subst. contradiction. }
  (* the block is merged into its free predecessor *)
  apply tiles_app in T1 as [m [T1 Tp]]. simpl in Tp.
  destruct Tp as [Em [bp' [Hbp' [Hppos Hend]]]]. subst m.
  rewrite Hbp in Hbp'. inversion Hbp'. subst bp'. clear Hbp'.
  destruct (tiles_range _ _ _ _ T1) as [_ R1].
  assert (Lp : forall x, x ∈ l1' -> x < p) by (intros x Hx; specialize (R1 x Hx); lia).
  assert (Np1 : p ∉ l1') by (intros H; specialize (Lp _ H); lia).
  assert (Np2 : p ∉ l2).
  { intros H. specialize (L2 _ H).
    specialize (L1 p ltac:(apply elem_of_app; right; apply list_elem_of_here)). lia. }
  set (bl1 := <[p := Shmem.set_size (Shmem.size bp + Shmem.size bc) bp]>
                (Shmem.blocks h)).
  assert (Hsame : forall x, x <> p -> bl1 !! x = Shmem.blocks h !! x)
    by (intros x Hx; unfold bl1; now rewrite lookup_insert_ne by congruence).
  assert (Hfree' : forall x, x <> p -> is_free bl1 x <-> is_free (Shmem.blocks h) x)
    by (intros x Hx; unfold is_free; now rewrite Hsame).
  apply coalesced_app in C1 as [C1 [_ C1b]]. rewrite dlist_delete_app by exact N1.
  eexists _, p, l1'. split; [reflexivity|]. split; [|split; [|split]].
  - unfold pending. cbn [Shmem.addr_head Shmem.blocks Shmem.free_head
                          Shmem.total_size]. fold bl1.
    split; [now rewrite <- app_assoc|]. split; [|split; [|split; [|split]]].
    + eexists. unfold bl1 at 1. rewrite lookup_insert_eq.
      split; [reflexivity|]. cbn [Shmem.size Shmem.set_size].
      split; [lia|]. split.
      * eapply tiles_ext; [|exact T1]. intros x Hx. rewrite Hsame; [reflexivity|].
        intros ->. contradiction.
      * replace (p + (Shmem.size bp + Shmem.size bc))
          with (cur + Shmem.size bc) by lia.
        eapply tiles_ext; [|exact T2]. intros x Hx. rewrite Hsame; [reflexivity|].
        intros ->. contradiction.
    + eapply coalesced_ext; [|exact C1]. intros x Hx. apply Hfree'.
      intros ->. contradiction.
    + eapply coalesced_ext; [|exact C2]. intros x Hx. apply Hfree'.
      intros ->. contradiction.
    + now apply NoDup_dlist_delete.
    + intros x. rewrite elem_of_dlist_delete by exact Hn. rewrite Hf.
      rewrite !elem_of_app, list_elem_of_singleton.
      destruct (Z.eq_dec x p) as [->|Hxp]; [tauto|].
      rewrite Hfree' by exact Hxp. tauto.
  - destruct (last l1') as [q|] eqn:Eq; [|exact I].
    simpl in C1b. intros Hq. apply C1b.
    assert (q <> p).
    { apply last_Some in Eq as [l' ->]. intros ->. apply Np1.
      apply elem_of_app. right. apply list_elem_of_here. }
    split; [now apply Hfree'|]. exists bp. auto.
  - destruct Hcov as [b0 [H0 [Hlo Hhi]]]. rewrite Hb in H0. inversion H0. subst b0.
    unfold covers. cbn [Shmem.blocks]. unfold bl1. rewrite lookup_insert_eq.
    eexists. split; [reflexivity|]. cbn [Shmem.size Shmem.set_size]. lia.
  - auto.
Qed.

Lemma merge_next_pending (first : Z) (h : Shmem.ShmemHead) (cur : Z)
    (l1 l2 : list Z) (lo hi : Z) :
  pending first h cur l1 l2 -> covers h cur lo hi ->
  exists h2 l2',
    Shmem.free_merge_next h cur = Done h2 /\
    pending first h2 cur l1 l2' /\
    match head l2' with
    | Some n => ~ is_free (Shmem.blocks h2) n
    | None => True
    end /\
    (forall x, x <> cur -> is_free (Shmem.blocks h2) x
                           <-> is_free (Shmem.blocks h) x) /\
    covers h2 cur lo hi /\
    Shmem.total_size h2 = Shmem.total_size h /\
    Shmem.free_size h2 = Shmem.free_size h.
Proof.
  intros Hp Hcov. pose proof Hp as [E [[bc [Hb [Hpos [T1 T2]]]] [C1 [C2 [Hn Hf]]]]].
  destruct (pending_sides _ _ _ _ _ Hp) as [bc' [Hb' [_ [L1 [L2 Hdom]]]]].
  rewrite Hb in Hb'. inversion Hb'. subst bc'. clear Hb'.
  assert (N1 : cur ∉ l1) by (intros H; specialize (L1 _ H); lia).
  unfold Shmem.free_merge_next. rewrite E, dlist_next_app by assumption.
  destruct l2 as [|nx l2']; cbn [head].
  { exists h, []. split; [reflexivity|]. split; [exact Hp|]. split; [exact I|].
    split; [tauto|auto]. }
  simpl in T2. destruct T2 as [Enx [bn [Hbn [Hnpos T2]]]].
  unfold Shmem.block_at. rewrite Hb, Hbn. cbn [obind].
  destruct (Z.eqb_spec (Shmem.magic bn) Shmem.SHMEM_BLOCK_FREE) as [Hfree|Hused].
  2:{ exists h, (nx :: l2'). split; [reflexivity|]. split; [exact Hp|].
      split; [|split; [tauto|auto]]. cbn [head].
      intros [b0 [H0 Hm]]. rewrite Hbn in H0. inversion H0. subst. contradiction. }
  destruct (tiles_range _ _ _ _ T2) as [_ R2].
  assert (Nn1 : nx ∉ l1) by (intros H; specialize (L1 _ H); lia).
  assert (Nn2 : nx ∉ l2') by (intros H; specialize (R2 _ H); lia).
  assert (Nc2 : cur ∉ l2') by (intros H; specialize (R2 _ H); lia).
  set (bl2 := <[cur := Shmem.set_size (Shmem.size bc + Shmem.size bn) bc]>
                (Shmem.blocks h)).
  assert (Hsame : forall x, x <> cur -> bl2 !! x = Shmem.blocks h !! x)
    by (intros x Hx; unfold bl2; now rewrite lookup_insert_ne by congruence).
  assert (Hfree' : forall x, x <> cur -> is_free bl2 x <-> is_free (Shmem.blocks h) x)
    by (intros x Hx; unfold is_free; now rewrite Hsame).
  assert (Ed : Shmem.dlist_delete nx (l1 ++ cur :: nx :: l2') = l1 ++ cur :: l2').
  { change (l1 ++ cur :: nx :: l2') with (l1 ++ [cur] ++ nx :: l2').
    rewrite app_assoc, dlist_delete_app; [now rewrite <- app_assoc|].
    intros H. apply elem_of_app in H as [H|H]; [contradiction|].
    apply list_elem_of_singleton in H. lia. }
  rewrite Ed. simpl in C2. destruct C2 as [C2a C2].
  eexists _, l2'. split; [reflexivity|]. split; [|split; [|split; [|split]]].
  - unfold pending. cbn [Shmem.addr_head Shmem.blocks Shmem.free_head
                          Shmem.total_size]. fold bl2.
    split; [reflexivity|]. split; [|split; [|split; [|split]]].
    + eexists. unfold bl2 at 1. rewrite lookup_insert_eq.
      split; [reflexivity|]. cbn [Shmem.size Shmem.set_size].
      split; [lia|]. split.
      * eapply tiles_ext; [|exact T1]. intros x Hx. rewrite Hsame; [reflexivity|].
        intros ->. contradiction.
      * replace (cur + (Shmem.size bc + Shmem.size bn))
          with (nx + Shmem.size bn) by lia.
        eapply tiles_ext; [|exact T2]. intros x Hx. rewrite Hsame; [reflexivity|].
        intros ->. contradiction.
    + eapply coalesced_ext; [|exact C1]. intros x Hx. apply Hfree'.
      intros ->. contradiction.
    + eapply coalesced_ext; [|exact C2]. intros x Hx. apply Hfree'.
      intros ->. contradiction.
    + now apply NoDup_dlist_delete.
    + intros x. rewrite elem_of_dlist_delete by exact Hn. rewrite Hf.
      rewrite !elem_of_app, elem_of_cons.
      destruct (Z.eq_dec x nx) as [->|Hxn]; [tauto|].
      destruct (Z.eq_dec x cur) as [->|Hxc]; [tauto|].
      rewrite Hfree' by exact Hxc. tauto.
  - destruct l2' as [|y l2']; [exact I|]. cbn [head]. intros Hy.
    apply C2a. split; [exists bn; auto|].
    apply Hfree' in Hy; [exact Hy|]. intros ->. apply Nc2, list_elem_of_here.
  - exact Hfree'.
  - destruct Hcov as [b0 [H0 [Hlo Hhi]]]. rewrite Hb in H0. inversion H0. subst b0.
    unfold covers. cbn [Shmem.blocks]. unfold bl2. rewrite lookup_insert_eq.
    eexists. split; [reflexivity|]. cbn [Shmem.size Shmem.set_size]. lia.
  - auto.
Qed.

Lemma free_finish (first : Z) (h : Shmem.ShmemHead) (cur : Z) (l1 l2 : list Z)
    (bc : Shmem.ShmemBlock) :
  pending first h cur l1 l2 -> Shmem.blocks h !! cur = Some bc ->
  match last l1 with
  | Some p => ~ is_free (Shmem.blocks h) p
  | None => True
  end ->
  match head l2 with
  | Some n => ~ is_free (Shmem.blocks h) n
  | None => True
  end ->
  arena_ok first
    {| Shmem.total_size := Shmem.total_size h;
       Shmem.free_size := Shmem.free_size h;
       Shmem.addr_head := Shmem.addr_head h;
       Shmem.free_head := cur :: Shmem.free_head h;
       Shmem.blocks :=
         <[cur := Shmem.set_magic Shmem.SHMEM_BLOCK_FREE bc]> (Shmem.blocks h) |}.
Proof.
  intros Hp Hbc Hprev Hnext.
  pose proof Hp as [E [[bc' [Hb [Hpos [T1 T2]]]] [C1 [C2 [Hn Hf]]]]].
  rewrite Hbc in Hb. inversion Hb. subst bc'. clear Hb.
  destruct (pending_sides _ _ _ _ _ Hp) as [bcs [Hbs [_ [L1 [L2 _]]]]].
  rewrite Hbc in Hbs. inversion Hbs. subst bcs. clear Hbs.
  assert (N1 : cur ∉ l1) by (intros H; specialize (L1 _ H); lia).
  assert (N2 : cur ∉ l2) by (intros H; specialize (L2 _ H); lia).
  set (bl' := <[cur := Shmem.set_magic Shmem.SHMEM_BLOCK_FREE bc]> (Shmem.blocks h)).
  assert (Hsame : forall x, x <> cur -> bl' !! x = Shmem.blocks h !! x)
    by (intros x Hx; unfold bl'; now rewrite lookup_insert_ne by congruence).
  assert (Hfree' : forall x, x <> cur -> is_free bl' x <-> is_free (Shmem.blocks h) x)
    by (intros x Hx; unfold is_free; now rewrite Hsame).
  assert (Hfc : is_free bl' cur).
  { eexists. unfold bl'. rewrite lookup_insert_eq. split; reflexivity. }
  unfold arena_ok. cbn [Shmem.addr_head Shmem.blocks Shmem.free_head
                         Shmem.total_size]. fold bl'. rewrite E.
  split; [|split; [|split]].
  - apply tiles_app. exists cur. split.
    + eapply tiles_ext; [|exact T1]. intros x Hx. rewrite Hsame; [reflexivity|].
      intros ->. contradiction.
    + simpl. split; [reflexivity|]. eexists. unfold bl' at 1.
      rewrite lookup_insert_eq. split; [reflexivity|].
      cbn [Shmem.size Shmem.set_magic]. split; [exact Hpos|].
      eapply tiles_ext; [|exact T2]. intros x Hx. rewrite Hsame; [reflexivity|].
      intros ->. contradiction.
  - apply coalesced_app. split; [|split].
    + eapply coalesced_ext; [|exact C1]. intros x Hx. apply Hfree'.
      intros ->. contradiction.
    + simpl. split.
      * destruct l2 as [|y l2]; [exact I|]. cbn [head] in Hnext. intros [_ Hy].
        apply Hnext. apply Hfree' in Hy; [exact Hy|]. intros ->.
        apply N2, list_elem_of_here.
      * eapply coalesced_ext; [|exact C2]. intros x Hx. apply Hfree'.
        intros ->. contradiction.
    + destruct (last l1) as [p|] eqn:El; [|exact I]. cbn [head]. intros [Hp' _].
      apply Hprev. apply Hfree' in Hp'; [exact Hp'|]. intros ->.
      apply N1. apply last_Some in El as [l' ->]. apply elem_of_app. right.
      apply list_elem_of_here.
  - constructor; [|exact Hn]. intros H. apply Hf in H as [H _].
    apply elem_of_app in H as [H|H]; contradiction.
  - intros x. rewrite elem_of_cons, Hf, !elem_of_app, elem_of_cons.
    destruct (Z.eq_dec x cur) as [->|Hxc]; [tauto|].
    rewrite Hfree' by exact Hxc. tauto.
Qed.

Lemma free_spec (first : Z) (h : Shmem.ShmemHead) (block : Z)
    (b : Shmem.ShmemBlock) :
  arena_ok first h -> block ∈ Shmem.addr_head h ->
  Shmem.blocks h !! block = Some b ->
  Shmem.magic b <> Shmem.SHMEM_BLOCK_FREE ->
  exists h' a,
    Shmem.pgstrom_shmem_free h block = Done h' /\
    arena_ok first h' /\
    Shmem.total_size h' = Shmem.total_size h /\
    Shmem.free_size h' = Shmem.free_size h + Shmem.size b /\
    head (Shmem.free_head h') = Some a /\
    covers h' a block (block + Shmem.size b).
Proof.
  intros Hok Hin Hb Hused.
  assert (Hnf : ~ is_free (Shmem.blocks h) block).
  { intros [b0 [H0 Hm]]. rewrite Hb in H0. inversion H0. subst. contradiction. }
  destruct (pending_of_arena first h block Hok Hin Hnf) as [l1 [l2 Hp]].
  unfold Shmem.pgstrom_shmem_free, Shmem.block_at at 1. rewrite Hb. cbn [obind].
  set (h0 := {| Shmem.total_size := Shmem.total_size h;
                Shmem.free_size := Shmem.free_size h + Shmem.size b;
                Shmem.addr_head := Shmem.addr_head h;
                Shmem.free_head := Shmem.free_head h;
                Shmem.blocks := Shmem.blocks h |}).
  assert (Hp0 : pending first h0 block l1 l2) by exact Hp.
  assert (Hc0 : covers h0 block block (block + Shmem.size b)).
  { exists b. split; [exact Hb|]. lia. }
  destruct (merge_prev_pending first h0 block l1 l2 _ _ Hp0 Hc0)
    as [h1 [cur [l1' [E1 [Hp1 [Q1 [Hc1 [Ht1 Hs1]]]]]]]].
  rewrite E1. cbn [obind].
  destruct (merge_next_pending first h1 cur l1' l2 _ _ Hp1 Hc1)
    as [h2 [l2' [E2 [Hp2 [Q2 [Hfree [Hc2 [Ht2 Hs2]]]]]]]].
  rewrite E2. cbn [obind].
  destruct Hc2 as [bc [Hbc [Hlo Hhi]]].
  unfold Shmem.block_at. rewrite Hbc. cbn [obind].
  eexists _, cur. split; [reflexivity|]. split; [|split; [|split; [|split]]].
  - apply (free_finish first h2 cur l1' l2' bc Hp2 Hbc); [|exact Q2].
    destruct (last l1') as [p|] eqn:El; [|exact I]. intros Hfp. apply Q1.
    apply Hfree; [|exact Hfp]. intros ->.
    destruct (pending_sides _ _ _ _ _ Hp2) as [_ [_ [_ [L1 _]]]].
    apply last_Some in El as [l' ->].
    specialize (L1 cur ltac:(apply elem_of_app; right; apply list_elem_of_here)).
    lia.
  - cbn [Shmem.total_size]. rewrite Ht2, Ht1. reflexivity.
  - cbn [Shmem.free_size]. rewrite Hs2, Hs1. reflexivity.
  - reflexivity.
  - unfold covers. cbn [Shmem.blocks]. rewrite lookup_insert_eq.
    eexists. split; [reflexivity|]. cbn [Shmem.size Shmem.set_magic]. lia.
Qed.

(** X17.  [pgstrom_shmem_alloc] is first fit: it returns the first block
    of the free list that is large enough, tagged with the caller's
    magic, process and owner.  A block less than 4096 bytes larger than
    the request is handed out whole and [free_size] drops by its size;
    a larger one is cut at the requested size, the rest becomes a free
    block at the head of the free list, and [free_size] is left as it
    was.  No other block of the segment is touched. *)
Theorem alloc_takes_first_fit (first mypid myowner : Z)
    (h : Shmem.ShmemHead) (magic' size' : Z) (l1 l2 : list Z) (a : Z)
    (b : Shmem.ShmemBlock) :
  arena_ok first h -> 0 <= size' ->
  Shmem.free_head h = l1 ++ a :: l2 ->
  (forall x, x ∈ l1 ->
     exists bx, Shmem.blocks h !! x = Some bx /\
                Shmem.size bx < Shmem.required_size size') ->
  Shmem.blocks h !! a = Some b ->
  Shmem.required_size size' <= Shmem.size b ->
  exists h',
    Shmem.pgstrom_shmem_alloc mypid myowner h magic' size' = Done (h', Some a) /\
    (forall x, x ∈ Shmem.addr_head h -> x <> a ->
       Shmem.blocks h' !! x = Shmem.blocks h !! x) /\
    if Shmem.size b <? Shmem.required_size size' + 4096 then
      Shmem.blocks h' !! a
      = Some {| Shmem.magic := magic'; Shmem.size := Shmem.size b;
                Shmem.pid := mypid; Shmem.owner := myowner;
                Shmem.overrun_marker := Shmem.SHMEM_BLOCK_OVERRUN_MARK |} /\
      Shmem.addr_head h' = Shmem.addr_head h /\
      Shmem.free_head h' = l1 ++ l2 /\
      Shmem.free_size h' = Shmem.free_size h - Shmem.size b
    else
      Shmem.blocks h' !! a
      = Some {| Shmem.magic := magic';
                Shmem.size := Shmem.required_size size';
                Shmem.pid := mypid; Shmem.owner := myowner;
                Shmem.overrun_marker := Shmem.SHMEM_BLOCK_OVERRUN_MARK |} /\
      block_info h' (a + Shmem.required_size size')
      = Some (Shmem.SHMEM_BLOCK_FREE,
              Shmem.size b - Shmem.required_size size') /\
      Shmem.free_head h' = (a + Shmem.required_size size') :: l1 ++ l2 /\
      Shmem.free_size h' = Shmem.free_size h.
Proof.
  intros Hok Hsize E Hsmall Hb Hfit.
  pose proof (required_size_pos size' Hsize) as Hreq.
  pose proof Hok as [Ht [Hc [Hn Hf]]].
  assert (Hfh : a ∈ Shmem.free_head h).
  { rewrite E. apply elem_of_app. right. apply list_elem_of_here. }
  pose proof (proj1 (Hf a) Hfh) as [Hin _].
  destruct (arena_split first h a Hok Hin)
    as [k1 [k2 [b' [Ea [Hb' [Hpos [N1 [N2 [T1 [T2 [L1 L2]]]]]]]]]]].
  rewrite Hb in Hb'. inversion Hb'. subst b'. clear Hb'.
  assert (Hdel : Shmem.dlist_delete a (Shmem.free_head h) = l1 ++ l2).
  { rewrite E in Hn |- *. apply NoDup_app in Hn as [_ [Hd _]].
    apply dlist_delete_app. intros H. apply (Hd a H), list_elem_of_here. }
  pose proof (alloc_loop_takes h magic' (Shmem.required_size size')
                l1 a l2 b None Hsmall Hb Hfit) as El.
  rewrite <- E in El.
  assert (Hdom : exists b1,
             Shmem.blocks (taken h a b magic' (Shmem.required_size size')) !! a
             = Some b1).
  { unfold taken.
    destruct (Shmem.size b <? Shmem.required_size size' + 4096);
      simpl; rewrite lookup_insert_eq; eauto. }
  rewrite (alloc_stamps mypid myowner h _ magic' size' a El Hdom).
  eexists. split; [reflexivity|]. clear El Hdom.
  unfold stamped, taken.
  destruct (Z.ltb_spec (Shmem.size b) (Shmem.required_size size' + 4096))
    as [Hw|Hs]; cbn [Shmem.blocks]; rewrite lookup_insert_eq;
    cbn [Shmem.blocks Shmem.addr_head Shmem.free_head Shmem.free_size
         Shmem.total_size].
  - split.
    + intros x _ Hx. now rewrite !lookup_insert_ne by congruence.
    + rewrite lookup_insert_eq. auto.
  - assert (Hna : a + Shmem.required_size size' <> a) by lia.
    split.
    + intros x Hx Hxa. rewrite !lookup_insert_ne; try congruence.
      intros <-. rewrite Ea in Hx.
      apply elem_of_app in Hx as [Hx|Hx]; [specialize (L1 _ Hx); lia|].
      apply elem_of_cons in Hx as [Hx|Hx]; [lia|].
      specialize (L2 _ Hx). lia.
    + rewrite lookup_insert_eq. split; [reflexivity|]. split; [|split].
      * unfold block_info. cbn [Shmem.blocks].
        rewrite !lookup_insert_ne by congruence.
        rewrite lookup_insert_eq. reflexivity.
      * rewrite Hdel. reflexivity.
      * reflexivity.
Qed.

Lemma alloc_takes_first_fit_witness :
  exists h',
    Shmem.pgstrom_shmem_alloc 42 9 (Shmem.pgstrom_shmem_startup 4096 65536)
      Shmem.SHMEM_BLOCK_STROM_QUEUE 1000 = Done (h', Some 4096) /\
    block_info h' 4096 = Some (Shmem.SHMEM_BLOCK_STROM_QUEUE, 1072) /\
    block_info h' 5168 = Some (Shmem.SHMEM_BLOCK_FREE, 64464) /\
    Shmem.free_head h' = [5168] /\ Shmem.free_size h' = 65536.
Proof.
  destruct (alloc_takes_first_fit 4096 42 9
              (Shmem.pgstrom_shmem_startup 4096 65536)
              Shmem.SHMEM_BLOCK_STROM_QUEUE 1000 [] [] 4096
              {| Shmem.magic := Shmem.SHMEM_BLOCK_FREE; Shmem.size := 65536;
                 Shmem.pid := 0; Shmem.owner := 0; Shmem.overrun_marker := 0 |})
    as [h' [E [_ [Ha [Hn [Hf Hs]]]]]].
  - apply startup_arena. lia.
  - lia.
  - reflexivity.
  - intros x Hx. inversion Hx.
  - reflexivity.
  - vm_compute. discriminate.
  - exists h'. split; [exact E|]. split; [|split; [exact Hn|split; [exact Hf|exact Hs]]].
    unfold block_info. rewrite Ha. reflexivity.
Defined.

Lemma used_arena_ok : arena_ok 4096 used_arena.
Proof.
  assert (Hf : is_free (Shmem.blocks used_arena) 5168).
  { eexists. split; [reflexivity|reflexivity]. }
  assert (Hu : ~ is_free (Shmem.blocks used_arena) 4096).
  { intros [b [Hb Hm]]. vm_compute in Hb. inversion Hb. subst b.
    vm_compute in Hm. discriminate. }
  unfold arena_ok. split; [|split; [|split]].
  - simpl. split; [reflexivity|]. eexists. split; [reflexivity|].
    split; [reflexivity|]. split; [reflexivity|]. eexists.
    split; [reflexivity|]. split; reflexivity.
  - simpl. split; [|auto]. intros [H _]. exact (Hu H).
  - apply NoDup_singleton.
  - intros a. simpl Shmem.free_head. simpl Shmem.addr_head.
    rewrite list_elem_of_singleton, !elem_of_cons, elem_of_nil. split.
    + intros ->. split; [auto|exact Hf].
    + intros [[->|[->|[]]] H]; [contradiction|reflexivity].
Qed.

Lemma free_merge_prev_keep (h : Shmem.ShmemHead) (a : Z) (k1 k2 : list Z) :
  Shmem.addr_head h = k1 ++ a :: k2 -> (a ∉ k1) -> (a ∉ k2) ->
  (exists b, Shmem.blocks h !! a = Some b) ->
  (forall p, last k1 = Some p ->
     exists bp, Shmem.blocks h !! p = Some bp /\
                Shmem.magic bp <> Shmem.SHMEM_BLOCK_FREE) ->
  Shmem.free_merge_prev h a = Done (h, a).
Proof.
  intros E N1 N2 [b Hb] Hp. unfold Shmem.free_merge_prev.
  rewrite E, dlist_prev_app by assumption.
  destruct (last k1) as [p|]; [|reflexivity].
  destruct (Hp p eq_refl) as [bp [Hbp Hm]].
  unfold Shmem.block_at. rewrite Hb, Hbp. cbn [obind].
  destruct (Z.eqb_spec (Shmem.magic bp) Shmem.SHMEM_BLOCK_FREE);
    [contradiction|reflexivity].
Qed.

Lemma free_merge_next_keep (h : Shmem.ShmemHead) (a : Z) (k1 k2 : list Z) :
  Shmem.addr_head h = k1 ++ a :: k2 -> (a ∉ k1) ->
  (exists b, Shmem.blocks h !! a = Some b) ->
  (forall n, head k2 = Some n ->
     exists bn, Shmem.blocks h !! n = Some bn /\
                Shmem.magic bn <> Shmem.SHMEM_BLOCK_FREE) ->
  Shmem.free_merge_next h a = Done h.
Proof.
  intros E N1 [b Hb] Hn. unfold Shmem.free_merge_next.
  rewrite E, dlist_next_app by assumption.
  destruct (head k2) as [n|]; [|reflexivity].
  destruct (Hn n eq_refl) as [bn [Hbn Hm]].
  unfold Shmem.block_at. rewrite Hb, Hbn. cbn [obind].
  destruct (Z.eqb_spec (Shmem.magic bn) Shmem.SHMEM_BLOCK_FREE);
    [contradiction|reflexivity].
Qed.

Lemma free_merge_next_merges (h : Shmem.ShmemHead) (a n : Z) (k1 k2 : list Z)
    (b bn : Shmem.ShmemBlock) :
  Shmem.addr_head h = k1 ++ a :: n :: k2 -> (a ∉ k1) ->
  Shmem.blocks h !! a = Some b -> Shmem.blocks h !! n = Some bn ->
  Shmem.magic bn = Shmem.SHMEM_BLOCK_FREE ->
  Shmem.free_merge_next h a
  = Done {| Shmem.total_size := Shmem.total_size h;
            Shmem.free_size := Shmem.free_size h;
            Shmem.addr_head := Shmem.dlist_delete n (Shmem.addr_head h);
            Shmem.free_head := Shmem.dlist_delete n (Shmem.free_head h);
            Shmem.blocks :=
              <[a := Shmem.set_size (Shmem.size b + Shmem.size bn) b]>
                (Shmem.blocks h) |}.
Proof.
  intros E N1 Hb Hbn Hm. unfold Shmem.free_merge_next.
  rewrite E at 1. rewrite dlist_next_app by assumption. cbn [head].
  unfold Shmem.block_at. rewrite Hb, Hbn. cbn [obind].
  rewrite Hm, Z.eqb_refl. reflexivity.
Qed.

(** The neighbours of a free block are in use. *)
Lemma free_block_neighbours (first : Z) (h : Shmem.ShmemHead) (a : Z)
    (k1 k2 : list Z) :
  arena_ok first h -> Shmem.addr_head h = k1 ++ a :: k2 ->
  is_free (Shmem.blocks h) a ->
  (forall p, last k1 = Some p ->
     exists bp, Shmem.blocks h !! p = Some bp /\
                Shmem.magic bp <> Shmem.SHMEM_BLOCK_FREE) /\
  (forall n, head k2 = Some n ->
     exists bn, Shmem.blocks h !! n = Some bn /\
                Shmem.magic bn <> Shmem.SHMEM_BLOCK_FREE).
Proof.
  intros [Ht [Hc _]] E Hfa. rewrite E in Ht, Hc.
  assert (Hdom : forall x, x ∈ k1 ++ a :: k2 ->
            exists bx, Shmem.blocks h !! x = Some bx).
  { revert Ht. generalize (first + Shmem.total_size h). generalize first.
    generalize (k1 ++ a :: k2). induction l as [|y l IH]; intros s e Ht x Hx.
    - inversion Hx.
    - destruct Ht as [-> [by' [Hy [_ Ht]]]].
      apply elem_of_cons in Hx as [->|Hx]; [eauto|]. eapply IH; eauto. }
  apply coalesced_app in Hc as [_ [Hc2 Hc1]]. split.
  - intros p Hp. rewrite Hp in Hc1. cbn [head] in Hc1.
    destruct (Hdom p) as [bp Hbp].
    { apply elem_of_app. left. apply last_Some in Hp as [l' ->].
      apply elem_of_app. right. apply list_elem_of_here. }
    exists bp. split; [exact Hbp|]. intros Hm. apply Hc1. split; [|exact Hfa].
    exists bp. auto.
  - intros n Hn. destruct k2 as [|n' k2]; [discriminate|].
    cbn [head] in Hn. inversion Hn. subst n'.
    destruct Hc2 as [Hc2 _].
    destruct (Hdom n) as [bn Hbn].
    { apply elem_of_app. right. apply list_elem_of_further, list_elem_of_here. }
    exists bn. split; [exact Hbn|]. intros Hm. apply Hc2. split; [exact Hfa|].
    exists bn. auto.
Qed.

Lemma free_without_merge (h : Shmem.ShmemHead) (a : Z) (k1 k2 : list Z)
    (b : Shmem.ShmemBlock) :
  Shmem.addr_head h = k1 ++ a :: k2 -> (a ∉ k1) -> (a ∉ k2) ->
  Shmem.blocks h !! a = Some b ->
  (forall p, last k1 = Some p ->
     exists bp, Shmem.blocks h !! p = Some bp /\
                Shmem.magic bp <> Shmem.SHMEM_BLOCK_FREE) ->
  (forall n, head k2 = Some n ->
     exists bn, Shmem.blocks h !! n = Some bn /\
                Shmem.magic bn <> Shmem.SHMEM_BLOCK_FREE) ->
  Shmem.pgstrom_shmem_free h a
  = Done {| Shmem.total_size := Shmem.total_size h;
            Shmem.free_size := Shmem.free_size h + Shmem.size b;
            Shmem.addr_head := Shmem.addr_head h;
            Shmem.free_head := a :: Shmem.free_head h;
            Shmem.blocks :=
              <[a := Shmem.set_magic Shmem.SHMEM_BLOCK_FREE b]> (Shmem.blocks h) |}.
Proof.
  intros E N1 N2 Hb Hp Hn. unfold Shmem.pgstrom_shmem_free.
  unfold Shmem.block_at at 1. rewrite Hb. cbn [obind].
  rewrite (free_merge_prev_keep _ a k1 k2) by (cbn; eauto). cbn [obind].
  rewrite (free_merge_next_keep _ a k1 k2) by (cbn; eauto). cbn [obind].
  unfold Shmem.block_at. cbn [Shmem.blocks]. rewrite Hb. reflexivity.
Qed.

Lemma free_merges_next (h : Shmem.ShmemHead) (a n : Z) (k1 k2 : list Z)
    (b bn : Shmem.ShmemBlock) :
  Shmem.addr_head h = k1 ++ a :: n :: k2 -> (a ∉ k1) -> (a ∉ n :: k2) ->
  Shmem.blocks h !! a = Some b -> Shmem.blocks h !! n = Some bn ->
  Shmem.magic bn = Shmem.SHMEM_BLOCK_FREE ->
  (forall p, last k1 = Some p ->
     exists bp, Shmem.blocks h !! p = Some bp /\
                Shmem.magic bp <> Shmem.SHMEM_BLOCK_FREE) ->
  Shmem.pgstrom_shmem_free h a
  = Done {| Shmem.total_size := Shmem.total_size h;
            Shmem.free_size := Shmem.free_size h + Shmem.size b;
            Shmem.addr_head := Shmem.dlist_delete n (Shmem.addr_head h);
            Shmem.free_head := a :: Shmem.dlist_delete n (Shmem.free_head h);
            Shmem.blocks :=
              <[a := Shmem.set_magic Shmem.SHMEM_BLOCK_FREE
                       (Shmem.set_size (Shmem.size b + Shmem.size bn) b)]>
                (<[a := Shmem.set_size (Shmem.size b + Shmem.size bn) b]>
                   (Shmem.blocks h)) |}.
Proof.
  intros E N1 N2 Hb Hbn Hm Hp. unfold Shmem.pgstrom_shmem_free.
  unfold Shmem.block_at at 1. rewrite Hb. cbn [obind].
  rewrite (free_merge_prev_keep _ a k1 (n :: k2)) by (cbn; eauto). cbn [obind].
  rewrite (free_merge_next_merges _ a n k1 k2 b bn) by (cbn; eauto).
  cbn [obind]. unfold Shmem.block_at. cbn [Shmem.blocks].
  rewrite lookup_insert_eq. reflexivity.
Qed.

Lemma alloc_first_fit_eq (mypid myowner : Z) (h : Shmem.ShmemHead)
    (magic' size' : Z) (l1 l2 : list Z) (a : Z) (b : Shmem.ShmemBlock) :
  Shmem.free_head h = l1 ++ a :: l2 ->
  (forall x, x ∈ l1 ->
     exists bx, Shmem.blocks h !! x = Some bx /\
                Shmem.size bx < Shmem.required_size size') ->
  Shmem.blocks h !! a = Some b ->
  Shmem.required_size size' <= Shmem.size b ->
  Shmem.pgstrom_shmem_alloc mypid myowner h magic' size'
  = Done (stamped mypid myowner
            (taken h a b magic' (Shmem.required_size size')) a, Some a).
Proof.
  intros E Hsmall Hb Hfit.
  pose proof (alloc_loop_takes h magic' (Shmem.required_size size')
                l1 a l2 b None Hsmall Hb Hfit) as El.
  rewrite <- E in El. apply alloc_stamps; [exact El|].
  unfold taken.
  destruct (Shmem.size b <? Shmem.required_size size' + 4096);
    simpl; rewrite lookup_insert_eq; eauto.
Qed.

(** X18.  Releasing the block that [pgstrom_shmem_alloc] has just handed
    out gives the segment its old layout back: the same blocks in
    address order with their old sizes and tags, and the same free
    blocks, the released one now first in the free list.  The counter
    [free_size] comes back to its old value when the block was handed
    out whole; when the block was cut, the counter was not lowered by
    the allocation, and ends higher by the allocated size. *)
Theorem alloc_then_free (first mypid myowner : Z) (h : Shmem.ShmemHead)
    (magic' size' : Z) (l1 l2 : list Z) (a : Z) (b : Shmem.ShmemBlock) :
  arena_ok first h -> 0 <= size' ->
  Shmem.free_head h = l1 ++ a :: l2 ->
  (forall x, x ∈ l1 ->
     exists bx, Shmem.blocks h !! x = Some bx /\
                Shmem.size bx < Shmem.required_size size') ->
  Shmem.blocks h !! a = Some b ->
  Shmem.required_size size' <= Shmem.size b ->
  exists h' h'',
    Shmem.pgstrom_shmem_alloc mypid myowner h magic' size' = Done (h', Some a) /\
    Shmem.pgstrom_shmem_free h' a = Done h'' /\
    Shmem.addr_head h'' = Shmem.addr_head h /\
    (forall x, x ∈ Shmem.addr_head h -> block_info h'' x = block_info h x) /\
    Shmem.free_head h'' = a :: l1 ++ l2 /\
    Shmem.total_size h'' = Shmem.total_size h /\
    Shmem.free_size h''
    = if Shmem.size b <? Shmem.required_size size' + 4096
      then Shmem.free_size h
      else Shmem.free_size h + Shmem.required_size size'.
Proof.
  intros Hok Hsize E Hsmall Hb Hfit.
  pose proof (required_size_pos size' Hsize) as Hreq.
  pose proof Hok as [Ht [Hc [Hn Hf]]].
  assert (Hfh : a ∈ Shmem.free_head h).
  { rewrite E. apply elem_of_app. right. apply list_elem_of_here. }
  pose proof (proj1 (Hf a) Hfh) as [Hin Hfree].
  assert (Hmb : Shmem.magic b = Shmem.SHMEM_BLOCK_FREE).
  { destruct Hfree as [b0 [H0 Hm]]. rewrite Hb in H0. inversion H0. now subst. }
  destruct (arena_split first h a Hok Hin)
    as [k1 [k2 [b' [Ea [Hb' [Hpos [N1 [N2 [T1 [T2 [L1 L2]]]]]]]]]]].
  rewrite Hb in Hb'. inversion Hb'. subst b'. clear Hb'.
  destruct (free_block_neighbours first h a k1 k2 Hok Ea Hfree) as [Hp Hnx].
  assert (Hdel : Shmem.dlist_delete a (Shmem.free_head h) = l1 ++ l2).
  { rewrite E in Hn |- *. apply NoDup_app in Hn as [_ [Hd _]].
    apply dlist_delete_app. intros H. apply (Hd a H), list_elem_of_here. }
  assert (Hlast : forall p, last k1 = Some p -> p ∈ k1).
  { intros p Hl. apply last_Some in Hl as [l' ->]. apply elem_of_app. right.
    apply list_elem_of_here. }
  assert (Hhead : forall n, head k2 = Some n -> n ∈ k2).
  { intros n Hh. destruct k2; [discriminate|]. inversion Hh.
    apply list_elem_of_here. }
  rewrite (alloc_first_fit_eq mypid myowner h magic' size' l1 l2 a b E Hsmall
             Hb Hfit).
  set (req := Shmem.required_size size') in *.
  unfold stamped, taken.
  destruct (Z.ltb_spec (Shmem.size b) (req + 4096))
    as [Hw|Hs]; cbn [Shmem.blocks]; rewrite lookup_insert_eq;
    cbn [Shmem.magic Shmem.size Shmem.set_magic Shmem.set_size].
  - (* handed out whole *)
    do 2 eexists. split; [reflexivity|]. split.
    + apply (free_without_merge _ a k1 k2); cbn [Shmem.addr_head Shmem.blocks];
        auto.
      * apply lookup_insert_eq.
      * intros p Hl. destruct (Hp p Hl) as [bp [Hbp Hm]]. exists bp.
        split; [|exact Hm]. rewrite !lookup_insert_ne; [exact Hbp| |];
          intros <-; exact (N1 (Hlast _ Hl)).
      * intros n Hh. destruct (Hnx n Hh) as [bn [Hbn Hm]]. exists bn.
        split; [|exact Hm]. rewrite !lookup_insert_ne; [exact Hbn| |];
          intros <-; exact (N2 (Hhead _ Hh)).
    + cbn [Shmem.addr_head Shmem.free_head Shmem.total_size Shmem.free_size
           Shmem.size].
      split; [reflexivity|]. split; [|split; [now rewrite Hdel|split; [reflexivity|lia]]].
      intros x Hx. unfold block_info. cbn [Shmem.blocks].
      destruct (Z.eq_dec x a) as [->|Hne].
      * rewrite lookup_insert_eq, Hb. cbn. now rewrite Hmb.
      * now rewrite !lookup_insert_ne by congruence.
  - (* cut at the requested size *)
    assert (Hn1 : a + req ∉ k1) by (intros H; specialize (L1 _ H); lia).
    assert (Hn2 : a + req ∉ k2) by (intros H; specialize (L2 _ H); lia).
    assert (Hna : a + req <> a) by lia.
    assert (Hins : Shmem.dlist_insert_after a (a + req) (Shmem.addr_head h)
                   = k1 ++ a :: (a + req) :: k2).
    { rewrite Ea. now apply dlist_insert_after_app. }
    do 2 eexists. split; [reflexivity|]. split.
    + eapply (free_merges_next _ a (a + req) k1 k2);
        cbn [Shmem.addr_head Shmem.blocks].
      * exact Hins.
      * exact N1.
      * intros H. apply elem_of_cons in H as [H|H]; [lia|exact (N2 H)].
      * apply lookup_insert_eq.
      * rewrite !lookup_insert_ne by congruence. apply lookup_insert_eq.
      * reflexivity.
      * intros p Hl. destruct (Hp p Hl) as [bp [Hbp Hm]]. exists bp.
        split; [|exact Hm].
        assert (p <> a) by (intros ->; exact (N1 (Hlast _ Hl))).
        assert (p <> a + req) by (intros ->; exact (Hn1 (Hlast _ Hl))).
        now rewrite !lookup_insert_ne by congruence.
    + cbn [Shmem.addr_head Shmem.free_head Shmem.total_size Shmem.free_size
           Shmem.size].
      split; [|split; [|split; [|split; [reflexivity|reflexivity]]]].
      * rewrite Hins, Ea.
        change (k1 ++ a :: (a + req) :: k2) with (k1 ++ [a] ++ (a + req) :: k2).
        rewrite app_assoc. rewrite dlist_delete_app; [now rewrite <- app_assoc|].
        intros H. apply elem_of_app in H as [H|H]; [exact (Hn1 H)|].
        apply list_elem_of_singleton in H. lia.
      * intros x Hx. unfold block_info. cbn [Shmem.blocks].
        destruct (Z.eq_dec x a) as [->|Hne].
        -- rewrite lookup_insert_eq, Hb. cbn. rewrite Hmb. do 2 f_equal. lia.
        -- assert (x <> a + req).
           { intros ->. rewrite Ea in Hx.
             apply elem_of_app in Hx as [Hx|Hx]; [exact (Hn1 Hx)|].
             apply elem_of_cons in Hx as [Hx|Hx]; [lia|exact (Hn2 Hx)]. }
           now rewrite !lookup_insert_ne by congruence.
      * cbn [Shmem.dlist_delete]. rewrite Z.eqb_refl, Hdel. reflexivity.
Qed.

Lemma alloc_then_free_witness :
  exists h' h'',
    Shmem.pgstrom_shmem_alloc 42 9 (Shmem.pgstrom_shmem_startup 4096 65536)
      Shmem.SHMEM_BLOCK_STROM_QUEUE 1000 = Done (h', Some 4096) /\
    Shmem.pgstrom_shmem_free h' 4096 = Done h'' /\
    Shmem.addr_head h'' = [4096] /\
    block_info h'' 4096 = Some (Shmem.SHMEM_BLOCK_FREE, 65536) /\
    Shmem.free_head h'' = [4096] /\
    Shmem.total_size h'' = 65536 /\
    Shmem.free_size h'' = 65536 + 1072.
Proof.
  destruct (alloc_then_free 4096 42 9
              (Shmem.pgstrom_shmem_startup 4096 65536)
              Shmem.SHMEM_BLOCK_STROM_QUEUE 1000 [] [] 4096
              {| Shmem.magic := Shmem.SHMEM_BLOCK_FREE; Shmem.size := 65536;
                 Shmem.pid := 0; Shmem.owner := 0; Shmem.overrun_marker := 0 |})
    as [h' [h'' [E1 [E2 [Ha [Hi [Hf [Ht Hs]]]]]]]].
  - apply startup_arena. lia.
  - lia.
  - reflexivity.
  - intros x Hx. inversion Hx.
  - reflexivity.
  - vm_compute. discriminate.
  - exists h', h''. split; [exact E1|]. split; [exact E2|].
    split; [exact Ha|]. split; [|split; [exact Hf|split; [exact Ht|exact Hs]]].
    rewrite (Hi 4096 (list_elem_of_here _ _)). reflexivity.
Defined.

(** ** What [pgstrom_shmem_free] merges *)

Lemma dlist_delete_filter (x : Z) (l : list Z) :
  NoDup l -> Shmem.dlist_delete x l = List.filter (fun y => negb (y =? x)) l.
Proof.
  induction 1 as [|a l Ha Hl IH]; [reflexivity|]. simpl.
  destruct (Z.eqb_spec a x) as [->|Hne]; simpl.
  - clear IH. induction l as [|y l IH]; [reflexivity|]. simpl.
    apply not_elem_of_cons in Ha as [Hy Ha]. apply NoDup_cons in Hl as [_ Hl].
    destruct (Z.eqb_spec y x); [congruence|]. simpl. f_equal. auto.
  - now rewrite IH.
Qed.

Lemma elem_of_list_without (o : option (Z * Z)) (l : list Z) (x : Z) :
  x ∈ list_without o l -> x ∈ l.
Proof.
  destruct o as [[a sz]|]; [|auto]. simpl.
  rewrite !list_elem_of_In, List.filter_In. tauto.
Qed.

Lemma NoDup_list_without (o : option (Z * Z)) (l : list Z) :
  NoDup l -> NoDup (list_without o l).
Proof.
  destruct o as [[a sz]|]; [|auto]. simpl. intros H.
  apply NoDup_ListNoDup, List.NoDup_filter, NoDup_ListNoDup, H.
Qed.

Lemma tiles_dom bl : forall l s e x,
  tiles bl s l e -> x ∈ l -> exists b, bl !! x = Some b.
Proof.
  induction l as [|y l IH]; intros s e x Ht Hx; [inversion Hx|].
  destruct Ht as [-> [by' [Hy [_ Ht]]]].
  apply elem_of_cons in Hx as [->|Hx]; [eauto|]. eapply IH; eauto.
Qed.

Lemma merge_prev_exact (h : Shmem.ShmemHead) (block : Z) (k1 k2 : list Z)
    (b : Shmem.ShmemBlock) :
  Shmem.addr_head h = k1 ++ block :: k2 -> NoDup (Shmem.addr_head h) ->
  NoDup (Shmem.free_head h) ->
  Shmem.blocks h !! block = Some b ->
  (forall x, x ∈ k1 -> exists bx, Shmem.blocks h !! x = Some bx) ->
  match free_block h (last k1) with
  | Some (p, sz) =>
      exists k1c bp, k1 = k1c ++ [p] /\ Shmem.blocks h !! p = Some bp /\
        Shmem.size bp = sz /\
        Shmem.free_merge_prev h block
        = Done ({| Shmem.total_size := Shmem.total_size h;
                   Shmem.free_size := Shmem.free_size h;
                   Shmem.addr_head := k1c ++ p :: k2;
                   Shmem.free_head :=
                     list_without (Some (p, sz)) (Shmem.free_head h);
                   Shmem.blocks :=
                     <[p := Shmem.set_size (Shmem.size bp + Shmem.size b) bp]>
                       (Shmem.blocks h) |}, p)
  | None => Shmem.free_merge_prev h block = Done (h, block)
  end.
Proof.
  intros E Hnd Hnf Hb Hdom. rewrite E in Hnd.
  apply NoDup_app in Hnd as [_ [N1 N2]]. apply NoDup_cons in N2 as [N2 _].
  assert (Hn1 : block ∉ k1) by (intros H; apply (N1 block H), list_elem_of_here).
  assert (Hprev : Shmem.dlist_prev block (Shmem.addr_head h) = last k1)
    by (rewrite E; now apply dlist_prev_app).
  assert (Hdel : Shmem.dlist_delete block (Shmem.addr_head h) = k1 ++ k2)
    by (rewrite E; now apply dlist_delete_app).
  unfold Shmem.free_merge_prev, free_block. rewrite Hprev, Hdel.
  destruct (last k1) as [p|] eqn:El; [|reflexivity].
  apply last_Some in El as [k1c ->].
  destruct (Hdom p) as [bp Hp];
    [apply elem_of_app; right; apply list_elem_of_here|].
  rewrite Hp. unfold Shmem.block_at. rewrite Hb, Hp. cbn [obind].
  destruct (Z.eqb_spec (Shmem.magic bp) Shmem.SHMEM_BLOCK_FREE) as [Hm|Hm];
    [|reflexivity].
  exists k1c, bp. split; [reflexivity|]. split; [exact Hp|].
  split; [reflexivity|].
  rewrite <- app_assoc. simpl.
  rewrite dlist_delete_filter by assumption. reflexivity.
Qed.

Lemma merge_next_exact (h : Shmem.ShmemHead) (cur : Z) (k1 k2 : list Z)
    (bc : Shmem.ShmemBlock) :
  Shmem.addr_head h = k1 ++ cur :: k2 -> NoDup (Shmem.addr_head h) ->
  NoDup (Shmem.free_head h) ->
  Shmem.blocks h !! cur = Some bc ->
  (forall x, x ∈ k2 -> exists bx, Shmem.blocks h !! x = Some bx) ->
  match free_block h (head k2) with
  | Some (n, sz) =>
      Shmem.free_merge_next h cur
      = Done {| Shmem.total_size := Shmem.total_size h;
                Shmem.free_size := Shmem.free_size h;
                Shmem.addr_head := k1 ++ cur :: tail k2;
                Shmem.free_head :=
                  list_without (Some (n, sz)) (Shmem.free_head h);
                Shmem.blocks :=
                  <[cur := Shmem.set_size (Shmem.size bc + sz) bc]>
                    (Shmem.blocks h) |}
  | None => Shmem.free_merge_next h cur = Done h
  end.
Proof.
  intros E Hnd Hnf Hb Hdom. rewrite E in Hnd.
  pose proof Hnd as Hnd'.
  apply NoDup_app in Hnd as [_ [N1 N2]]. apply NoDup_cons in N2 as [N2 N3].
  assert (Hn1 : cur ∉ k1) by (intros H; apply (N1 cur H), list_elem_of_here).
  assert (Hnext : Shmem.dlist_next cur (Shmem.addr_head h) = head k2)
    by (rewrite E; now apply dlist_next_app).
  unfold Shmem.free_merge_next, free_block. rewrite Hnext.
  destruct k2 as [|n k2]; [reflexivity|]. cbn [head tail].
  destruct (Hdom n) as [bn Hn]; [apply list_elem_of_here|].
  rewrite Hn. unfold Shmem.block_at. rewrite Hb, Hn. cbn [obind].
  destruct (Z.eqb_spec (Shmem.magic bn) Shmem.SHMEM_BLOCK_FREE) as [Hm|Hm];
    [|reflexivity].
  assert (Hdel : Shmem.dlist_delete n (Shmem.addr_head h) = k1 ++ cur :: k2).
  { rewrite E.
    change (k1 ++ cur :: n :: k2) with (k1 ++ [cur] ++ n :: k2).
    rewrite app_assoc, dlist_delete_app; [now rewrite <- app_assoc|].
    intros H. apply elem_of_app in H as [H|H].
    - apply (N1 n H). apply list_elem_of_further, list_elem_of_here.
    - apply list_elem_of_singleton in H. subst n. apply N2, list_elem_of_here. }
  rewrite Hdel, dlist_delete_filter by assumption. reflexivity.
Qed.

Lemma free_block_ext (h h' : Shmem.ShmemHead) (o : option Z) :
  (forall x, o = Some x -> Shmem.blocks h' !! x = Shmem.blocks h !! x) ->
  free_block h' o = free_block h o.
Proof.
  intros H. destruct o as [x|]; [|reflexivity]. simpl. now rewrite H.
Qed.

Lemma NoDup_app_remove {A} (l1 l2 : list A) (x : A) :
  NoDup (l1 ++ x :: l2) -> NoDup (l1 ++ l2).
Proof.
  rewrite !NoDup_app. intros [H1 [H2 H3]]. apply NoDup_cons in H3 as [_ H3].
  split; [exact H1|]. split; [|exact H3].
  intros y Hy Hy2. apply (H2 y Hy). now apply list_elem_of_further.
Qed.

Lemma free_exact (h : Shmem.ShmemHead) (block : Z) (k1 k2 : list Z)
    (b : Shmem.ShmemBlock) :
  Shmem.addr_head h = k1 ++ block :: k2 -> NoDup (Shmem.addr_head h) ->
  NoDup (Shmem.free_head h) ->
  Shmem.blocks h !! block = Some b ->
  (forall x, x ∈ Shmem.addr_head h -> exists bx, Shmem.blocks h !! x = Some bx) ->
  exists h',
    Shmem.pgstrom_shmem_free h block = Done h' /\
    Shmem.total_size h' = Shmem.total_size h /\
    Shmem.free_size h' = Shmem.free_size h + Shmem.size b /\
    Shmem.addr_head h'
    = k1 ++ match free_block h (last k1) with Some _ => [] | None => [block] end
         ++ match free_block h (head k2) with Some _ => tail k2 | None => k2 end /\
    Shmem.free_head h'
    = from_option fst block (free_block h (last k1))
      :: list_without (free_block h (head k2))
           (list_without (free_block h (last k1)) (Shmem.free_head h)) /\
    block_info h' (from_option fst block (free_block h (last k1)))
    = Some (Shmem.SHMEM_BLOCK_FREE,
            from_option snd 0 (free_block h (last k1)) + Shmem.size b
            + from_option snd 0 (free_block h (head k2))) /\
    (forall x, x <> from_option fst block (free_block h (last k1)) ->
       Shmem.blocks h' !! x = Shmem.blocks h !! x).
Proof.
  intros E Hnd Hnf Hb Hdom.
  assert (Hd1 : forall x, x ∈ k1 -> exists bx, Shmem.blocks h !! x = Some bx).
  { intros x Hx. apply Hdom. rewrite E. apply elem_of_app. now left. }
  assert (Hd2 : forall x, x ∈ k2 -> exists bx, Shmem.blocks h !! x = Some bx).
  { intros x Hx. apply Hdom. rewrite E. apply elem_of_app. right.
    now apply list_elem_of_further. }
  unfold Shmem.pgstrom_shmem_free, Shmem.block_at at 1. rewrite Hb. cbn [obind].
  set (h0 := {| Shmem.total_size := Shmem.total_size h;
                Shmem.free_size := Shmem.free_size h + Shmem.size b;
                Shmem.addr_head := Shmem.addr_head h;
                Shmem.free_head := Shmem.free_head h;
                Shmem.blocks := Shmem.blocks h |}).
  pose proof (merge_prev_exact h0 block k1 k2 b E Hnd Hnf Hb Hd1) as Hprev.
  change (free_block h0 (last k1)) with (free_block h (last k1)) in Hprev.
  destruct (free_block h (last k1)) as [[p sz]|] eqn:EP.
  - (* merged into the block before *)
    destruct Hprev as [k1c [bp [Ek [Hp [Hsz E1]]]]]. rewrite E1. cbn [obind].
    cbn [from_option fst snd].
    set (bc := Shmem.set_size (Shmem.size bp + Shmem.size b) bp).
    set (h1 := {| Shmem.total_size := Shmem.total_size h0;
                  Shmem.free_size := Shmem.free_size h0;
                  Shmem.addr_head := k1c ++ p :: k2;
                  Shmem.free_head :=
                    list_without (Some (p, sz)) (Shmem.free_head h0);
                  Shmem.blocks := <[p := bc]> (Shmem.blocks h0) |}).
    assert (Hnd1 : NoDup (k1c ++ p :: k2)).
    { rewrite E, Ek, <- app_assoc in Hnd. simpl in Hnd.
      change (k1c ++ p :: block :: k2) with (k1c ++ [p] ++ block :: k2) in Hnd.
      rewrite app_assoc in Hnd. apply NoDup_app_remove in Hnd.
      now rewrite <- app_assoc in Hnd. }
    assert (Hpk2 : p ∉ k2).
    { apply NoDup_app in Hnd1 as [_ [_ H]]. now apply NoDup_cons in H as [H _]. }
    pose proof (merge_next_exact h1 p k1c k2 bc eq_refl Hnd1
                  (NoDup_list_without _ _ Hnf) (lookup_insert_eq _ _ _)) as Hnext.
    rewrite (free_block_ext h h1 (head k2)) in Hnext.
    2:{ intros x Hx. cbn [Shmem.blocks h1 h0]. apply lookup_insert_ne.
        intros ->. apply Hpk2. destruct k2; [discriminate|]. inversion Hx.
        apply list_elem_of_here. }
    specialize (Hnext ltac:(intros x Hx; cbn [Shmem.blocks h1 h0];
      destruct (Z.eq_dec x p) as [->|Hne];
      [rewrite lookup_insert_eq; eauto
      |rewrite lookup_insert_ne by congruence; now apply Hd2])).
    destruct (free_block h (head k2)) as [[n szn]|] eqn:EN;
      rewrite Hnext; cbn [obind]; unfold Shmem.block_at;
      cbn [Shmem.blocks h1 h0]; rewrite lookup_insert_eq; cbn [obind];
      eexists; (split; [reflexivity|]);
      cbn [Shmem.total_size Shmem.free_size Shmem.addr_head Shmem.free_head
           Shmem.blocks h1 h0 from_option fst snd];
      (split; [reflexivity|]); (split; [reflexivity|]);
      (split; [rewrite Ek, <- app_assoc; reflexivity|]);
      (split; [reflexivity|]); split.
    + unfold block_info. cbn [Shmem.blocks]. rewrite lookup_insert_eq. cbn. f_equal. f_equal. lia.
    + intros x Hx. cbn [Shmem.blocks]. now rewrite !lookup_insert_ne by congruence.
    + unfold block_info. cbn [Shmem.blocks]. rewrite lookup_insert_eq. cbn. f_equal. f_equal. lia.
    + intros x Hx. cbn [Shmem.blocks]. now rewrite !lookup_insert_ne by congruence.
  - (* the block before is in use, or there is none *)
    rewrite Hprev. cbn [obind from_option fst snd].
    pose proof (merge_next_exact h0 block k1 k2 b E Hnd Hnf Hb Hd2) as Hnext.
    change (free_block h0 (head k2)) with (free_block h (head k2)) in Hnext.
    destruct (free_block h (head k2)) as [[n szn]|] eqn:EN;
      rewrite Hnext; cbn [obind]; unfold Shmem.block_at;
      cbn [Shmem.blocks h0]; rewrite ?lookup_insert_eq, ?Hb; cbn [obind];
      eexists; (split; [reflexivity|]);
      cbn [Shmem.total_size Shmem.free_size Shmem.addr_head Shmem.free_head
           Shmem.blocks h0 from_option fst snd];
      (split; [reflexivity|]); (split; [reflexivity|]);
      (split; [first [reflexivity | exact E]|]);
      (split; [reflexivity|]); split.
    + unfold block_info. cbn [Shmem.blocks]. rewrite lookup_insert_eq. cbn. reflexivity.
    + intros x Hx. cbn [Shmem.blocks]. now rewrite !lookup_insert_ne by congruence.
    + unfold block_info. cbn [Shmem.blocks]. rewrite lookup_insert_eq. cbn. f_equal. f_equal. lia.
    + intros x Hx. cbn [Shmem.blocks]. now rewrite !lookup_insert_ne by congruence.
Qed.

(** X16.  [pgstrom_shmem_free] merges the released block with the block
    before it and with the block behind it in address order, each if it
    is free, and with nothing else: the merged block starts at the free
    predecessor, or else at the released block, its size is the sum of
    the sizes, it is tagged free and put at the head of the free list,
    from which the merged neighbours are taken.  The absorbed blocks
    leave the address list and every other block is left as it was.
    The invariant of the segment is kept (the blocks tile the segment,
    no two neighbours are both free, the free list holds exactly the
    free blocks), [total_size] is unchanged and [free_size] grows by
    the size of the released block. *)
Theorem free_keeps_arena (first : Z) (h : Shmem.ShmemHead) (block : Z)
    (b : Shmem.ShmemBlock) (k1 k2 : list Z) :
  arena_ok first h -> Shmem.addr_head h = k1 ++ block :: k2 ->
  Shmem.blocks h !! block = Some b ->
  Shmem.magic b <> Shmem.SHMEM_BLOCK_FREE ->
  let prev := free_block h (last k1) in
  let next := free_block h (head k2) in
  let a := from_option fst block prev in
  exists h',
    Shmem.pgstrom_shmem_free h block = Done h' /\
    arena_ok first h' /\
    Shmem.total_size h' = Shmem.total_size h /\
    Shmem.free_size h' = Shmem.free_size h + Shmem.size b /\
    Shmem.addr_head h'
    = k1 ++ match prev with Some _ => [] | None => [block] end
         ++ match next with Some _ => tail k2 | None => k2 end /\
    Shmem.free_head h'
    = a :: list_without next (list_without prev (Shmem.free_head h)) /\
    block_info h' a
    = Some (Shmem.SHMEM_BLOCK_FREE,
            from_option snd 0 prev + Shmem.size b + from_option snd 0 next) /\
    (forall x, x <> a -> Shmem.blocks h' !! x = Shmem.blocks h !! x) /\
    covers h' a block (block + Shmem.size b).
Proof.
  intros Hok E Hb Hused prev next a. pose proof Hok as [Ht [_ [Hnf _]]].
  assert (Hin : block ∈ Shmem.addr_head h).
  { rewrite E. apply elem_of_app. right. apply list_elem_of_here. }
  destruct (free_exact h block k1 k2 b E (tiles_NoDup _ _ _ _ Ht) Hnf Hb
              (fun x Hx => tiles_dom _ _ _ _ x Ht Hx))
    as [h' [E1 [T [S [A [F [I Fr]]]]]]].
  destruct (free_spec first h block b Hok Hin Hb Hused)
    as [h2 [a2 [E2 [Hok2 [_ [_ [Hh C]]]]]]].
  rewrite E1 in E2. inversion E2. subst h2. clear E2.
  exists h'. split; [exact E1|]. split; [exact Hok2|]. split; [exact T|].
  split; [exact S|]. split; [exact A|]. split; [exact F|]. split; [exact I|].
  split; [exact Fr|].
  rewrite F in Hh. cbn [head] in Hh. inversion Hh as [Ha]. rewrite <- Ha in C.
  exact C.
Qed.

Lemma free_keeps_arena_witness :
  arena_ok 4096 used_arena /\
  exists h',
    Shmem.pgstrom_shmem_free used_arena 4096 = Done h' /\
    arena_ok 4096 h' /\ Shmem.total_size h' = 65536 /\
    Shmem.free_size h' = 65536 + 1072 /\
    Shmem.addr_head h' = [4096] /\
    Shmem.free_head h' = [4096] /\
    block_info h' 4096 = Some (Shmem.SHMEM_BLOCK_FREE, 65536) /\
    covers h' 4096 4096 5168.
Proof.
  split; [exact used_arena_ok|].
  destruct (free_keeps_arena 4096 used_arena 4096
              {| Shmem.magic := Shmem.SHMEM_BLOCK_STROM_QUEUE;
                 Shmem.size := 1072; Shmem.pid := 42; Shmem.owner := 9;
                 Shmem.overrun_marker := Shmem.SHMEM_BLOCK_OVERRUN_MARK |}
              [] [5168])
    as [h' [E [I [T [S [A [F [B [_ C]]]]]]]]].
  - exact used_arena_ok.
  - reflexivity.
  - reflexivity.
  - vm_compute. discriminate.
  - exists h'. split; [exact E|]. split; [exact I|]. split; [exact T|].
    split; [exact S|]. split; [exact A|]. split; [exact F|].
    split; [exact B|exact C].
Defined.
